(** * compare-all-the-names: the candidate validator and the pair-key builder

    A shallow embedding of [src/main.go]: the generation-stamped presence
    filter [validateOptimized], the probe-key enumeration
    [buildExpandedPairMappings], the id-level rewriting of the equivalence
    table done by [preprocessData], and the per-worker loop [processBatch].

    Conventions.
    - A token id ([uint32]) is an [N]; ids are only compared and used as
      indexes, never added, so no wrap-around is involved.
    - A generation stamp ([uint64]) is a [Z] in [0, 2^64); every addition
      on it is followed by [wrap64].
    - Go's [int] is taken to be 64 bits wide, so [int(id)] is [Z.of_N id]
      and lengths and counters are plain [Z].
    - A Go map is a [gmap]; a Go string is a [string] of bytes and [<] on
      strings is [String.ltb] (byte-wise lexicographic order).
    - A run-time panic (index out of range) is [None]. *)

From Stdlib Require Import ZArith NArith List String Ascii Lia Sorted.
From Stdlib Require Import DecimalString DecimalN DecimalPos.
From stdpp Require Import base option gmap sets list strings.

Local Open Scope Z_scope.

(** ** Machine integers *)

Definition wrap64 (z : Z) : Z := z mod 2 ^ 64.

(** ** The scratch buffer: a slice of [uint64] with checked accesses *)

Module Buffer.

(** [buf[i]]: panics when [i] is out of range. *)
Definition load (buf : list Z) (i : N) : option Z := buf !! N.to_nat i.

(** [buf[i] = v]: panics when [i] is out of range. *)
Definition store (buf : list Z) (i : N) (v : Z) : option (list Z) :=
  if decide (N.to_nat i < length buf)%nat
  then Some (<[N.to_nat i := v]> buf)
  else None.

(** [len(buf)] as an [int]. *)
Definition len (buf : list Z) : Z := Z.of_nat (length buf).

(** [make([]uint64, n)] *)
Definition make (n : nat) : list Z := replicate n 0.

End Buffer.

(** ** validateOptimized (main.go, lines 272-380) *)

Module Validator.

(** Lines 288-293 (and 327-331): the inner loop over one match list. *)
Fixpoint stampMatches (matches : list N) (gen : Z) (buf : list Z)
  : option (list Z) :=
  match matches with
  | [] => Some buf
  | matchID :: rest =>
      buf' ← (if Z.of_N matchID <? Buffer.len buf
              then Buffer.store buf matchID gen
              else Some buf);
      stampMatches rest gen buf'
  end.

(** Lines 286-295 (and 325-333): populate the buffer from one name. *)
Fixpoint populate (parts : list N) (wordToMatches : gmap N (list N))
    (gen : Z) (buf : list Z) : option (list Z) :=
  match parts with
  | [] => Some buf
  | wordID :: rest =>
      buf' ← match wordToMatches !! wordID with
              | Some matches => stampMatches matches gen buf
              | None => Some buf
              end;
      populate rest wordToMatches gen buf'
  end.

(** Lines 302-308: the naive duplicate check over [parts[0..i)]. *)
Fixpoint isDupe (earlier : list N) (wID : N) : bool :=
  match earlier with
  | [] => false
  | x :: rest => if N.eqb x wID then true else isDupe rest wID
  end.

(** Lines 311-317: the body of the counting loop for a non-duplicate. *)
Definition checkCell (buf : list Z) (gen : Z) (wID : N) (mismatches : Z)
  : option Z :=
  if Z.of_N wID <? Buffer.len buf
  then c ← Buffer.load buf wID;
       Some (if negb (c =? gen) then mismatches + 1 else mismatches)
  else Some (mismatches + 1).

(** Lines 298-318 (and 336-355): [earlier] is [parts[0..i)], [rest] is
    [parts[i..)]. *)
Fixpoint countMismatches (earlier rest : list N) (buf : list Z) (gen : Z)
    (mismatches : Z) : option Z :=
  match rest with
  | [] => Some mismatches
  | wID :: rest' =>
      m' ← (if isDupe earlier wID then Some mismatches
            else checkCell buf gen wID mismatches);
      countMismatches (earlier ++ [wID]) rest' buf gen m'
  end.

(** Lines 365-379: the threshold rules. *)
Definition thresholds (lenA lenB mismatchesA mismatchesB : Z) : bool :=
  if (lenB =? 3) && (mismatchesB >? 0) && (lenA >=? 3) then false
  else if (lenA =? 3) && (mismatchesA >? 0) && (lenB >=? 3) then false
  else if (lenA - mismatchesA <? 2) || (lenB - mismatchesB <? 2) then false
  else true.

(** The whole function.  The slice [matchesBuffer] is shared with the
    caller, so the buffer as the call leaves it is returned as well. *)
Definition validateOptimized (partsA partsB : list N)
    (wordToMatches : gmap N (list N)) (matchesBuffer : list Z) (gen : Z)
  : option (bool * list Z) :=
  let lenA := Z.of_nat (length partsA) in
  let lenB := Z.of_nat (length partsB) in
  buf1 ← populate partsB wordToMatches gen matchesBuffer;
  mismatchesA ← countMismatches [] partsA buf1 gen 0;
  let gen2 := wrap64 (gen + 1) in
  buf2 ← populate partsA wordToMatches gen2 buf1;
  mismatchesB ← countMismatches [] partsB buf2 gen2 0;
  Some (thresholds lenA lenB mismatchesA mismatchesB, buf2).

(** The call returned [true]. *)
Definition accepted (partsA partsB : list N) (wm : gmap N (list N))
    (buf : list Z) (gen : Z) : Prop :=
  ∃ buf', validateOptimized partsA partsB wm buf gen = Some (true, buf').

End Validator.

(** ** The interner (main.go, lines 27-51) *)

Record Dictionary := mkDictionary {
  strToInt : gmap string N;
  intToStr : list string
}.

Definition NewDictionary : Dictionary :=
  {| strToInt := ∅; intToStr := [] |}.

(** [GetID]: the conversion [uint32(len(d.intToStr))] wraps at [2^32]. *)
Definition GetID (d : Dictionary) (s : string) : N * Dictionary :=
  match strToInt d !! s with
  | Some id => (id, d)
  | None =>
      let id := (N.of_nat (length (intToStr d)) mod 2 ^ 32)%N in
      (id, {| strToInt := <[s := id]> (strToInt d);
              intToStr := intToStr d ++ [s] |})
  end.

(** [GetStr]: panics on an id that was never handed out. *)
Definition GetStr (d : Dictionary) (id : N) : option string :=
  intToStr d !! N.to_nat id.

(** ** preprocessData, the equivalence tables (main.go, lines 156-177) *)

Module Preprocess.

(** Lines 164-167: intern a match list, left to right. *)
Fixpoint internAll (d : Dictionary) (v : list string) : list N * Dictionary :=
  match v with
  | [] => ([], d)
  | m :: rest =>
      let '(mID, dict1) := GetID d m in
      let '(ids, dict2) := internAll dict1 rest in
      (mID :: ids, dict2)
  end.

(** Lines 170-176: the list stored in [tradeouts] for key [k]. *)
Definition tradeoutFor (k : string) (kID : N) (matchIDs : list N) : list N :=
  if decide (String.length k ≠ 1%nat) then matchIDs else [kID].

(** Lines 161-176: the loop body for one entry [k ↦ v]. *)
Definition internEntry
    (st : Dictionary * gmap N (list N) * gmap N (list N))
    (kv : string * list string)
  : Dictionary * gmap N (list N) * gmap N (list N) :=
  let '(dict, w2m, tradeouts) := st in
  let '(k, v) := kv in
  let '(kID, dict1) := GetID dict k in
  let '(matchIDs, dict2) := internAll dict1 v in
  (dict2, <[kID := matchIDs]> w2m,
   <[kID := tradeoutFor k kID matchIDs]> tradeouts).

(** Lines 154-177.  Go iterates over the map [raw.WordToMatches] in an
    unspecified order; [entries] lists its entries in the order of one
    run. *)
Definition preprocessData (entries : list (string * list string))
  : Dictionary * gmap N (list N) * gmap N (list N) :=
  foldl internEntry (NewDictionary, ∅, ∅) entries.

(** The same rule on id-form tables: [single w] says that the string of
    [w] is one byte long. *)
Definition tradeoutsOf (single : N → bool) (wm : gmap N (list N))
  : gmap N (list N) :=
  map_imap (λ w ms, Some (if single w then [w] else ms)) wm.

End Preprocess.

(** ** buildExpandedPairMappings (main.go, lines 382-462) *)

Module PairKeys.

(** [sort.Slice(opts, opts[a] < opts[b])]: the sorted arrangement of a
    list of integers does not depend on the sorting algorithm. *)
Fixpoint insertSorted (x : N) (l : list N) : list N :=
  match l with
  | [] => [x]
  | y :: rest => if (x <=? y)%N then x :: l else y :: insertSorted x rest
  end.

Definition sortIDs (l : list N) : list N := foldr insertSorted [] l.

(** Lines 397-404: drop every element equal to its predecessor. *)
Fixpoint uniqueAfter (last : N) (opts : list N) : list N :=
  match opts with
  | [] => []
  | v :: rest =>
      if negb (v =? last)%N then v :: uniqueAfter v rest
      else uniqueAfter last rest
  end.

Definition unique (opts : list N) : list N :=
  match opts with
  | [] => []
  | v :: rest => v :: uniqueAfter v rest
  end.

(** Lines 386-405: the options of one position. *)
Definition optionsFor (tradeoutSets : gmap N (list N)) (wordID : N) : list N :=
  let opts := [wordID] in
  let opts := match tradeoutSets !! wordID with
              | Some replacements => opts ++ replacements
              | None => opts
              end in
  unique (sortIDs opts).

Definition positionOptions (parts : list N) (tradeoutSets : gmap N (list N))
  : list (list N) :=
  map (optionsFor tradeoutSets) parts.

(** [fmt.Fprintf(sb, "%d", id)] *)
Definition decimal (id : N) : string :=
  NilEmpty.string_of_uint (N.to_uint id).

(** Lines 455-462: what the loop writes from index [k] on. *)
Fixpoint writeIDs (k : nat) (ids : list N) : string :=
  match ids with
  | [] => ""%string
  | id :: rest =>
      ((if (0 <? k)%nat then "," else "") +:+ decimal id
         +:+ writeIDs (S k) rest)%string
  end.

(** Lines 417-428: the position-pair key. *)
Definition dedupKey (optsI optsJ : list N) : string :=
  let s1 := writeIDs 0 optsI in
  let s2 := writeIDs 0 optsJ in
  if String.ltb s2 s1 then (s2 +:+ "|" +:+ s1)%string
  else (s1 +:+ "|" +:+ s2)%string.

(** Lines 439-447: one pair-key, ordered by string value. *)
Definition pairKey (dict : Dictionary) (wI wJ : N) : option string :=
  str1 ← GetStr dict wI;
  str2 ← GetStr dict wJ;
  Some (if String.ltb str2 str1 then (str2 +:+ "_" +:+ str1)%string
        else (str1 +:+ "_" +:+ str2)%string).

(** Line 437: the keys appended for one [wI], in order. *)
Fixpoint emitRow (dict : Dictionary) (wI : N) (optsJ : list N)
  : option (list string) :=
  match optsJ with
  | [] => Some []
  | wJ :: rest =>
      key ← pairKey dict wI wJ;
      keys ← emitRow dict wI rest;
      Some (key :: keys)
  end.

(** Lines 436-449: the keys appended for one position pair, in order. *)
Fixpoint emitProduct (dict : Dictionary) (optsI optsJ : list N)
  : option (list string) :=
  match optsI with
  | [] => Some []
  | wI :: rest =>
      row ← emitRow dict wI optsJ;
      rows ← emitProduct dict rest optsJ;
      Some (row ++ rows)
  end.

(** Lines 414-450: the loop over [j], with [later] the option lists of
    the positions after [i]; the state is [(seenPairs, results)]. *)
Fixpoint innerLoop (dict : Dictionary) (optsI : list N)
    (later : list (list N)) (st : gset string * list string)
  : option (gset string * list string) :=
  match later with
  | [] => Some st
  | optsJ :: rest =>
      let key := dedupKey optsI optsJ in
      st' ← (if decide (key ∈ st.1) then Some st
             else keys ← emitProduct dict optsI optsJ;
                  Some ({[key]} ∪ st.1, st.2 ++ keys));
      innerLoop dict optsI rest st'
  end.

(** Lines 413-451: the loop over [i]. *)
Fixpoint outerLoop (dict : Dictionary) (opts : list (list N))
    (st : gset string * list string)
  : option (gset string * list string) :=
  match opts with
  | [] => Some st
  | optsI :: later =>
      st' ← innerLoop dict optsI later st;
      outerLoop dict later st'
  end.

Definition buildExpandedPairMappings (parts : list N)
    (tradeoutSets : gmap N (list N)) (dict : Dictionary)
  : option (list string) :=
  snd <$> outerLoop dict (positionOptions parts tradeoutSets) (∅, []).

End PairKeys.

(** ** processBatch (main.go, lines 199-269) *)

Module Worker.

Record ProcessedData := mkProcessedData {
  NameWords : gmap string (list N);
  WordToMatches : gmap N (list N);
  TradeoutSets : gmap N (list N);
  PairToNames : gmap string (list string);
  Dict : Dictionary
}.

(** The worker's private variables; [written] is the sequence of strings
    handed to [writer.WriteString], i.e. the content of the worker's
    file. *)
Record State := mkState {
  matchesBuffer : list Z;
  currentGen : Z;
  seenMatches : gset string;
  written : list string
}.

(** Lines 211-216. *)
Definition start (dictSize : nat) : State :=
  {| matchesBuffer := Buffer.make dictSize;
     currentGen := 10;
     seenMatches := ∅;
     written := [] |}.

Definition quote : string := String "034"%char EmptyString.
Definition newline : string := String "010"%char EmptyString.

(** Line 255: the format [(%s, %s)] with both names in double quotes. *)
Definition formatMatch (n1 n2 : string) : string :=
  ("(" +:+ quote +:+ n1 +:+ quote +:+ ", "
       +:+ quote +:+ n2 +:+ quote +:+ ")")%string.

(** Lines 252-254: advance the generation, then call the validator on
    the worker's own buffer. *)
Definition callValidator (data : ProcessedData) (ids1 ids2 : list N)
    (w : State) : option (bool * State) :=
  let gen := wrap64 (currentGen w + 2) in
  '(ok, buf) ← Validator.validateOptimized ids1 ids2 (WordToMatches data)
                 (matchesBuffer w) gen;
  Some (ok, {| matchesBuffer := buf;
                currentGen := gen;
                seenMatches := seenMatches w;
                written := written w |}).

(** Lines 255-259: report an accepted pair unless it was seen. *)
Definition report (n1 n2 : string) (w : State) : State :=
  let matchStr := formatMatch n1 n2 in
  if decide (matchStr ∈ seenMatches w) then w
  else {| matchesBuffer := matchesBuffer w;
          currentGen := currentGen w;
          seenMatches := {[matchStr]} ∪ seenMatches w;
          written := written w ++ [(matchStr +:+ newline)%string] |}.

(** Lines 241-244: order the two names. *)
Definition ordered (name other : string) : string * string :=
  if String.ltb other name then (other, name) else (name, other).

(** Lines 237-260: the body of the loop over [otherNames]. *)
Definition visitOther (data : ProcessedData) (name other : string)
    (w : State) : option State :=
  if decide (other = name) then Some w
  else
    let '(n1, n2) := ordered name other in
    let ids1 := default [] (NameWords data !! n1) in
    let ids2 := default [] (NameWords data !! n2) in
    '(ok, w') ← callValidator data ids1 ids2 w;
    Some (if ok : bool then report n1 n2 w' else w').

(** Lines 236-261. *)
Fixpoint visitOthers (data : ProcessedData) (name : string)
    (otherNames : list string) (w : State) : option State :=
  match otherNames with
  | [] => Some w
  | other :: rest =>
      w' ← visitOther data name other w;
      visitOthers data name rest w'
  end.

(** Lines 230-262. *)
Fixpoint visitPairs (data : ProcessedData) (name : string)
    (pairs : list string) (w : State) : option State :=
  match pairs with
  | [] => Some w
  | pairStr :: rest =>
      w' ← match PairToNames data !! pairStr with
            | Some otherNames => visitOthers data name otherNames w
            | None => Some w
            end;
      visitPairs data name rest w'
  end.

(** Lines 226: [seenMatches] is emptied. *)
Definition clearSeen (w : State) : State :=
  {| matchesBuffer := matchesBuffer w;
     currentGen := currentGen w;
     seenMatches := ∅;
     written := written w |}.

(** Lines 219-266: the body of the loop over the jobs. *)
Definition processName (data : ProcessedData) (name : string) (w : State)
  : option State :=
  let namePartsIDs := default [] (NameWords data !! name) in
  if Z.of_nat (length namePartsIDs) <? 2 then Some w
  else
    pairs ← PairKeys.buildExpandedPairMappings namePartsIDs
               (TradeoutSets data) (Dict data);
    visitPairs data name pairs (clearSeen w).

(** Lines 218-267: [jobs] is the sequence of names this worker receives
    from the channel. *)
Fixpoint processJobs (data : ProcessedData) (jobs : list string)
    (w : State) : option State :=
  match jobs with
  | [] => Some w
  | name :: rest =>
      w' ← processName data name w;
      processJobs data rest w'
  end.

Definition processBatch (data : ProcessedData) (dictSize : nat)
    (jobs : list string) : option State :=
  processJobs data jobs (start dictSize).

(** The validator calls of a worker, one after the other: [calls] lists
    the argument pairs [(ids1, ids2)] in the order the loops reach
    line 254. *)
Fixpoint runCalls (data : ProcessedData) (calls : list (list N * list N))
    (w : State) : option State :=
  match calls with
  | [] => Some w
  | (ids1, ids2) :: rest =>
      '(_, w') ← callValidator data ids1 ids2 w;
      runCalls data rest w'
  end.

End Worker.

(** ** Vocabulary of the properties *)

Module Props.

(** [x] is a cell that populating from [parts] writes: some token of
    [parts] has an entry in the table whose list contains [x], and [x]
    is inside a buffer of length [n]. *)
Definition inMatches (wm : gmap N (list N)) (x : N) (w : N) : bool :=
  match wm !! w with
  | Some matches => bool_decide (x ∈ matches)
  | None => false
  end.

Definition marked (wm : gmap N (list N)) (parts : list N) (n : nat) (x : N)
  : bool :=
  bool_decide (N.to_nat x < n)%nat && existsb (inMatches wm x) parts.

(** A cell holds the stamp [gen]; an index outside the buffer never
    does. *)
Definition stamped (buf : list Z) (gen : Z) (w : N) : bool :=
  bool_decide (buf !! N.to_nat w = Some gen).

(** The number of distinct tokens of [parts] whose cell does not hold the
    stamp. *)
Definition unstamped (buf : list Z) (gen : Z) (parts : list N) : Z :=
  Z.of_nat (length (filter (λ w, stamped buf gen w = false)
                           (remove_dups parts))).

(** The tokens of [rest] that occur neither in [earlier] nor earlier in
    [rest]: the iterations in which the counting loop reaches the
    buffer. *)
Fixpoint firsts (earlier rest : list N) : list N :=
  match rest with
  | [] => []
  | w :: rest' =>
      if decide (w ∈ earlier) then firsts (earlier ++ [w]) rest'
      else w :: firsts (earlier ++ [w]) rest'
  end.

(** The number of distinct tokens of [A] that populating from [B] does
    not mark. *)
Definition mismatch (wm : gmap N (list N)) (n : nat) (A B : list N) : Z :=
  Z.of_nat (length (filter (λ a, marked wm B n a = false) (remove_dups A))).

(** No cell holds one of the two stamps of a call with generation [gen]. *)
Definition fresh (buf : list Z) (gen : Z) : Prop :=
  Forall (λ c, c ≠ gen ∧ c ≠ wrap64 (gen + 1)) buf.

(** The equivalence closure of a token as section 4.4 of the specification
    words it: its match list, or the token alone when the table has no
    entry for it.  (The code has no such fallback; these three definitions
    only serve to compare the two.) *)
Definition closure (wm : gmap N (list N)) (w : N) : list N :=
  default [w] (wm !! w).

(** [x] lies in the closure of some token of [parts]. *)
Definition inClosure (wm : gmap N (list N)) (parts : list N) (x : N)
  : bool :=
  existsb (λ w, bool_decide (x ∈ closure wm w)) parts.

(** The number of distinct tokens of [A] outside the closure of [B]. *)
Definition closureMismatch (wm : gmap N (list N)) (A B : list N) : Z :=
  Z.of_nat (length (filter (λ a, inClosure wm B a = false) (remove_dups A))).

(** The number of distinct tokens of [parts] that are not smaller than the
    buffer length [n]. *)
Definition outside (n : nat) (parts : list N) : Z :=
  Z.of_nat (length (filter (λ w, (n ≤ N.to_nat w)%nat) (remove_dups parts))).

(** The number of distinct tokens of [parts] that index the buffer and
    whose cell does not hold the stamp. *)
Definition unstampedInside (buf : list Z) (gen : Z) (parts : list N) : Z :=
  Z.of_nat (length (filter (λ w, (N.to_nat w < length buf)%nat
                                 ∧ buf !! N.to_nat w ≠ Some gen)
                           (remove_dups parts))).

Import Validator Worker PairKeys.

(** The reject rules over the two lengths and the two counters. *)
Definition R1 (lenA lenB mismatchA mismatchB : Z) : Prop :=
  lenB = 3 ∧ mismatchB > 0 ∧ lenA >= 3.
Definition R2 (lenA lenB mismatchA mismatchB : Z) : Prop :=
  lenA = 3 ∧ mismatchA > 0 ∧ lenB >= 3.
Definition R3 (lenA lenB mismatchA mismatchB : Z) : Prop :=
  lenA - mismatchA < 2 ∨ lenB - mismatchB < 2.



(** The line written for the pair [(n1, n2)]. *)
Definition lineOf (n1 n2 : string) : string :=
  (formatMatch n1 n2 +:+ newline)%string.

(** A line of the output in canonical order. *)
Definition canonicalLine (line : string) : Prop :=
  ∃ n1 n2, line = lineOf n1 n2 ∧ String.ltb n1 n2 = true ∧ n1 ≠ n2.

(** The lines written since [w0] are those of a duplicate-free list of
    match strings, all of them recorded in [seenMatches]. *)
Definition writtenOnce (w0 w : State) : Prop :=
  ∃ ms, written w = written w0 ++ map (λ m, (m +:+ newline)%string) ms
        ∧ NoDup ms ∧ ∀ m, m ∈ ms → m ∈ seenMatches w.

(** Every cell is at most the second stamp of the last call. *)
Definition bounded (w : State) : Prop :=
  Forall (λ c, c <= currentGen w + 1) (matchesBuffer w).

(** The buffer and the generation of a worker. *)
Definition scratch (w : State) : list Z * Z :=
  (matchesBuffer w, currentGen w).

(** The scratch state of [w'] is reached from [w] by validator calls. *)
Definition callsReach (data : ProcessedData) (w w' : State) : Prop :=
  ∃ calls v, runCalls data calls w = Some v ∧ scratch v = scratch w'.


(** The byte [c] occurs in [s]. *)
Fixpoint occurs (c : ascii) (s : string) : bool :=
  match s with
  | EmptyString => false
  | String a rest => if decide (a = c) then true else occurs c rest
  end.

(** [t] is empty or starts with the byte [c]. *)
Definition startsWith (c : ascii) (t : string) : Prop :=
  t = ""%string ∨ ∃ rest, t = String c rest.

(** All pairs [(l[i], l[j])] with [i < j], in the order of the two loops. *)
Fixpoint allPairs {X} (l : list X) : list (X * X) :=
  match l with
  | [] => []
  | x :: rest => map (pair x) rest ++ allPairs rest
  end.

(** [w] is an option at a position holding [p]: the token itself or one of
    its replacements. *)
Definition choice (tr : gmap N (list N)) (p w : N) : Prop :=
  w = p ∨ ∃ ms, tr !! p = Some ms ∧ w ∈ ms.

(** [key] is a pair-key of the product of two option lists. *)
Definition product (dict : Dictionary) (optsI optsJ : list N) (key : string)
  : Prop :=
  ∃ wI wJ, wI ∈ optsI ∧ wJ ∈ optsJ ∧ pairKey dict wI wJ = Some key.

(** The loop invariant of the builder: [visited] lists the position pairs
    visited so far. *)
Definition covers (dict : Dictionary) (visited : list (list N * list N))
    (st : gset string * list string) : Prop :=
  (∀ key, key ∈ st.1 → ∃ oi oj, (oi, oj) ∈ visited ∧ key = dedupKey oi oj)
  ∧ (∀ k, k ∈ st.2 ↔ ∃ oi oj, (oi, oj) ∈ visited ∧ product dict oi oj k).

(** The keys appended when the position pairs of [expanded] are expanded
    one after the other. *)
Fixpoint emitAll (dict : Dictionary) (expanded : list (list N * list N))
  : option (list string) :=
  match expanded with
  | [] => Some []
  | (optsI, optsJ) :: rest =>
      keys ← emitProduct dict optsI optsJ;
      more ← emitAll dict rest;
      Some (keys ++ more)
  end.

(** The state of the two loops after the position pairs [visited]:
    [expanded] are the pairs that were not skipped. *)
Definition expandedOnce (dict : Dictionary)
    (visited expanded : list (list N * list N))
    (st : gset string * list string) : Prop :=
  expanded `sublist_of` visited
  ∧ NoDup (uncurry dedupKey <$> expanded)
  ∧ (∀ key, key ∈ st.1 ↔ key ∈ uncurry dedupKey <$> expanded)
  ∧ emitAll dict expanded = Some st.2.

(** Every id the builder can reach for [parts] has a string. *)
Definition interned (dict : Dictionary) (tr : gmap N (list N))
    (parts : list N) : Prop :=
  ∀ p w, p ∈ parts → choice tr p w → is_Some (GetStr dict w).

(** The number of validator calls the loops make. *)
Definition callsForOthers (name : string) (otherNames : list string) : nat :=
  length (filter (λ other, other ≠ name) otherNames).

Fixpoint callsForPairs (data : ProcessedData) (name : string)
    (pairs : list string) : nat :=
  match pairs with
  | [] => 0
  | pairStr :: rest =>
      (match PairToNames data !! pairStr with
       | Some otherNames => callsForOthers name otherNames
       | None => 0
       end + callsForPairs data name rest)%nat
  end.

Definition callsForName (data : ProcessedData) (name : string) : nat :=
  let namePartsIDs := default [] (NameWords data !! name) in
  if Z.of_nat (length namePartsIDs) <? 2 then 0%nat
  else match buildExpandedPairMappings namePartsIDs (TradeoutSets data)
               (Dict data) with
       | Some pairs => callsForPairs data name pairs
       | None => 0%nat
       end.

Fixpoint callsForJobs (data : ProcessedData) (jobs : list string) : nat :=
  match jobs with
  | [] => 0
  | name :: rest => (callsForName data name + callsForJobs data rest)%nat
  end.

(** The decision of the validator on the candidate [other] of [name], in
    terms of the tables and the buffer length. *)
Definition passes (data : ProcessedData) (n : nat) (name other : string)
  : bool :=
  let ids1 := default [] (NameWords data !! (ordered name other).1) in
  let ids2 := default [] (NameWords data !! (ordered name other).2) in
  thresholds (Z.of_nat (length ids1)) (Z.of_nat (length ids2))
    (mismatch (WordToMatches data) n ids1 ids2)
    (mismatch (WordToMatches data) n ids2 ids1).

(** The match string of the candidate [other] of [name]. *)
Definition matchOf (name other : string) : string :=
  formatMatch (ordered name other).1 (ordered name other).2.

(** [m] is the match string of a passing candidate among [otherNames]. *)
Definition passingAmong (data : ProcessedData) (n : nat) (name : string)
    (otherNames : list string) (m : string) : Prop :=
  ∃ other, other ∈ otherNames ∧ other ≠ name
           ∧ passes data n name other = true ∧ m = matchOf name other.

(** [key] is a probe key of the vector [parts]. *)
Definition probeKey (tr : gmap N (list N)) (dict : Dictionary)
    (parts : list N) (key : string) : Prop :=
  ∃ i j pI pJ wI wJ,
    (i < j)%nat ∧ parts !! i = Some pI ∧ parts !! j = Some pJ
    ∧ choice tr pI wI ∧ choice tr pJ wJ
    ∧ pairKey dict wI wJ = Some key.

(** [line] is the line of a passing candidate of the job [name]. *)
Definition nameLine (data : ProcessedData) (n : nat) (name : string)
    (line : string) : Prop :=
  let namePartsIDs := default [] (NameWords data !! name) in
  2 <= Z.of_nat (length namePartsIDs)
  ∧ ∃ key otherNames m,
      probeKey (TradeoutSets data) (Dict data) namePartsIDs key
      ∧ PairToNames data !! key = Some otherNames
      ∧ passingAmong data n name otherNames m
      ∧ line = (m +:+ newline)%string.

(** Since [w0] the worker wrote the lines of the match strings [ms], and
    [seenMatches] holds exactly these. *)
Definition tracks (w0 w : State) (ms : list string) : Prop :=
  written w = written w0 ++ map (λ m, (m +:+ newline)%string) ms
  ∧ ∀ m, m ∈ seenMatches w ↔ m ∈ ms.

(** The generation is in range and above every cell. *)
Definition steady (n : nat) (w : State) : Prop :=
  0 <= currentGen w ∧ bounded w ∧ length (matchesBuffer w) = n.

(** Every string of the interner maps back from its id. *)
Definition consistent (d : Dictionary) : Prop :=
  ∀ s id, strToInt d !! s = Some id → GetStr d id = Some s.

(** The string of [w] is one byte long. *)
Definition singleByte (d : Dictionary) (w : N) : bool :=
  bool_decide (String.length <$> GetStr d w = Some 1%nat).

(** [tradeouts] follows from [w2m] by the rule of lines 170-176. *)
Definition ruled (d : Dictionary) (w2m tradeouts : gmap N (list N)) : Prop :=
  ∀ kID,
    match w2m !! kID with
    | Some ms => ∃ k, GetStr d kID = Some k
                      ∧ tradeouts !! kID = Some (Preprocess.tradeoutFor k kID ms)
    | None => tradeouts !! kID = None
    end.
End Props.

(** ** Example inputs *)

Module Examples.
Import Worker.
(** Two names made of the same two tokens, as the preprocessor and the
    index build hand them to the workers. *)
Definition twoNames : ProcessedData :=
  {| NameWords := {[ "john smith"%string := [0; 1]%N;
                     "smith john"%string := [1; 0]%N ]};
     WordToMatches := {[ 0%N := [0%N]; 1%N := [1%N] ]};
     TradeoutSets := {[ 0%N := [0%N]; 1%N := [1%N] ]};
     PairToNames :=
       {[ "john_smith"%string := ["john smith"; "smith john"]%string ]};
     Dict := {| strToInt := {[ "john"%string := 0%N; "smith"%string := 1%N ]};
                intToStr := ["john"; "smith"]%string |} |}.

(** The same two names with an empty equivalence table. *)
Definition unmatched : ProcessedData :=
  {| NameWords := NameWords twoNames;
     WordToMatches := ∅;
     TradeoutSets := ∅;
     PairToNames := PairToNames twoNames;
     Dict := Dict twoNames |}.

(** [2^63 - 6] validator calls on the two names. *)
Definition manyCalls : list (list N * list N) :=
  replicate (Z.to_nat 9223372036854775802) ([0; 1]%N, [1; 0]%N).

(** The name "bill william" with the two tokens interchangeable. *)
Definition billDict : Dictionary :=
  {| strToInt := {[ "bill"%string := 0%N; "william"%string := 1%N ]};
     intToStr := ["bill"; "william"]%string |}.

Definition billTradeouts : gmap N (list N) :=
  {[ 0%N := [0; 1]%N; 1%N := [0; 1]%N ]}.
End Examples.

(** ** The rest of preprocessData and main (main.go, lines 71-197, 478-500) *)

Module Raw.

(** [InputData]: the Go map [WordToMatches] is given as the list of its
    entries in the order in which one run iterates over it. *)
Record InputData := mkInputData {
  AllNames : list string;
  WordToMatches : list (string * list string);
  PairToNames : gmap string (list string)
}.

End Raw.

Module Driver.
Import Worker.

Section Tokenizer.

(** [strings.Fields], the tokenizer of the standard library. *)
Variable Fields : string → list string.

(** Lines 181-188: the loop body for one name. *)
Definition internName (st : Dictionary * gmap string (list N))
    (name : string) : Dictionary * gmap string (list N) :=
  let '(dict, nameWords) := st in
  let '(ids, dict') := Preprocess.internAll dict (Fields name) in
  (dict', <[name := ids]> nameWords).

(** Lines 153-197: the whole of [preprocessData]; the tables first, then
    the names, with one dictionary. *)
Definition preprocessData (raw : Raw.InputData) : ProcessedData :=
  let '(dict, w2m, tradeouts) :=
    Preprocess.preprocessData (Raw.WordToMatches raw) in
  let '(dict', nameWords) := foldl internName (dict, ∅) (Raw.AllNames raw) in
  {| NameWords := nameWords;
     WordToMatches := w2m;
     TradeoutSets := tradeouts;
     PairToNames := Raw.PairToNames raw;
     Dict := dict' |}.

End Tokenizer.

(** Lines 128-142: every worker runs [processBatch] on the names it
    receives from the channel, each on a buffer of [dictSize] cells;
    [assignment] lists, worker by worker, the names received.  The result
    is the content of the workers' files. *)
Definition runWorkers (data : ProcessedData) (dictSize : nat)
    (assignment : list (list string)) : option (list (list string)) :=
  mapM (λ jobs, written <$> processBatch data dictSize jobs) assignment.

(** Lines 478-500: the files are copied one after the other, in the order
    of the directory listing. *)
Definition mergeFiles (files : list (list string)) : list string :=
  concat files.

(** Lines 86-149: preprocess, run the workers, merge their files (here
    [assignment] lists the workers in the order of their files). *)
Definition main (Fields : string → list string) (raw : Raw.InputData)
    (assignment : list (list string)) : option (list string) :=
  let data := preprocessData Fields raw in
  mergeFiles <$> runWorkers data (length (intToStr (Dict data))) assignment.

End Driver.

(** ** Further vocabulary *)

Module MoreProps.
Import Worker.

(** Every id the interner has handed out indexes [intToStr]. *)
Definition inRange (d : Dictionary) : Prop :=
  ∀ s id, strToInt d !! s = Some id →
    (N.to_nat id < length (intToStr d))%nat.

(** Every id in a list is below [n]. *)
Definition below (n : nat) (ids : list N) : Prop :=
  Forall (λ id, (N.to_nat id < n)%nat) ids.

(** Every key and every listed id of an id-form table is below [n]. *)
Definition tableBelow (n : nat) (m : gmap N (list N)) : Prop :=
  ∀ k ids, m !! k = Some ids → (N.to_nat k < n)%nat ∧ below n ids.

(** [ids] are the ids of the strings [ss], position by position. *)
Definition spells (d : Dictionary) (ids : list N) (ss : list string) : Prop :=
  Forall2 (λ id s, GetStr d id = Some s) ids ss.

(** The dictionary and the tables of a preprocessing state are sound:
    the dictionary maps back, and every id is in range. *)
Definition sound (d : Dictionary) : Prop :=
  Props.consistent d ∧ inRange d.

(** The dictionary holds at most [2^32] strings: no id has wrapped. *)
Definition roomy (d : Dictionary) : Prop :=
  (N.of_nat (length (intToStr d)) <= 2 ^ 32)%N.

(** Every string of [intToStr] is interned under its index. *)
Definition backed (d : Dictionary) : Prop :=
  ∀ i s, GetStr d i = Some s → strToInt d !! s = Some i.

(** The id-form tables hold the raw [entries]: the key's id is mapped to
    the ids of the entry's strings, and to its tradeout list. *)
Definition tabled (d : Dictionary) (w2m tr : gmap N (list N))
    (entries : list (string * list string)) : Prop :=
  ∀ k v, (k, v) ∈ entries →
    ∃ kID ids,
      strToInt d !! k = Some kID
      ∧ w2m !! kID = Some ids
      ∧ spells d ids v
      ∧ tr !! kID = Some (Preprocess.tradeoutFor k kID ids).

(** [nameWords] holds the token ids of exactly the [names]. *)
Definition named (Fields : string → list string) (d : Dictionary)
    (nameWords : gmap string (list N)) (names : list string) : Prop :=
  (∀ name, name ∈ names →
     ∃ ids, nameWords !! name = Some ids ∧ spells d ids (Fields name))
  ∧ (∀ name, name ∉ names → nameWords !! name = None).

(** No worker's generation counter wraps on its share of the names. *)
Definition noWrap (data : ProcessedData) (assignment : list (list string))
  : Prop :=
  Forall (λ jobs, 11 + 2 * Z.of_nat (Props.callsForJobs data jobs) < 2 ^ 64)
         assignment.

End MoreProps.

(** ** Further example inputs *)

Module MoreExamples.

(** The raw input behind [Examples.twoNames]. *)
Definition rawTwoNames : Raw.InputData :=
  {| Raw.AllNames := ["john smith"; "smith john"]%string;
     Raw.WordToMatches :=
       [("john", ["john"]); ("smith", ["smith"])]%string;
     Raw.PairToNames :=
       {[ "john_smith"%string := ["john smith"; "smith john"]%string ]} |}.

End MoreExamples.

(** * Properties *)

(** ** Strings *)

Module StringFacts.
Import Props.

Lemma app_cons c s t : (String c s +:+ t = String c (s +:+ t))%string.
Proof. reflexivity. Qed.

Lemma app_nil_l t : ("" +:+ t = t)%string.
Proof. reflexivity. Qed.

Lemma length_app s t :
  String.length (s +:+ t) = (String.length s + String.length t)%nat.
Proof.
  induction s as [|c s IH]; [done|]. rewrite app_cons. simpl. by rewrite IH.
Qed.

Lemma app_inj_r t : Inj (=) (=) (λ m : string, (m +:+ t)%string).
Proof.
  intros s1. induction s1 as [|c s1 IH]; intros [|d s2] Heq.
  - done.
  - apply (f_equal String.length) in Heq.
    rewrite !length_app in Heq. simpl in Heq. lia.
  - apply (f_equal String.length) in Heq.
    rewrite !length_app in Heq. simpl in Heq. lia.
  - rewrite !app_cons in Heq. injection Heq as -> Heq. f_equal. by apply IH.
Qed.

Lemma occurs_app c s t : occurs c (s +:+ t) = occurs c s || occurs c t.
Proof.
  induction s as [|a s IH]; [done|]. rewrite app_cons. simpl.
  by case_decide.
Qed.

(** A string is cut in one way only at the first occurrence of [c]. *)
Lemma app_sep_inj c s s' t t' :
  occurs c s = false → occurs c s' = false →
  startsWith c t → startsWith c t' →
  (s +:+ t = s' +:+ t')%string → s = s' ∧ t = t'.
Proof.
  revert s'. induction s as [|a s IH]; intros [|a' s'] Hs Hs' Ht Ht' Heq.
  - done.
  - rewrite app_nil_l, app_cons in Heq. simpl in Hs'.
    destruct Ht as [->|[rest ->]]; [done|]. injection Heq as <- _.
    by rewrite decide_True in Hs'.
  - rewrite app_nil_l, app_cons in Heq. simpl in Hs.
    destruct Ht' as [->|[rest ->]]; [done|]. injection Heq as -> _.
    by rewrite decide_True in Hs.
  - rewrite !app_cons in Heq. injection Heq as -> Heq. simpl in Hs, Hs'.
    case_decide; [done|].
    destruct (IH s' Hs Hs' Ht Ht' Heq) as [-> ->]. done.
Qed.

Lemma ltb_irrefl s : String.ltb s s = false.
Proof.
  unfold String.ltb. pose proof (String.compare_antisym s s) as H.
  destruct (String.compare s s); simpl in H; done.
Qed.

Lemma ltb_trichotomy s t :
  String.ltb s t = false → s ≠ t → String.ltb t s = true.
Proof.
  unfold String.ltb. intros Hst Hne.
  rewrite (String.compare_antisym s t) in Hst.
  destruct (String.compare t s) eqn:E; simpl in Hst; try done.
  apply String.compare_eq_iff in E. congruence.
Qed.

Lemma ltb_asym s t : String.ltb s t = true → String.ltb t s = false.
Proof.
  unfold String.ltb. rewrite (String.compare_antisym t s).
  by destruct (String.compare s t).
Qed.

Lemma ltb_leb s t : String.ltb s t = true → String.leb s t = true.
Proof. unfold String.ltb, String.leb. by destruct (String.compare s t). Qed.

Lemma not_ltb_leb s t : String.ltb t s = false → String.leb s t = true.
Proof.
  unfold String.ltb, String.leb. rewrite (String.compare_antisym s t).
  by destruct (String.compare t s).
Qed.
End StringFacts.

(** ** The validator *)

Module ValidatorFacts.
Import Validator Props.

Local Ltac bdec :=
  repeat case_bool_decide; simpl in *; try done; try lia; try set_solver.

Lemma stampMatches_spec matches gen buf :
  ∃ buf', stampMatches matches gen buf = Some buf'
    ∧ length buf' = length buf
    ∧ ∀ x : N, buf' !! N.to_nat x =
        if bool_decide (N.to_nat x < length buf)%nat
           && bool_decide (x ∈ matches)
        then Some gen else buf !! N.to_nat x.
Proof.
  revert buf. induction matches as [|m rest IH]; intros buf; simpl.
  - exists buf. split_and!; [done..|]. intros x. bdec.
  - unfold Buffer.len, Buffer.store.
    destruct (Z.ltb_spec (Z.of_N m) (Z.of_nat (length buf))) as [Hlt|Hge].
    + rewrite decide_True by lia. simpl.
      destruct (IH (<[N.to_nat m := gen]> buf)) as (buf' & -> & Hlen & Hget).
      rewrite length_insert in Hlen, Hget.
      exists buf'. split_and!; [done..|]. intros x. rewrite Hget.
      destruct (decide (x = m)) as [->|Hne].
      * rewrite list_lookup_insert_eq by lia. bdec.
      * rewrite list_lookup_insert_ne by lia. bdec.
    + simpl. destruct (IH buf) as (buf' & -> & Hlen & Hget).
      exists buf'. split_and!; [done..|]. intros x. rewrite Hget.
      bdec. assert (x = m) as -> by set_solver. lia.
Qed.

Lemma populate_spec parts wm gen buf :
  ∃ buf', populate parts wm gen buf = Some buf'
    ∧ length buf' = length buf
    ∧ ∀ x : N, buf' !! N.to_nat x =
        if marked wm parts (length buf) x then Some gen
        else buf !! N.to_nat x.
Proof.
  revert buf. induction parts as [|w rest IH]; intros buf; simpl.
  - exists buf. split_and!; [done..|]. intros x. unfold marked. simpl.
    by rewrite andb_false_r.
  - unfold marked. simpl. unfold inMatches at 1.
    destruct (wm !! w) as [ms|] eqn:Hw; simpl.
    + destruct (stampMatches_spec ms gen buf) as (buf1 & -> & Hlen1 & Hget1).
      simpl. destruct (IH buf1) as (buf' & -> & Hlen & Hget).
      exists buf'. split_and!; [done|congruence|]. intros x.
      rewrite Hget, Hget1, Hlen1. unfold marked.
      destruct (bool_decide (N.to_nat x < length buf)%nat); simpl; [|done].
      destruct (existsb (inMatches wm x) rest); simpl.
      * by rewrite orb_true_r.
      * by rewrite orb_false_r.
    + destruct (IH buf) as (buf' & -> & Hlen & Hget).
      exists buf'. split_and!; [done..|]. intros x. by rewrite Hget.
Qed.

Lemma isDupe_spec earlier w : isDupe earlier w = bool_decide (w ∈ earlier).
Proof.
  induction earlier as [|x rest IH]; simpl; [bdec|].
  destruct (N.eqb_spec x w) as [->|Hne]; [bdec|]. rewrite IH. bdec.
Qed.

Lemma checkCell_spec buf gen w m :
  checkCell buf gen w m = Some (if stamped buf gen w then m else m + 1).
Proof.
  unfold checkCell, stamped, Buffer.len, Buffer.load.
  destruct (Z.ltb_spec (Z.of_N w) (Z.of_nat (length buf))) as [Hlt|Hge].
  - destruct (lookup_lt_is_Some_2 buf (N.to_nat w)) as [c Hc]; [lia|].
    rewrite Hc. simpl. destruct (Z.eqb_spec c gen) as [->|Hne]; bdec.
  - rewrite lookup_ge_None_2 by lia. bdec.
Qed.

Lemma countMismatches_spec earlier rest buf gen m :
  countMismatches earlier rest buf gen m =
    Some (m + Z.of_nat (length (filter (λ w, stamped buf gen w = false)
                                       (firsts earlier rest)))).
Proof.
  revert earlier m. induction rest as [|w rest IH]; intros earlier m; simpl.
  - f_equal. lia.
  - rewrite isDupe_spec, checkCell_spec.
    destruct (decide (w ∈ earlier)) as [Hin|Hnin].
    + rewrite bool_decide_eq_true_2 by done. simpl. apply IH.
    + rewrite bool_decide_eq_false_2 by done. simpl. rewrite IH.
      rewrite filter_cons. destruct (stamped buf gen w); simpl; [done|].
      f_equal. lia.
Qed.

Lemma elem_of_firsts earlier rest x :
  x ∈ firsts earlier rest ↔ x ∈ rest ∧ x ∉ earlier.
Proof.
  revert earlier. induction rest as [|w rest IH]; intros earlier; simpl.
  - set_solver.
  - case_decide.
    + rewrite IH. set_solver.
    + rewrite !elem_of_cons, IH. destruct (decide (x = w)); set_solver.
Qed.

Lemma NoDup_firsts earlier rest : NoDup (firsts earlier rest).
Proof.
  revert earlier. induction rest as [|w rest IH]; intros earlier; simpl.
  - constructor.
  - case_decide; [apply IH|]. constructor; [|apply IH].
    rewrite elem_of_firsts. set_solver.
Qed.

Lemma firsts_distinct A : firsts [] A ≡ₚ remove_dups A.
Proof.
  apply NoDup_Permutation; [apply NoDup_firsts|apply NoDup_remove_dups|].
  intros x. rewrite elem_of_firsts, elem_of_remove_dups. set_solver.
Qed.

Lemma countMismatches_distinct parts buf gen :
  countMismatches [] parts buf gen 0 = Some (unstamped buf gen parts).
Proof.
  rewrite countMismatches_spec. unfold unstamped.
  by rewrite (firsts_distinct parts).
Qed.

(** The call as a straight-line computation: both buffers exist. *)
Lemma validateOptimized_run A B wm buf gen :
  ∃ buf1 buf2,
    populate B wm gen buf = Some buf1
    ∧ populate A wm (wrap64 (gen + 1)) buf1 = Some buf2
    ∧ length buf1 = length buf ∧ length buf2 = length buf
    ∧ validateOptimized A B wm buf gen =
        Some (thresholds (Z.of_nat (length A)) (Z.of_nat (length B))
                (unstamped buf1 gen A)
                (unstamped buf2 (wrap64 (gen + 1)) B), buf2).
Proof.
  destruct (populate_spec B wm gen buf) as (buf1 & H1 & Hl1 & _).
  destruct (populate_spec A wm (wrap64 (gen + 1)) buf1) as (buf2 & H2 & Hl2 & _).
  exists buf1, buf2. split_and!; [done|done|done|congruence|].
  unfold validateOptimized. rewrite H1. simpl.
  rewrite countMismatches_distinct. simpl. rewrite H2. simpl.
  by rewrite countMismatches_distinct.
Qed.

Lemma wrap64_succ_ne gen : wrap64 (gen + 1) ≠ gen.
Proof.
  unfold wrap64. intros Heq.
  assert (0 <= gen < 2 ^ 64) as Hr
    by (rewrite <- Heq; apply Z.mod_pos_bound; lia).
  destruct (decide (gen + 1 < 2 ^ 64)).
  - rewrite Z.mod_small in Heq by lia. lia.
  - replace (gen + 1) with (2 ^ 64) in Heq by lia.
    rewrite Z.mod_same in Heq by lia. lia.
Qed.

(** On a fresh buffer a cell holds the stamp exactly when it was
    marked. *)
Lemma stamped_populate parts wm gen buf buf' :
  Forall (λ c, c ≠ gen) buf →
  populate parts wm gen buf = Some buf' →
  ∀ x, stamped buf' gen x = marked wm parts (length buf) x.
Proof.
  intros Hfresh Hpop x.
  destruct (populate_spec parts wm gen buf) as (b & Hb & _ & Hget).
  rewrite Hpop in Hb. injection Hb as <-.
  unfold stamped. rewrite Hget.
  destruct (marked wm parts (length buf) x); [bdec|].
  apply bool_decide_eq_false_2. intros Hx.
  apply list_elem_of_lookup_2 in Hx.
  rewrite Forall_forall in Hfresh. by apply (Hfresh gen).
Qed.

Lemma populate_cells parts wm gen buf buf' :
  populate parts wm gen buf = Some buf' →
  Forall (λ c, c = gen ∨ c ∈ buf) buf'.
Proof.
  intros Hpop.
  destruct (populate_spec parts wm gen buf) as (b & Hb & Hlen & Hget).
  rewrite Hpop in Hb. injection Hb as <-.
  apply Forall_lookup_2. intros i c Hc.
  specialize (Hget (N.of_nat i)). rewrite Nat2N.id in Hget.
  rewrite Hc in Hget. destruct (marked wm parts (length buf) (N.of_nat i)).
  - left. congruence.
  - right. symmetry in Hget. by apply list_elem_of_lookup_2 in Hget.
Qed.

Lemma unstamped_mismatch parts other wm gen buf buf' :
  Forall (λ c, c ≠ gen) buf →
  populate other wm gen buf = Some buf' →
  unstamped buf' gen parts = mismatch wm (length buf) parts other.
Proof.
  intros Hfresh Hpop. unfold unstamped, mismatch. do 2 f_equal.
  apply list_filter_iff. intros w.
  by rewrite (stamped_populate other wm gen buf buf').
Qed.

(** The decision on a fresh buffer, in terms of the two tables only. *)
Lemma validateOptimized_fresh A B wm buf gen :
  fresh buf gen →
  ∃ buf',
    validateOptimized A B wm buf gen =
      Some (thresholds (Z.of_nat (length A)) (Z.of_nat (length B))
              (mismatch wm (length buf) A B)
              (mismatch wm (length buf) B A), buf')
    ∧ length buf' = length buf
    ∧ Forall (λ c, c = gen ∨ c = wrap64 (gen + 1) ∨ c ∈ buf) buf'.
Proof.
  intros Hfresh.
  destruct (validateOptimized_run A B wm buf gen)
    as (buf1 & buf2 & H1 & H2 & Hl1 & Hl2 & Hrun).
  exists buf2. rewrite Hrun.
  pose proof (populate_cells _ _ _ _ _ H1) as Hc1.
  pose proof (populate_cells _ _ _ _ _ H2) as Hc2.
  unfold fresh in Hfresh. rewrite Forall_forall in Hfresh, Hc1, Hc2.
  split_and!; [|done|].
  - rewrite (unstamped_mismatch A B wm gen buf buf1);
      [|by apply Forall_forall; naive_solver|done].
    rewrite (unstamped_mismatch B A wm (wrap64 (gen + 1)) buf1 buf2), Hl1;
      [done| |done].
    apply Forall_forall. intros c Hc.
    destruct (Hc1 c Hc) as [->|Hin]; [apply not_eq_sym, wrap64_succ_ne|].
    by apply Hfresh.
  - apply Forall_forall. intros c Hc.
    destruct (Hc2 c Hc) as [->|Hin]; [by auto|].
    destruct (Hc1 c Hin) as [->|Hin']; by auto.
Qed.

Lemma thresholds_rules lenA lenB mA mB :
  thresholds lenA lenB mA mB = true
  ↔ ¬ R1 lenA lenB mA mB ∧ ¬ R2 lenA lenB mA mB ∧ ¬ R3 lenA lenB mA mB.
Proof.
  unfold thresholds, R1, R2, R3.
  destruct (Z.eqb_spec lenB 3), (Z.eqb_spec lenA 3),
    (Z.gtb_spec mB 0), (Z.gtb_spec mA 0),
    (Z.geb_spec lenA 3), (Z.geb_spec lenB 3),
    (Z.ltb_spec (lenA - mA) 2), (Z.ltb_spec (lenB - mB) 2);
    simpl; split; try done; try lia; intros _; lia.
Qed.

Lemma mismatch_nonneg wm n A B : 0 <= mismatch wm n A B.
Proof. unfold mismatch. lia. Qed.

Lemma thresholds_comm lenA lenB mA mB :
  thresholds lenA lenB mA mB = thresholds lenB lenA mB mA.
Proof.
  unfold thresholds.
  destruct (lenB =? 3), (lenA =? 3), (mB >? 0), (mA >? 0),
    (lenA >=? 3), (lenB >=? 3), (lenA - mA <? 2), (lenB - mB <? 2); done.
Qed.


Lemma length_filter_mono {X} (P Q : X → Prop)
    `{∀ x, Decision (P x)} `{∀ x, Decision (Q x)} (l : list X) :
  (∀ x, P x → Q x) → (length (filter P l) <= length (filter Q l))%nat.
Proof.
  intros HPQ. induction l as [|x l IH]; [done|].
  rewrite !filter_cons. destruct (decide (P x)) as [HP|HP].
  - rewrite decide_True by auto. simpl. lia.
  - destruct (decide (Q x)); simpl; lia.
Qed.




(** *** The specification's closure and the marks of the code *)

Lemma marked_inClosure wm parts n x :
  marked wm parts n x = true → inClosure wm parts x = true.
Proof.
  unfold marked, inClosure. rewrite andb_true_iff, !existsb_exists.
  intros [_ (w & Hw & Hin)]. exists w. split; [done|].
  unfold inMatches in Hin. unfold closure.
  destruct (wm !! w) as [ms|]; [done|discriminate].
Qed.

Lemma inClosure_marked wm parts n x :
  (∀ w, w ∈ parts → is_Some (wm !! w)) → (N.to_nat x < n)%nat →
  inClosure wm parts x = true → marked wm parts n x = true.
Proof.
  unfold marked, inClosure. rewrite andb_true_iff, !existsb_exists.
  intros Hall Hx (w & Hw & Hin). split; [by apply bool_decide_eq_true|].
  exists w. split; [done|].
  destruct (Hall w) as [ms Hms]; [by apply list_elem_of_In|].
  unfold inMatches. unfold closure in Hin. by rewrite Hms in *.
Qed.

Lemma filter_ext_elem {X} (P Q : X → Prop)
    `{∀ x, Decision (P x)} `{∀ x, Decision (Q x)} (l : list X) :
  (∀ x, x ∈ l → P x ↔ Q x) → filter P l = filter Q l.
Proof.
  induction l as [|x l IH]; intros HPQ; [done|].
  rewrite !filter_cons, IH by (intros y Hy; apply HPQ; by right).
  destruct (decide (P x)) as [HP|HP].
  - rewrite decide_True; [done|]. apply HPQ; [by left|done].
  - rewrite decide_False; [done|]. intros HQ. apply HP, HPQ; [by left|done].
Qed.

Lemma closureMismatch_nonneg wm A B : 0 <= closureMismatch wm A B.
Proof. unfold closureMismatch. lia. Qed.

Lemma closureMismatch_le wm n A B :
  closureMismatch wm A B <= mismatch wm n A B.
Proof.
  unfold closureMismatch, mismatch. apply inj_le, length_filter_mono.
  intros a Ha. destruct (marked wm B n a) eqn:E; [|done].
  by rewrite (marked_inClosure _ _ _ _ E) in Ha.
Qed.

Lemma closureMismatch_eq wm n A B :
  (∀ w, w ∈ B → is_Some (wm !! w)) →
  (∀ a, a ∈ A → (N.to_nat a < n)%nat) →
  mismatch wm n A B = closureMismatch wm A B.
Proof.
  intros HB HA. unfold closureMismatch, mismatch. do 2 f_equal.
  apply filter_ext_elem. intros a Ha. apply (proj1 (elem_of_remove_dups A a)) in Ha.
  destruct (inClosure wm B a) eqn:E.
  - by rewrite (inClosure_marked wm B n a HB (HA a Ha) E).
  - destruct (marked wm B n a) eqn:E'; [|done].
    by rewrite (marked_inClosure _ _ _ _ E') in E.
Qed.

(** The counters of a call on a fresh buffer. *)
Lemma validateOptimized_counters A B wm buf gen :
  fresh buf gen →
  ∃ buf1 buf2,
    populate B wm gen buf = Some buf1
    ∧ countMismatches [] A buf1 gen 0 = Some (mismatch wm (length buf) A B)
    ∧ populate A wm (wrap64 (gen + 1)) buf1 = Some buf2
    ∧ countMismatches [] B buf2 (wrap64 (gen + 1)) 0
      = Some (mismatch wm (length buf) B A)
    ∧ validateOptimized A B wm buf gen =
        Some (thresholds (Z.of_nat (length A)) (Z.of_nat (length B))
                (mismatch wm (length buf) A B)
                (mismatch wm (length buf) B A), buf2).
Proof.
  intros Hfresh.
  destruct (validateOptimized_run A B wm buf gen)
    as (buf1 & buf2 & H1 & H2 & Hl1 & Hl2 & Hrun).
  pose proof (populate_cells _ _ _ _ _ H1) as Hc1.
  unfold fresh in Hfresh. rewrite Forall_forall in Hfresh, Hc1.
  assert (unstamped buf1 gen A = mismatch wm (length buf) A B) as HA.
  { apply (unstamped_mismatch A B wm gen buf buf1); [|done].
    apply Forall_forall. naive_solver. }
  assert (unstamped buf2 (wrap64 (gen + 1)) B = mismatch wm (length buf) B A)
    as HB.
  { rewrite <- Hl1.
    apply (unstamped_mismatch B A wm (wrap64 (gen + 1)) buf1 buf2); [|done].
    apply Forall_forall. intros c Hc.
    destruct (Hc1 c Hc) as [->|Hin]; [apply not_eq_sym, wrap64_succ_ne|].
    by apply Hfresh. }
  exists buf1, buf2. rewrite !countMismatches_distinct, HA, HB in *.
  by split_and!.
Qed.

(** C1, as the claim states it, with the closure of section 4.4 (a token
    without an entry stands for itself): it fails for the names [[0; 1]]
    and [[1; 0]] under the empty table on a zeroed buffer.  No token of
    either name is outside the closure of the other, so no reject rule
    holds, and the validator returns [false]. *)
Lemma closure_rules_counterexample :
  fresh (Buffer.make 2) 12
  ∧ closureMismatch ∅ [0; 1]%N [1; 0]%N = 0
  ∧ closureMismatch ∅ [1; 0]%N [0; 1]%N = 0
  ∧ (¬ R1 2 2 0 0 ∧ ¬ R2 2 2 0 0 ∧ ¬ R3 2 2 0 0)
  ∧ validateOptimized [0; 1]%N [1; 0]%N ∅ (Buffer.make 2) 12
    = Some (false, Buffer.make 2)
  ∧ ¬ (∀ (A B : list N) (wm : gmap N (list N)) (buf buf' : list Z) (gen : Z)
         (ok : bool),
         fresh buf gen →
         validateOptimized A B wm buf gen = Some (ok, buf') →
         let lenA := Z.of_nat (length A) in
         let lenB := Z.of_nat (length B) in
         let mismatchA := closureMismatch wm A B in
         let mismatchB := closureMismatch wm B A in
         ok = true ↔ ¬ R1 lenA lenB mismatchA mismatchB
                     ∧ ¬ R2 lenA lenB mismatchA mismatchB
                     ∧ ¬ R3 lenA lenB mismatchA mismatchB).
Proof.
  assert (fresh (Buffer.make 2) 12) as Hfresh by (repeat constructor; done).
  assert (¬ R1 2 2 0 0 ∧ ¬ R2 2 2 0 0 ∧ ¬ R3 2 2 0 0) as Hrules
    by (unfold R1, R2, R3; lia).
  split; [exact Hfresh|]. split; [reflexivity|]. split; [reflexivity|].
  split; [exact Hrules|]. split; [reflexivity|].
  intros H.
  specialize (H [0; 1]%N [1; 0]%N ∅ (Buffer.make 2) (Buffer.make 2) 12 false
                Hfresh eq_refl).
  simpl in H. apply H in Hrules. discriminate Hrules.
Qed.

(** C1, amended. On a fresh buffer (no cell holds one of the two stamps of
    the call) the validator returns [true] exactly when none of the reject
    rules R1, R2, R3 holds, the counters [mismatchesA] and [mismatchesB]
    of the code being the numbers of distinct tokens of one name that lie
    outside the buffer or in no match list of a token of the other name
    that has an entry in the table: a token without an entry marks
    nothing.  An accepted pair has at least two matches on each side, and
    an accepted pair with a three-token name against a name of at least
    three tokens has no mismatch in the three-token name.  With the
    counters of the specification's closure, never larger than those of
    the code, an accepted pair still meets no reject rule; the two pairs
    of counters agree when every token of both names has an entry and
    indexes the buffer. *)
Theorem validateOptimized_rules (A B : list N) (wm : gmap N (list N))
    (buf : list Z) (gen : Z) :
  fresh buf gen →
  let lenA := Z.of_nat (length A) in
  let lenB := Z.of_nat (length B) in
  let mismatchA := mismatch wm (length buf) A B in
  let mismatchB := mismatch wm (length buf) B A in
  let matchA := lenA - mismatchA in
  let matchB := lenB - mismatchB in
  ∃ ok buf1 buf',
    populate B wm gen buf = Some buf1
    ∧ countMismatches [] A buf1 gen 0 = Some mismatchA
    ∧ populate A wm (wrap64 (gen + 1)) buf1 = Some buf'
    ∧ countMismatches [] B buf' (wrap64 (gen + 1)) 0 = Some mismatchB
    ∧ validateOptimized A B wm buf gen = Some (ok, buf')
    ∧ (ok = true ↔ ¬ R1 lenA lenB mismatchA mismatchB
                   ∧ ¬ R2 lenA lenB mismatchA mismatchB
                   ∧ ¬ R3 lenA lenB mismatchA mismatchB)
    ∧ (ok = true → matchA >= 2 ∧ matchB >= 2)
    ∧ (ok = true → lenA = 3 → lenB >= 3 → mismatchA = 0)
    ∧ (ok = true → lenB = 3 → lenA >= 3 → mismatchB = 0)
    ∧ closureMismatch wm A B <= mismatchA
    ∧ closureMismatch wm B A <= mismatchB
    ∧ (ok = true →
       ¬ R1 lenA lenB (closureMismatch wm A B) (closureMismatch wm B A)
       ∧ ¬ R2 lenA lenB (closureMismatch wm A B) (closureMismatch wm B A)
       ∧ ¬ R3 lenA lenB (closureMismatch wm A B) (closureMismatch wm B A))
    ∧ ((∀ w, w ∈ A ++ B →
          is_Some (wm !! w) ∧ (N.to_nat w < length buf)%nat) →
       mismatchA = closureMismatch wm A B
       ∧ mismatchB = closureMismatch wm B A).
Proof.
  intros Hfresh lenA lenB mismatchA mismatchB matchA matchB.
  destruct (validateOptimized_counters A B wm buf gen Hfresh)
    as (buf1 & buf' & H1 & HA & H2 & HB & Hrun).
  eexists _, buf1, buf'. split_and!; [exact H1|exact HA|exact H2|exact HB
                                     |exact Hrun|..].
  all: fold lenA lenB mismatchA mismatchB.
  all: pose proof (mismatch_nonneg wm (length buf) A B) as HnA.
  all: pose proof (mismatch_nonneg wm (length buf) B A) as HnB.
  all: pose proof (closureMismatch_nonneg wm A B) as HcA.
  all: pose proof (closureMismatch_nonneg wm B A) as HcB.
  all: pose proof (closureMismatch_le wm (length buf) A B) as HlA.
  all: pose proof (closureMismatch_le wm (length buf) B A) as HlB.
  all: fold mismatchA in HnA, HlA; fold mismatchB in HnB, HlB.
  all: try rewrite thresholds_rules; unfold R1, R2, R3, matchA, matchB.
  1-6: try done; lia.
  - lia.
  - intros Hall. split; apply closureMismatch_eq.
    + intros w Hw. apply Hall, elem_of_app. by right.
    + intros a Ha. apply Hall, elem_of_app. by left.
    + intros w Hw. apply Hall, elem_of_app. by left.
    + intros a Ha. apply Hall, elem_of_app. by right.
Qed.

Lemma validateOptimized_rules_witness :
  fresh (Buffer.make 3) 12
  ∧ ∃ ok buf',
      validateOptimized [0; 1; 2]%N [0; 1]%N {[ 0%N := [0%N]; 1%N := [1%N] ]}
        (Buffer.make 3) 12 = Some (ok, buf')
      ∧ ok = true.
Proof.
  assert (fresh (Buffer.make 3) 12) as Hfresh by (repeat constructor; done).
  split; [exact Hfresh|].
  destruct (validateOptimized_rules [0; 1; 2]%N [0; 1]%N
              {[ 0%N := [0%N]; 1%N := [1%N] ]} (Buffer.make 3) 12 Hfresh)
    as (ok & buf1 & buf' & _ & _ & _ & _ & Hrun & Hiff & _).
  exists ok, buf'. split; [exact Hrun|].
  apply Hiff. unfold R1, R2, R3. vm_compute.
  repeat split; intros H; intuition discriminate.
Defined.

(** C2, as the claim states it: it fails for two tokens without entries
    and a zeroed buffer; the name [[0; 1]] is then rejected against
    itself, both of its tokens counting as mismatches. *)
Lemma absent_token_singleton_counterexample :
  ¬ (∀ (B : list N) (wm : gmap N (list N)) (gen : Z) (buf buf1 : list Z)
       (w : N),
       w ∈ B → wm !! w = None → (N.to_nat w < length buf)%nat →
       populate B wm gen buf = Some buf1 →
       buf1 !! N.to_nat w = Some gen)
  ∧ populate [0; 1]%N ∅ 12 (Buffer.make 2) = Some (Buffer.make 2)
  ∧ countMismatches [] [0; 1]%N (Buffer.make 2) 12 0 = Some 2
  ∧ validateOptimized [0; 1]%N [0; 1]%N ∅ (Buffer.make 2) 12
    = Some (false, Buffer.make 2).
Proof.
  split_and!; [|reflexivity..].
  intros H.
  specialize (H [0; 1]%N ∅ 12 (Buffer.make 2) (Buffer.make 2) 0%N).
  assert ((Buffer.make 2 : list Z) !! N.to_nat 0 = Some 12) as Hbad.
  { apply H; [set_solver|done|simpl; lia|done]. }
  discriminate Hbad.
Qed.

(** C2, amended. A token without an entry in the table marks nothing:
    populating from [B] leaves the cell of [w] as it was unless [w]
    occurs in the match list of a token of [B] that has an entry; on a
    buffer free of the stamp such a [w] is therefore not stamped and a
    token of [A] equal to [w] is counted as a mismatch. *)
Theorem absent_token_marks_nothing (A B : list N) (wm : gmap N (list N))
    (gen : Z) (buf : list Z) (w : N) :
  wm !! w = None →
  (∀ v ms, v ∈ B → wm !! v = Some ms → w ∉ ms) →
  ∃ buf1,
    populate B wm gen buf = Some buf1
    ∧ buf1 !! N.to_nat w = buf !! N.to_nat w
    ∧ (Forall (λ c, c ≠ gen) buf →
       stamped buf1 gen w = false
       ∧ (w ∈ A → 1 <= unstamped buf1 gen A)
       ∧ countMismatches [] A buf1 gen 0 = Some (unstamped buf1 gen A)).
Proof.
  intros Habsent Hlists.
  destruct (populate_spec B wm gen buf) as (buf1 & Hpop & Hlen & Hget).
  assert (marked wm B (length buf) w = false) as Hm.
  { unfold marked. apply andb_false_iff. right.
    apply not_true_is_false. rewrite existsb_exists.
    intros (v & Hv & Hin). apply list_elem_of_In in Hv.
    unfold inMatches in Hin. destruct (wm !! v) as [ms|] eqn:E; [|done].
    apply bool_decide_eq_true in Hin. by apply (Hlists v ms). }
  exists buf1. split_and!; [done|by rewrite Hget, Hm|].
  intros Hfresh.
  assert (stamped buf1 gen w = false) as Hs.
  { by rewrite (stamped_populate B wm gen buf buf1). }
  split_and!; [done| |apply countMismatches_distinct].
  intros HA. unfold unstamped.
  assert (w ∈ filter (λ a, stamped buf1 gen a = false) (remove_dups A)) as Hw.
  { apply list_elem_of_filter. split; [done|]. by apply elem_of_remove_dups. }
  destruct (filter _ (remove_dups A)); [by apply not_elem_of_nil in Hw|].
  simpl. lia.
Qed.

Lemma absent_token_marks_nothing_witness :
  (∅ : gmap N (list N)) !! 0%N = None
  ∧ ∃ buf1, populate [0; 1]%N ∅ 12 (Buffer.make 2) = Some buf1
            ∧ buf1 !! N.to_nat 0 = Buffer.make 2 !! N.to_nat 0.
Proof.
  split; [done|].
  destruct (absent_token_marks_nothing [0; 1]%N [0; 1]%N ∅ 12
              (Buffer.make 2) 0%N) as (buf1 & Hpop & Hcell & _).
  - done.
  - intros v ms _ Hv. by rewrite lookup_empty in Hv.
  - exists buf1. by split.
Defined.

(** *** Tokens outside the buffer *)

Lemma length_filter_split {X} (P Q R : X → Prop)
    `{∀ x, Decision (P x)} `{∀ x, Decision (Q x)} `{∀ x, Decision (R x)}
    (l : list X) :
  (∀ x, P x ↔ Q x ∨ R x) → (∀ x, Q x → R x → False) →
  length (filter P l) = (length (filter Q l) + length (filter R l))%nat.
Proof.
  intros Hiff Hdisj. induction l as [|x l IH]; [done|].
  rewrite !filter_cons.
  destruct (decide (Q x)) as [HQ|HQ], (decide (R x)) as [HR|HR].
  - destruct (Hdisj x HQ HR).
  - rewrite decide_True by (apply Hiff; auto). simpl. lia.
  - rewrite decide_True by (apply Hiff; auto). simpl. lia.
  - rewrite decide_False by (rewrite Hiff; tauto). lia.
Qed.

(** The counting loop counts the tokens outside the buffer and the tokens
    inside whose cell does not hold the stamp, each distinct token
    once. *)
Lemma unstamped_outside buf gen parts :
  unstamped buf gen parts
  = outside (length buf) parts + unstampedInside buf gen parts.
Proof.
  unfold unstamped, outside, unstampedInside. rewrite <- Nat2Z.inj_add.
  f_equal. apply length_filter_split.
  - intros w. unfold stamped. rewrite bool_decide_eq_false. split.
    + intros Hw. destruct (decide (length buf ≤ N.to_nat w)%nat); [by left|].
      right. split; [lia|done].
    + intros [Hout|[_ Hne]]; [|done].
      by rewrite lookup_ge_None_2.
  - intros w Hout [Hin _]. lia.
Qed.

Lemma outside_nonneg n parts : 0 <= outside n parts.
Proof. unfold outside. lia. Qed.

Lemma unstampedInside_nonneg buf gen parts :
  0 <= unstampedInside buf gen parts.
Proof. unfold unstampedInside. lia. Qed.

Lemma outside_pos n parts w :
  w ∈ parts → (n ≤ N.to_nat w)%nat → 1 <= outside n parts.
Proof.
  intros Hw Hout. unfold outside.
  assert (w ∈ filter (λ w, (n ≤ N.to_nat w)%nat) (remove_dups parts)) as Hin.
  { apply list_elem_of_filter. split; [done|]. by apply elem_of_remove_dups. }
  destruct (filter _ (remove_dups parts)); [by apply not_elem_of_nil in Hin|].
  simpl. lia.
Qed.

(** C9. The validator returns a boolean for every input, on every table,
    buffer and generation, and leaves the buffer at its length: every
    access to the buffer is guarded.  A token id that is not smaller than
    the buffer length is counted as a mismatch: the counter
    [mismatchesA] the decision is taken from is the number of distinct
    tokens of [A] outside the buffer plus the number of those inside
    whose cell does not hold the stamp (and the same for [B]).  So a name
    needs two tokens more than it has distinct tokens outside the buffer
    to be accepted, and a three-token name with a token outside the
    buffer is rejected against a name of at least three tokens.  In the
    loops, such an id marks nothing and adds one to the counter. *)
Theorem validateOptimized_total (A B : list N) (wm : gmap N (list N))
    (buf : list Z) (gen : Z) :
  let lenA := Z.of_nat (length A) in
  let lenB := Z.of_nat (length B) in
  let gen2 := wrap64 (gen + 1) in
  (∃ ok buf',
     validateOptimized A B wm buf gen = Some (ok, buf')
     ∧ length buf' = length buf)
  ∧ (∃ buf1 buf2 mismatchesA mismatchesB,
       populate B wm gen buf = Some buf1
       ∧ countMismatches [] A buf1 gen 0 = Some mismatchesA
       ∧ populate A wm gen2 buf1 = Some buf2
       ∧ countMismatches [] B buf2 gen2 0 = Some mismatchesB
       ∧ validateOptimized A B wm buf gen
         = Some (thresholds lenA lenB mismatchesA mismatchesB, buf2)
       ∧ length buf1 = length buf ∧ length buf2 = length buf
       ∧ mismatchesA = outside (length buf) A + unstampedInside buf1 gen A
       ∧ mismatchesB = outside (length buf) B + unstampedInside buf2 gen2 B
       ∧ (∀ w, w ∈ A → Buffer.len buf <= Z.of_N w → 1 <= mismatchesA)
       ∧ (∀ w, w ∈ B → Buffer.len buf <= Z.of_N w → 1 <= mismatchesB)
       ∧ (thresholds lenA lenB mismatchesA mismatchesB = true →
          lenA - outside (length buf) A >= 2
          ∧ lenB - outside (length buf) B >= 2
          ∧ (lenA = 3 → lenB >= 3 → outside (length buf) A = 0)
          ∧ (lenB = 3 → lenA >= 3 → outside (length buf) B = 0)))
  ∧ (∀ w m, Buffer.len buf <= Z.of_N w →
       checkCell buf gen w m = Some (m + 1))
  ∧ (∀ earlier w rest m, w ∉ earlier → Buffer.len buf <= Z.of_N w →
       countMismatches earlier (w :: rest) buf gen m =
       countMismatches (earlier ++ [w]) rest buf gen (m + 1))
  ∧ (∀ w rest, Buffer.len buf <= Z.of_N w →
       stampMatches (w :: rest) gen buf = stampMatches rest gen buf).
Proof.
  intros lenA lenB gen2.
  assert (∀ w m, Buffer.len buf <= Z.of_N w →
            checkCell buf gen w m = Some (m + 1)) as Hcell.
  { intros w m Hw. unfold checkCell.
    destruct (Z.ltb_spec (Z.of_N w) (Buffer.len buf)); [lia|done]. }
  destruct (validateOptimized_run A B wm buf gen)
    as (buf1 & buf2 & H1 & H2 & Hl1 & Hl2 & Hrun).
  fold lenA lenB gen2 in H2, Hrun.
  split; [|split; [|split; [|split]]].
  - eexists _, buf2. by split.
  - pose proof (unstamped_outside buf1 gen A) as HA.
    pose proof (unstamped_outside buf2 gen2 B) as HB.
    rewrite Hl1 in HA. rewrite Hl2 in HB.
    pose proof (outside_nonneg (length buf) A) as HoA.
    pose proof (outside_nonneg (length buf) B) as HoB.
    pose proof (unstampedInside_nonneg buf1 gen A) as HiA.
    pose proof (unstampedInside_nonneg buf2 gen2 B) as HiB.
    exists buf1, buf2, (unstamped buf1 gen A), (unstamped buf2 gen2 B).
    split; [exact H1|]. split; [apply countMismatches_distinct|].
    split; [exact H2|]. split; [apply countMismatches_distinct|].
    split; [exact Hrun|]. split; [exact Hl1|]. split; [exact Hl2|].
    split; [exact HA|]. split; [exact HB|]. split; [|split].
    + intros w Hw Hout.
      pose proof (outside_pos (length buf) A w Hw) as Hp.
      unfold Buffer.len in Hout. lia.
    + intros w Hw Hout.
      pose proof (outside_pos (length buf) B w Hw) as Hp.
      unfold Buffer.len in Hout. lia.
    + rewrite thresholds_rules. unfold R1, R2, R3. lia.
  - exact Hcell.
  - intros earlier w rest m Hw Hge. simpl.
    rewrite isDupe_spec, bool_decide_eq_false_2 by done.
    by rewrite Hcell.
  - intros w rest Hge. simpl.
    destruct (Z.ltb_spec (Z.of_N w) (Buffer.len buf)); [lia|done].
Qed.

Lemma validateOptimized_total_witness :
  Buffer.len [0] <= Z.of_N 5
  ∧ ∃ buf',
      validateOptimized [0; 5]%N [0; 5]%N {[ 0%N := [0%N]; 5%N := [5%N] ]}
        [0] 12 = Some (false, buf').
Proof.
  assert (Buffer.len [0] <= Z.of_N 5) as Hout
    by (unfold Buffer.len; simpl; lia).
  split; [exact Hout|].
  destruct (validateOptimized_total [0; 5]%N [0; 5]%N
              {[ 0%N := [0%N]; 5%N := [5%N] ]} [0] 12)
    as (_ & (buf1 & buf2 & mA & mB & _ & _ & _ & _ & Hrun & _ & _ & _ & _
             & HA & _ & _) & _).
  exists buf2. rewrite Hrun. f_equal. f_equal.
  assert (1 <= mA) as Hm by (apply (HA 5%N); [set_solver|exact Hout]).
  apply not_true_is_false. rewrite thresholds_rules.
  unfold R1, R2, R3. simpl. lia.
Defined.

(** *** Repeated tokens *)

Lemma firsts_ext e1 e2 rest :
  (∀ x, x ∈ e1 ↔ x ∈ e2) → firsts e1 rest = firsts e2 rest.
Proof.
  revert e1 e2. induction rest as [|w rest IH]; intros e1 e2 He; simpl;
    [done|].
  assert (firsts (e1 ++ [w]) rest = firsts (e2 ++ [w]) rest) as ->.
  { apply IH. intros x. rewrite !elem_of_app, He. done. }
  destruct (decide (w ∈ e1)) as [H1|H1].
  - by rewrite decide_True by (by apply He).
  - by rewrite decide_False by (by rewrite <- He).
Qed.

Lemma firsts_repeated earlier l1 l2 w :
  w ∈ earlier ++ l1 →
  firsts earlier (l1 ++ w :: l2) = firsts earlier (l1 ++ l2).
Proof.
  revert earlier. induction l1 as [|a l1 IH]; intros earlier Hw; simpl.
  - rewrite app_nil_r in Hw. rewrite decide_True by done.
    apply firsts_ext. intros x. set_solver.
  - rewrite (IH (earlier ++ [a])); [done|].
    rewrite <- app_assoc. done.
Qed.

(** A repeated occurrence of a token is skipped by the counting loop. *)
Lemma countMismatches_repeated earlier l1 l2 w buf gen m :
  w ∈ earlier ++ l1 →
  countMismatches earlier (l1 ++ w :: l2) buf gen m
  = countMismatches earlier (l1 ++ l2) buf gen m.
Proof.
  intros Hw. by rewrite !countMismatches_spec, firsts_repeated.
Qed.

(** C10. Duplicate tokens inflate the match counts.  The counting loop
    skips a repeated occurrence of a token, whatever the buffer holds
    (the count of [l1 ++ w :: l2] is that of [l1 ++ l2] when [w] occurs in
    [l1]), while the length counts it.  So [A = B = [x; x]] with
    [WordMatches[x] = [x]] has both counters at 0 and both match counts
    at 2 and is accepted.  And [[x; x; y]] against [[y; y]], each token
    listed under itself only, is accepted as well, with [x] counted as
    one mismatch although it occurs twice, so that the match count is
    [3 - 1 = 2]; without the repeats, [[x; y]] against [[y]] is
    rejected. *)
Theorem duplicate_tokens_accepted (x : N) (buf : list Z) (gen : Z) :
  (N.to_nat x < length buf)%nat →
  let A := [x; x] in
  let wm : gmap N (list N) := {[ x := [x] ]} in
  let gen2 := wrap64 (gen + 1) in
  remove_dups A = [x]
  ∧ mismatch wm (length buf) A A = 0
  ∧ Z.of_nat (length A) - mismatch wm (length buf) A A = 2
  ∧ accepted A A wm buf gen
  ∧ (∃ buf1 buf2,
       populate A wm gen buf = Some buf1
       ∧ countMismatches [] A buf1 gen 0 = Some 0
       ∧ populate A wm gen2 buf1 = Some buf2
       ∧ countMismatches [] A buf2 gen2 0 = Some 0
       ∧ validateOptimized A A wm buf gen = Some (thresholds 2 2 0 0, buf2))
  ∧ (∀ (l1 l2 : list N) (w : N) (b : list Z) (g m : Z),
       w ∈ l1 →
       countMismatches [] (l1 ++ w :: l2) b g m
       = countMismatches [] (l1 ++ l2) b g m)
  ∧ (∀ y : N,
       (N.to_nat y < length buf)%nat → y ≠ x →
       buf !! N.to_nat x ≠ Some gen →
       let wm2 : gmap N (list N) := {[ x := [x]; y := [y] ]} in
       ∃ buf1 buf2 b,
         populate [y; y] wm2 gen buf = Some buf1
         ∧ countMismatches [] [x; x; y] buf1 gen 0 = Some 1
         ∧ populate [x; x; y] wm2 gen2 buf1 = Some buf2
         ∧ countMismatches [] [y; y] buf2 gen2 0 = Some 0
         ∧ validateOptimized [x; x; y] [y; y] wm2 buf gen = Some (true, buf2)
         ∧ validateOptimized [x; y] [y] wm2 buf gen = Some (false, b)).
Proof.
  intros Hx A wm gen2.
  assert (remove_dups A = [x]) as Hd.
  { unfold A. cbn [remove_dups].
    destruct (decide_rel elem_of x [x]) as [_|Hn]; [done|].
    exfalso. apply Hn. set_solver. }
  assert (marked wm A (length buf) x = true) as Hm.
  { unfold marked, A, wm, inMatches. simpl.
    rewrite lookup_singleton_eq.
    rewrite bool_decide_eq_true_2 by done.
    rewrite bool_decide_eq_true_2 by set_solver. done. }
  assert (mismatch wm (length buf) A A = 0) as H0.
  { unfold mismatch. rewrite Hd, filter_cons, Hm. done. }
  destruct (validateOptimized_run A A wm buf gen)
    as (buf1 & buf2 & H1 & H2 & Hl1 & Hl2 & Hrun).
  assert (∀ g b b', populate A wm g b = Some b' → length b = length buf →
            unstamped b' g A = 0) as Hu.
  { intros g b b' Hp Hl.
    destruct (populate_spec A wm g b) as (b0 & Hb0 & _ & Hget).
    rewrite Hp in Hb0. injection Hb0 as <-.
    unfold unstamped, stamped. rewrite Hd, filter_cons.
    rewrite Hget, Hl, Hm. rewrite bool_decide_eq_true_2 by done. done. }
  rewrite (Hu gen buf buf1 H1 eq_refl) in Hrun.
  rewrite (Hu (wrap64 (gen + 1)) buf1 buf2 H2 Hl1) in Hrun.
  split; [exact Hd|]. split; [exact H0|]. split; [by rewrite H0|].
  split; [by exists buf2|]. split; [|split].
  - exists buf1, buf2. fold gen2 in H2.
    rewrite !countMismatches_distinct.
    rewrite (Hu gen buf buf1 H1 eq_refl).
    rewrite (Hu gen2 buf1 buf2 H2 Hl1). done.
  - intros l1 l2 w b g m Hw. by apply countMismatches_repeated.
  - intros y Hy Hne Hcell wm2.
    assert (wm2 !! x = Some [x]) as Hwx.
    { unfold wm2. rewrite lookup_insert_eq. done. }
    assert (wm2 !! y = Some [y]) as Hwy.
    { unfold wm2. rewrite lookup_insert_ne by done.
      by rewrite lookup_singleton_eq. }
    assert (∀ n parts, (N.to_nat x < n)%nat →
              marked wm2 parts n x = bool_decide (x ∈ parts)) as Hmx.
    { intros n parts Hn. unfold marked.
      rewrite bool_decide_eq_true_2 by done. simpl.
      induction parts as [|p parts IH]; simpl; [bdec|].
      rewrite IH. unfold inMatches.
      destruct (decide (p = x)) as [->|Hpx].
      - rewrite Hwx. bdec.
      - destruct (wm2 !! p) as [ms|] eqn:E; [|bdec].
        unfold wm2 in E. rewrite lookup_insert_ne in E by done.
        destruct (decide (p = y)) as [->|Hpy].
        + rewrite lookup_singleton_eq in E. injection E as <-. bdec.
        + by rewrite lookup_singleton_ne in E. }
    assert (∀ n parts, (N.to_nat y < n)%nat →
              marked wm2 parts n y = bool_decide (y ∈ parts)) as Hmy.
    { intros n parts Hn. unfold marked.
      rewrite bool_decide_eq_true_2 by done. simpl.
      induction parts as [|p parts IH]; simpl; [bdec|].
      rewrite IH. unfold inMatches.
      destruct (decide (p = y)) as [->|Hpy].
      - rewrite Hwy. bdec.
      - destruct (wm2 !! p) as [ms|] eqn:E; [|bdec].
        unfold wm2 in E.
        destruct (decide (p = x)) as [->|Hpx].
        + rewrite lookup_insert_eq in E. injection E as <-. bdec.
        + rewrite lookup_insert_ne in E by done.
          by rewrite lookup_singleton_ne in E. }
    destruct (populate_spec [y; y] wm2 gen buf) as (c1 & Hc1 & Hlc1 & Hg1).
    destruct (populate_spec [x; x; y] wm2 gen2 c1) as (c2 & Hc2 & Hlc2 & Hg2).
    assert (stamped c1 gen x = false) as Hsx.
    { unfold stamped. rewrite Hg1, Hmx by done.
      rewrite (bool_decide_eq_false_2 (x ∈ [y; y])) by set_solver.
      by apply bool_decide_eq_false_2. }
    assert (stamped c1 gen y = true) as Hsy.
    { unfold stamped. rewrite Hg1, Hmy by done.
      rewrite (bool_decide_eq_true_2 (y ∈ [y; y])) by set_solver.
      by apply bool_decide_eq_true_2. }
    assert (stamped c2 gen2 y = true) as Hsy2.
    { unfold stamped. rewrite Hg2, Hmy by lia.
      rewrite (bool_decide_eq_true_2 (y ∈ [x; x; y])) by set_solver.
      by apply bool_decide_eq_true_2. }
    assert (countMismatches [] [x; x; y] c1 gen 0 = Some 1) as Hk1.
    { simpl. rewrite !checkCell_spec. simpl. rewrite Hsx. simpl.
      rewrite N.eqb_refl. simpl.
      destruct (N.eqb_spec x y) as [->|_]; [done|]. simpl.
      rewrite checkCell_spec, Hsy. done. }
    assert (countMismatches [] [y; y] c2 gen2 0 = Some 0) as Hk2.
    { simpl. rewrite !checkCell_spec. simpl. rewrite Hsy2. simpl.
      by rewrite N.eqb_refl. }
    destruct (validateOptimized_run [x; x; y] [y; y] wm2 buf gen)
      as (d1 & d2 & Hd1 & Hd2 & _ & _ & Hr).
    fold gen2 in Hd2, Hr.
    rewrite Hc1 in Hd1. injection Hd1 as <-.
    rewrite Hc2 in Hd2. injection Hd2 as <-.
    pose proof Hk1 as Hu1. pose proof Hk2 as Hu2.
    rewrite countMismatches_distinct in Hu1, Hu2.
    injection Hu1 as Hu1. injection Hu2 as Hu2. rewrite Hu1, Hu2 in Hr.
    destruct (validateOptimized_run [x; y] [y] wm2 buf gen)
      as (e1 & e2 & _ & _ & _ & _ & Hr').
    fold gen2 in Hr'.
    exists c1, c2, e2. split; [exact Hc1|]. split; [exact Hk1|].
    split; [exact Hc2|]. split; [exact Hk2|]. split; [exact Hr|].
    rewrite Hr'. f_equal. f_equal.
    assert (0 <= unstamped e2 gen2 [y]) by (unfold unstamped; lia).
    apply not_true_is_false. rewrite thresholds_rules.
    unfold R1, R2, R3. simpl. lia.
Qed.

Lemma duplicate_tokens_accepted_witness :
  (N.to_nat 0 < length [0; 0])%nat
  ∧ accepted [0; 0]%N [0; 0]%N {[ 0%N := [0%N] ]} [0; 0] 12
  ∧ ∃ buf2,
      validateOptimized [0; 0; 1]%N [1; 1]%N
        {[ 0%N := [0%N]; 1%N := [1%N] ]} [0; 0] 12 = Some (true, buf2).
Proof.
  assert (N.to_nat 0 < length [0; 0])%nat as H0 by (simpl; lia).
  split; [exact H0|].
  destruct (duplicate_tokens_accepted 0%N [0; 0] 12 H0)
    as (_ & _ & _ & Hacc & _ & _ & Hy).
  split; [exact Hacc|].
  destruct (Hy 1%N) as (buf1 & buf2 & b & _ & _ & _ & _ & Hrun & _);
    [simpl; lia|done|done|].
  by exists buf2.
Defined.
End ValidatorFacts.

(** ** The worker loop *)

Module WorkerFacts.
Import Validator Worker Props StringFacts ValidatorFacts.

Lemma ordered_lt name other n1 n2 :
  other ≠ name → ordered name other = (n1, n2) →
  String.ltb n1 n2 = true ∧ n1 ≠ n2
  ∧ ((n1, n2) = (name, other) ∨ (n1, n2) = (other, name)).
Proof.
  unfold ordered. intros Hne Hord.
  destruct (String.ltb other name) eqn:E; injection Hord as <- <-.
  - split_and!; [done| |by right]. intros ->. by rewrite ltb_irrefl in E.
  - split_and!; [|done|by left]. apply ltb_trichotomy; [done|]. congruence.
Qed.

Lemma callValidator_spec data ids1 ids2 w :
  ∃ ok buf,
    validateOptimized ids1 ids2 (WordToMatches data) (matchesBuffer w)
      (wrap64 (currentGen w + 2)) = Some (ok, buf)
    ∧ callValidator data ids1 ids2 w =
        Some (ok, {| matchesBuffer := buf;
                     currentGen := wrap64 (currentGen w + 2);
                     seenMatches := seenMatches w;
                     written := written w |}).
Proof.
  destruct (validateOptimized_run ids1 ids2 (WordToMatches data)
              (matchesBuffer w) (wrap64 (currentGen w + 2)))
    as (buf1 & buf2 & _ & _ & _ & _ & Hrun).
  eexists _, buf2. split; [exact Hrun|].
  unfold callValidator. rewrite Hrun. done.
Qed.

(** *** Canonical order of the lines *)

Lemma report_canonical n1 n2 w :
  String.ltb n1 n2 = true → n1 ≠ n2 →
  Forall canonicalLine (written w) →
  Forall canonicalLine (written (report n1 n2 w)).
Proof.
  intros Hlt Hne Hw. unfold report. case_decide; [done|]. simpl.
  apply Forall_app. split; [done|]. constructor; [|constructor].
  by exists n1, n2.
Qed.

Lemma visitOther_canonical data name other w w' :
  visitOther data name other w = Some w' →
  Forall canonicalLine (written w) → Forall canonicalLine (written w').
Proof.
  unfold visitOther. case_decide as Hne; [by intros [= <-]|].
  destruct (ordered name other) as [n1 n2] eqn:Hord.
  destruct (ordered_lt _ _ _ _ Hne Hord) as (Hlt & Hneq & _).
  destruct (callValidator_spec data (default [] (NameWords data !! n1))
              (default [] (NameWords data !! n2)) w) as (ok & buf & _ & ->).
  simpl. intros [= <-] Hw. destruct ok; [|done].
  by apply report_canonical.
Qed.

Lemma visitOthers_canonical data name others w w' :
  visitOthers data name others w = Some w' →
  Forall canonicalLine (written w) → Forall canonicalLine (written w').
Proof.
  revert w. induction others as [|other rest IH]; intros w; simpl.
  - by intros [= <-].
  - destruct (visitOther data name other w) as [w1|] eqn:E; [|done]. simpl.
    intros Hrest Hw. eapply IH; [done|]. by eapply visitOther_canonical.
Qed.

Lemma visitPairs_canonical data name pairs w w' :
  visitPairs data name pairs w = Some w' →
  Forall canonicalLine (written w) → Forall canonicalLine (written w').
Proof.
  revert w. induction pairs as [|pairStr rest IH]; intros w; simpl.
  - by intros [= <-].
  - destruct (PairToNames data !! pairStr) as [others|]; simpl; [|apply IH].
    destruct (visitOthers data name others w) as [w1|] eqn:E; [|done]. simpl.
    intros Hrest Hw. eapply IH; [done|]. by eapply visitOthers_canonical.
Qed.

Lemma processName_canonical data name w w' :
  processName data name w = Some w' →
  Forall canonicalLine (written w) → Forall canonicalLine (written w').
Proof.
  unfold processName. case_match; [by intros [= <-]|].
  destruct (PairKeys.buildExpandedPairMappings _ _ _) as [pairs|]; [|done].
  simpl. intros Hv Hw. by eapply visitPairs_canonical.
Qed.

Lemma processJobs_canonical data jobs w w' :
  processJobs data jobs w = Some w' →
  Forall canonicalLine (written w) → Forall canonicalLine (written w').
Proof.
  revert w. induction jobs as [|name rest IH]; intros w; simpl.
  - by intros [= <-].
  - destruct (processName data name w) as [w1|] eqn:E; [|done]. simpl.
    intros Hrest Hw. eapply IH; [done|]. by eapply processName_canonical.
Qed.

(** C8. Every line a worker writes is [("n1", "n2")] followed by a
    newline with [n1 < n2] byte-wise; in particular the two names of a
    line differ. *)
Theorem processBatch_canonical (data : ProcessedData) (dictSize : nat)
    (jobs : list string) (w : State) :
  processBatch data dictSize jobs = Some w →
  ∀ line, line ∈ written w →
    ∃ n1 n2, line = (formatMatch n1 n2 +:+ newline)%string
             ∧ String.ltb n1 n2 = true ∧ n1 ≠ n2.
Proof.
  intros Hrun line Hline.
  assert (Forall canonicalLine (written w)) as Hall.
  { eapply processJobs_canonical; [exact Hrun|]. constructor. }
  rewrite Forall_forall in Hall. exact (Hall line Hline).
Qed.

Lemma processBatch_canonical_witness :
  ∃ w, processBatch Examples.twoNames 2 ["john smith"; "smith john"]%string
         = Some w
       ∧ ∀ line, line ∈ written w →
           ∃ n1 n2, line = (formatMatch n1 n2 +:+ newline)%string
                    ∧ String.ltb n1 n2 = true ∧ n1 ≠ n2.
Proof.
  destruct (processBatch Examples.twoNames 2
              ["john smith"; "smith john"]%string) as [w|] eqn:E.
  - exists w. split; [reflexivity|].
    exact (processBatch_canonical Examples.twoNames 2
             ["john smith"; "smith john"]%string w E).
  - vm_compute in E. discriminate E.
Defined.

(** *** Deduplication *)

Lemma writtenOnce_NoDup w0 w :
  writtenOnce w0 w → ∃ new, written w = written w0 ++ new ∧ NoDup new.
Proof.
  intros (ms & Hw & Hnd & _). eexists. split; [exact Hw|].
  exact (NoDup_fmap_2 _ (Inj0:=app_inj_r newline) ms Hnd).
Qed.

Lemma report_once n1 n2 w0 w :
  writtenOnce w0 w → writtenOnce w0 (report n1 n2 w).
Proof.
  intros (ms & Hw & Hnd & Hseen). unfold report. case_decide as Hin.
  - by exists ms.
  - exists (ms ++ [formatMatch n1 n2]). simpl. split_and!.
    + rewrite Hw, map_app, <- app_assoc. done.
    + apply NoDup_app. split_and!; [done| |apply NoDup_singleton].
      intros m Hm ->%list_elem_of_singleton. by apply Hin, Hseen.
    + intros m [Hm| ->%list_elem_of_singleton]%elem_of_app; [|set_solver].
      apply elem_of_union_r. by apply Hseen.
Qed.

Lemma visitOther_once data name other w0 w w' :
  visitOther data name other w = Some w' →
  writtenOnce w0 w → writtenOnce w0 w'.
Proof.
  unfold visitOther. case_decide as Hne; [by intros [= <-]|].
  destruct (ordered name other) as [n1 n2].
  destruct (callValidator_spec data (default [] (NameWords data !! n1))
              (default [] (NameWords data !! n2)) w) as (ok & buf & _ & ->).
  simpl. intros [= <-] Hw.
  assert (writtenOnce w0 {| matchesBuffer := buf;
                            currentGen := wrap64 (currentGen w + 2);
                            seenMatches := seenMatches w;
                            written := written w |}) as Hw1 by exact Hw.
  destruct ok; [|done]. by apply report_once.
Qed.

Lemma visitOthers_once data name others w0 w w' :
  visitOthers data name others w = Some w' →
  writtenOnce w0 w → writtenOnce w0 w'.
Proof.
  revert w. induction others as [|other rest IH]; intros w; simpl.
  - by intros [= <-].
  - destruct (visitOther data name other w) as [w1|] eqn:E; [|done]. simpl.
    intros Hrest Hw. eapply IH; [done|]. by eapply visitOther_once.
Qed.

Lemma visitPairs_once data name pairs w0 w w' :
  visitPairs data name pairs w = Some w' →
  writtenOnce w0 w → writtenOnce w0 w'.
Proof.
  revert w. induction pairs as [|pairStr rest IH]; intros w; simpl.
  - by intros [= <-].
  - destruct (PairToNames data !! pairStr) as [others|]; simpl; [|apply IH].
    destruct (visitOthers data name others w) as [w1|] eqn:E; [|done]. simpl.
    intros Hrest Hw. eapply IH; [done|]. by eapply visitOthers_once.
Qed.

(** C3, as the claim states it: one worker that receives both names of a
    pair writes the pair twice. *)
Lemma pair_written_twice_counterexample :
  ∃ w line,
    processBatch Examples.twoNames 2 ["john smith"; "smith john"]%string
      = Some w
    ∧ written w = [line; line]
    ∧ line = (formatMatch "john smith" "smith john" +:+ newline)%string
    ∧ ¬ NoDup (written w).
Proof.
  eexists _, _. split_and!; [vm_compute; reflexivity|reflexivity|reflexivity|].
  simpl. intros Hnd. apply NoDup_cons in Hnd as [Hnin _]. apply Hnin. left.
Qed.

(** C3, amended. While a worker processes one input name, no line is
    written twice: the lines written for that name are duplicate-free
    ([seenMatches] is emptied before each name). *)
Theorem processName_writes_once (data : ProcessedData) (name : string)
    (w w' : State) :
  processName data name w = Some w' →
  ∃ new, written w' = written w ++ new ∧ NoDup new.
Proof.
  unfold processName. case_match.
  - intros [= <-]. exists []. split; [by rewrite app_nil_r|constructor].
  - destruct (PairKeys.buildExpandedPairMappings _ _ _) as [pairs|]; [|done].
    simpl. intros Hv. apply writtenOnce_NoDup.
    eapply visitPairs_once; [exact Hv|].
    exists []. simpl. split_and!; [by rewrite app_nil_r|constructor|].
    intros m Hm. by apply not_elem_of_nil in Hm.
Qed.

Lemma processName_writes_once_witness :
  ∃ w', processName Examples.twoNames "smith john" (start 2) = Some w'
        ∧ ∃ new, written w' = written (start 2) ++ new ∧ NoDup new.
Proof.
  destruct (processName Examples.twoNames "smith john" (start 2))
    as [w'|] eqn:E.
  - exists w'. split; [reflexivity|].
    exact (processName_writes_once Examples.twoNames "smith john"
             (start 2) w' E).
  - vm_compute in E. discriminate E.
Defined.

(** *** Generations *)

Lemma callValidator_bounded data A B w :
  0 <= currentGen w → currentGen w + 3 < 2 ^ 64 → bounded w →
  ∃ w',
    callValidator data A B w =
      Some (thresholds (Z.of_nat (length A)) (Z.of_nat (length B))
              (mismatch (WordToMatches data) (length (matchesBuffer w)) A B)
              (mismatch (WordToMatches data) (length (matchesBuffer w)) B A),
            w')
    ∧ currentGen w' = currentGen w + 2
    ∧ bounded w'
    ∧ length (matchesBuffer w') = length (matchesBuffer w)
    ∧ seenMatches w' = seenMatches w
    ∧ written w' = written w.
Proof.
  intros Hgen Hmax Hb.
  destruct (callValidator_spec data A B w) as (ok & buf & Hrun & Hcall).
  assert (wrap64 (currentGen w + 2) = currentGen w + 2) as Hw2.
  { unfold wrap64. apply Z.mod_small. lia. }
  assert (wrap64 (currentGen w + 2 + 1) = currentGen w + 3) as Hw3.
  { unfold wrap64. rewrite Z.mod_small; lia. }
  rewrite Hw2 in Hrun, Hcall.
  assert (fresh (matchesBuffer w) (currentGen w + 2)) as Hfresh.
  { unfold fresh. rewrite Hw3. eapply Forall_impl; [exact Hb|].
    simpl. intros c Hc. lia. }
  destruct (validateOptimized_fresh A B (WordToMatches data)
              (matchesBuffer w) (currentGen w + 2) Hfresh)
    as (buf' & Hrun' & Hlen & Hcells).
  rewrite Hrun in Hrun'. injection Hrun' as -> <-.
  eexists. split; [exact Hcall|]. simpl. split_and!; [done| |done..].
  rewrite Hw3 in Hcells. unfold bounded. simpl.
  unfold bounded in Hb. rewrite Forall_forall in Hb.
  eapply Forall_impl; [exact Hcells|]. simpl.
  intros c [->|[->|Hin]]; [lia|lia|]. specialize (Hb c Hin). lia.
Qed.

Lemma runCalls_bounded data calls w :
  0 <= currentGen w →
  currentGen w + 2 * Z.of_nat (length calls) + 1 < 2 ^ 64 → bounded w →
  ∃ w',
    runCalls data calls w = Some w'
    ∧ currentGen w' = currentGen w + 2 * Z.of_nat (length calls)
    ∧ bounded w'
    ∧ length (matchesBuffer w') = length (matchesBuffer w).
Proof.
  revert w. induction calls as [|[A B] rest IH]; intros w Hgen Hmax Hb.
  - exists w. simpl. split_and!; [done|lia|done|done].
  - simpl in Hmax |- *.
    destruct (callValidator_bounded data A B w Hgen ltac:(lia) Hb)
      as (w1 & -> & Hgen1 & Hb1 & Hlen1 & _).
    simpl.
    destruct (IH w1 ltac:(lia) ltac:(lia) Hb1)
      as (w' & -> & Hgen' & Hb' & Hlen').
    exists w'. split_and!; [done|lia|done|congruence].
Qed.

Lemma start_bounded n : bounded (start n).
Proof.
  unfold bounded, start, Buffer.make. simpl.
  apply Forall_forall. intros c ->%elem_of_replicate_inv. lia.
Qed.

(** The scratch state a worker reaches is the one its validator calls
    produce. *)
Lemma callValidator_scratch data A B w v ok w' :
  scratch w = scratch v → callValidator data A B w = Some (ok, w') →
  ∃ v', callValidator data A B v = Some (ok, v') ∧ scratch w' = scratch v'.
Proof.
  intros [= Hbuf Hgen] Hcall.
  destruct (callValidator_spec data A B w) as (ok1 & buf1 & _ & Hw).
  destruct (callValidator_spec data A B v) as (ok2 & buf2 & Hv & ->).
  rewrite <- Hbuf, <- Hgen in Hv.
  destruct (callValidator_spec data A B w) as (ok3 & buf3 & Hv' & Hw').
  rewrite Hv in Hv'. injection Hv' as <- <-.
  rewrite Hcall in Hw'. injection Hw' as -> ->.
  eexists. split; [done|]. unfold scratch. simpl. by rewrite Hgen.
Qed.

Lemma runCalls_scratch data calls w v w' :
  scratch w = scratch v → runCalls data calls w = Some w' →
  ∃ v', runCalls data calls v = Some v' ∧ scratch w' = scratch v'.
Proof.
  revert w v. induction calls as [|[A B] rest IH]; intros w v Hs; simpl.
  - intros [= <-]. by exists v.
  - destruct (callValidator data A B w) as [[ok w1]|] eqn:E; [|done]. simpl.
    destruct (callValidator_scratch data A B w v ok w1 Hs E) as (v1 & -> & Hs1).
    simpl. by apply IH.
Qed.

Lemma runCalls_app data calls1 calls2 w :
  runCalls data (calls1 ++ calls2) w =
    runCalls data calls1 w ≫= runCalls data calls2.
Proof.
  revert w. induction calls1 as [|[A B] rest IH]; intros w; simpl; [done|].
  destruct (callValidator data A B w) as [[ok w1]|]; simpl; [apply IH|done].
Qed.

Lemma callsReach_refl data w : callsReach data w w.
Proof. by exists [], w. Qed.

Lemma callsReach_trans data w1 w2 w3 :
  callsReach data w1 w2 → callsReach data w2 w3 → callsReach data w1 w3.
Proof.
  intros (c1 & v1 & H1 & Hs1) (c2 & v2 & H2 & Hs2).
  destruct (runCalls_scratch data c2 w2 v1 v2 (eq_sym Hs1) H2) as (v & Hv & Hs).
  exists (c1 ++ c2), v. rewrite runCalls_app, H1. simpl.
  split; [done|congruence].
Qed.

Lemma report_scratch n1 n2 w : scratch (report n1 n2 w) = scratch w.
Proof. unfold report. by case_decide. Qed.

Lemma visitOther_calls data name other w w' :
  visitOther data name other w = Some w' → callsReach data w w'.
Proof.
  unfold visitOther. case_decide; [intros [= <-]; apply callsReach_refl|].
  destruct (ordered name other) as [n1 n2].
  destruct (callValidator data _ _ w) as [[ok w1]|] eqn:E; [|done]. simpl.
  intros [= <-]. eexists [(_, _)], w1. simpl. rewrite E. simpl.
  split; [done|]. destruct ok; [by rewrite report_scratch|done].
Qed.

Lemma visitOthers_calls data name others w w' :
  visitOthers data name others w = Some w' → callsReach data w w'.
Proof.
  revert w. induction others as [|other rest IH]; intros w; simpl.
  - intros [= <-]. apply callsReach_refl.
  - destruct (visitOther data name other w) as [w1|] eqn:E; [|done]. simpl.
    intros Hrest. eapply callsReach_trans; [by eapply visitOther_calls|auto].
Qed.

Lemma visitPairs_calls data name pairs w w' :
  visitPairs data name pairs w = Some w' → callsReach data w w'.
Proof.
  revert w. induction pairs as [|pairStr rest IH]; intros w; simpl.
  - intros [= <-]. apply callsReach_refl.
  - destruct (PairToNames data !! pairStr) as [others|]; simpl; [|apply IH].
    destruct (visitOthers data name others w) as [w1|] eqn:E; [|done]. simpl.
    intros Hrest. eapply callsReach_trans; [by eapply visitOthers_calls|auto].
Qed.

Lemma processName_calls data name w w' :
  processName data name w = Some w' → callsReach data w w'.
Proof.
  unfold processName. case_match; [intros [= <-]; apply callsReach_refl|].
  destruct (PairKeys.buildExpandedPairMappings _ _ _) as [pairs|]; [|done].
  simpl. intros Hv. apply visitPairs_calls in Hv.
  destruct Hv as (calls & v & Hrun & Hs).
  destruct (runCalls_scratch data calls (clearSeen w) w v eq_refl Hrun)
    as (v' & Hv' & Hs').
  exists calls, v'. split; [done|congruence].
Qed.

(** Whatever the jobs are, the buffer and the generation of the worker
    are those left by a sequence of validator calls from the start. *)
Lemma processBatch_calls data dictSize jobs w :
  processBatch data dictSize jobs = Some w →
  callsReach data (start dictSize) w.
Proof.
  unfold processBatch. generalize (start dictSize). intros w0. revert w0.
  induction jobs as [|name rest IH]; intros w0; simpl.
  - intros [= <-]. apply callsReach_refl.
  - destruct (processName data name w0) as [w1|] eqn:E; [|done]. simpl.
    intros Hrest. eapply callsReach_trans; [by eapply processName_calls|auto].
Qed.

(** C5. The decision on [(x, y)] is the decision on [(y, x)]: for any two
    calls on buffers of one length that hold neither stamp of their call,
    and in particular for two consecutive calls of a worker whose counter
    has not wrapped. *)
Theorem validateOptimized_comm (x y : list N) (wm : gmap N (list N)) :
  (∀ buf1 buf2 gen1 gen2,
     fresh buf1 gen1 → fresh buf2 gen2 → length buf1 = length buf2 →
     ∃ ok buf1' buf2',
       validateOptimized x y wm buf1 gen1 = Some (ok, buf1')
       ∧ validateOptimized y x wm buf2 gen2 = Some (ok, buf2'))
  ∧ (∀ data w,
       WordToMatches data = wm →
       0 <= currentGen w → currentGen w + 5 < 2 ^ 64 → bounded w →
       ∃ ok w1 w2,
         callValidator data x y w = Some (ok, w1)
         ∧ callValidator data y x w1 = Some (ok, w2)).
Proof.
  split.
  - intros buf1 buf2 gen1 gen2 Hf1 Hf2 Hlen.
    destruct (validateOptimized_fresh x y wm buf1 gen1 Hf1) as (b1 & H1 & _).
    destruct (validateOptimized_fresh y x wm buf2 gen2 Hf2) as (b2 & H2 & _).
    eexists _, b1, b2. split; [exact H1|].
    rewrite H2, <- Hlen. by rewrite thresholds_comm.
  - intros data w <- Hgen Hmax Hb.
    destruct (callValidator_bounded data x y w Hgen ltac:(lia) Hb)
      as (w1 & H1 & Hgen1 & Hb1 & Hlen1 & _).
    destruct (callValidator_bounded data y x w1 ltac:(lia) ltac:(lia) Hb1)
      as (w2 & H2 & _).
    eexists _, w1, w2. split; [exact H1|].
    rewrite H2, Hlen1. by rewrite thresholds_comm.
Qed.

Lemma validateOptimized_comm_witness :
  fresh (Buffer.make 3) 12 ∧ fresh [13; 13; 0] 14
  ∧ ∃ ok buf1' buf2',
      validateOptimized [0; 1; 2]%N [1; 0]%N
        {[ 0%N := [0%N]; 1%N := [1%N] ]} (Buffer.make 3) 12 = Some (ok, buf1')
      ∧ validateOptimized [1; 0]%N [0; 1; 2]%N
          {[ 0%N := [0%N]; 1%N := [1%N] ]} [13; 13; 0] 14 = Some (ok, buf2').
Proof.
  assert (fresh (Buffer.make 3) 12) as H1 by (repeat constructor; done).
  assert (fresh [13; 13; 0] 14) as H2 by (repeat constructor; done).
  split_and!; [exact H1|exact H2|].
  exact (proj1 (validateOptimized_comm [0; 1; 2]%N [1; 0]%N
                  {[ 0%N := [0%N]; 1%N := [1%N] ]})
           (Buffer.make 3) [13; 13; 0] 12 14 H1 H2 eq_refl).
Defined.

Lemma populate_empty parts gen buf : populate parts ∅ gen buf = Some buf.
Proof.
  induction parts as [|w rest IH]; simpl; [done|].
  by rewrite lookup_empty.
Qed.

Lemma callValidator_unmatched A B w :
  ∃ ok,
    callValidator Examples.unmatched A B w =
      Some (ok, {| matchesBuffer := matchesBuffer w;
                   currentGen := wrap64 (currentGen w + 2);
                   seenMatches := seenMatches w;
                   written := written w |}).
Proof.
  destruct (callValidator_spec Examples.unmatched A B w)
    as (ok & buf & Hval & Hcall).
  destruct (validateOptimized_run A B ∅ (matchesBuffer w)
              (wrap64 (currentGen w + 2)))
    as (buf1 & buf2 & H1 & H2 & _ & _ & Hrun).
  rewrite populate_empty in H1. injection H1 as <-.
  rewrite populate_empty in H2. injection H2 as <-.
  change (WordToMatches Examples.unmatched) with (∅ : gmap N (list N)) in Hval.
  rewrite Hrun in Hval. injection Hval as _ <-.
  by exists ok.
Qed.

Lemma runCalls_unmatched k call w :
  ∃ w',
    runCalls Examples.unmatched (replicate k call) w = Some w'
    ∧ matchesBuffer w' = matchesBuffer w
    ∧ wrap64 (currentGen w') = wrap64 (currentGen w + 2 * Z.of_nat k).
Proof.
  revert w. induction k as [|k IH]; intros w.
  - exists w. split_and!; [done..|]. f_equal. lia.
  - destruct call as [A B]. simpl.
    destruct (callValidator_unmatched A B w) as (ok & ->). simpl.
    destruct (IH {| matchesBuffer := matchesBuffer w;
                    currentGen := wrap64 (currentGen w + 2);
                    seenMatches := seenMatches w;
                    written := written w |}) as (w' & Hrun & Hbuf & Hgen).
    exists w'. split_and!; [exact Hrun|exact Hbuf|].
    rewrite Hgen. simpl. unfold wrap64.
    rewrite Zplus_mod_idemp_l. f_equal. lia.
Qed.

(** C7, as the claim states it: after [2^63 - 6] calls the counter has
    wrapped, the next call runs with generation 0, and the cells of the
    zero-initialised buffer hold that stamp without having been marked. *)
Lemma generation_wraps_counterexample :
  ¬ (∀ (data : ProcessedData) (n : nat) (calls : list (list N * list N))
       (w : State) (B : list N) (buf1 : list Z) (x : N),
       runCalls data calls (start n) = Some w →
       populate B (WordToMatches data) (wrap64 (currentGen w + 2))
         (matchesBuffer w) = Some buf1 →
       (buf1 !! N.to_nat x = Some (wrap64 (currentGen w + 2))
        ↔ marked (WordToMatches data) B n x = true)).
Proof.
  intros H.
  destruct (runCalls_unmatched (Z.to_nat 9223372036854775802)
              ([0; 1]%N, [1; 0]%N) (start 2)) as (w & Hrun & Hbuf & Hgen).
  rewrite Z2Nat.id in Hgen by lia.
  assert (wrap64 (currentGen w + 2) = 0) as Hnext.
  { unfold wrap64 in *. rewrite <- Zplus_mod_idemp_l, Hgen. reflexivity. }
  specialize (H Examples.unmatched 2%nat Examples.manyCalls w [1; 0]%N
                (Buffer.make 2) 0%N Hrun).
  rewrite Hnext, Hbuf in H.
  destruct (H (populate_empty _ _ _)) as [Hbad _].
  discriminate (Hbad eq_refl).
Qed.

(** C7, amended. As long as the counter has not wrapped, i.e. for a call
    that is preceded by [k] calls with [13 + 2 * k < 2^64]: the counter
    started at 10 and stands at [10 + 2 * k], the call runs with
    [gen = 10 + 2 * (k + 1)] and its two phases stamp [gen] and
    [gen + 1]; after phase 1 has populated the buffer a cell holds [gen]
    exactly when it was marked from [B], and after phase 2 has populated
    it a cell holds [gen + 1] exactly when it was marked from [A]. *)
Theorem generation_isolation (data : ProcessedData) (n : nat)
    (calls : list (list N * list N)) (A B : list N) :
  13 + 2 * Z.of_nat (length calls) < 2 ^ 64 →
  let wm := WordToMatches data in
  let gen := 10 + 2 * (Z.of_nat (length calls) + 1) in
  ∃ w buf1 buf2 ok,
    currentGen (start n) = 10
    ∧ runCalls data calls (start n) = Some w
    ∧ currentGen w = 10 + 2 * Z.of_nat (length calls)
    ∧ wrap64 (currentGen w + 2) = gen
    ∧ wrap64 (gen + 1) = gen + 1
    ∧ populate B wm gen (matchesBuffer w) = Some buf1
    ∧ (∀ x, buf1 !! N.to_nat x = Some gen ↔ marked wm B n x = true)
    ∧ populate A wm (gen + 1) buf1 = Some buf2
    ∧ (∀ x, buf2 !! N.to_nat x = Some (gen + 1) ↔ marked wm A n x = true)
    ∧ callValidator data A B w =
        Some (ok, {| matchesBuffer := buf2; currentGen := gen;
                     seenMatches := seenMatches w; written := written w |}).
Proof.
  intros Hmax wm gen.
  destruct (runCalls_bounded data calls (start n) ltac:(simpl; lia)
              ltac:(simpl; lia) (start_bounded n))
    as (w & Hrun & Hgen & Hb & Hlen).
  simpl in Hgen.
  assert (length (matchesBuffer w) = n) as Hn.
  { rewrite Hlen. apply length_replicate. }
  assert (wrap64 (currentGen w + 2) = gen) as Hw2.
  { unfold wrap64, gen. rewrite Z.mod_small; lia. }
  assert (wrap64 (gen + 1) = gen + 1) as Hw3.
  { unfold wrap64, gen. rewrite Z.mod_small; lia. }
  destruct (validateOptimized_run A B wm (matchesBuffer w) gen)
    as (buf1 & buf2 & H1 & H2 & Hl1 & Hl2 & Hval).
  rewrite Hw3 in H2.
  destruct (callValidator_spec data A B w) as (ok & buf & Hval' & Hcall).
  rewrite Hw2 in Hval', Hcall. fold wm in Hval'. rewrite Hval in Hval'.
  injection Hval' as _ <-.
  unfold bounded in Hb. rewrite Forall_forall in Hb.
  assert (Forall (λ c, c ≠ gen) (matchesBuffer w)) as Hf1.
  { apply Forall_forall. intros c Hc. specialize (Hb c Hc). unfold gen. lia. }
  assert (Forall (λ c, c ≠ gen + 1) buf1) as Hf2.
  { pose proof (populate_cells _ _ _ _ _ H1) as Hc1.
    eapply Forall_impl; [exact Hc1|]. simpl.
    intros c [->|Hin]; [lia|]. specialize (Hb c Hin). unfold gen. lia. }
  exists w, buf1, buf2, ok.
  split_and!; [done|done|lia|done|done|done| |done| |done].
  - intros x. rewrite <- Hn.
    rewrite <- (stamped_populate B wm gen (matchesBuffer w) buf1 Hf1 H1 x).
    unfold stamped. by rewrite bool_decide_eq_true.
  - intros x. rewrite <- Hn, <- Hl1.
    rewrite <- (stamped_populate A wm (gen + 1) buf1 buf2 Hf2 H2 x).
    unfold stamped. by rewrite bool_decide_eq_true.
Qed.

Lemma generation_isolation_witness :
  13 + 2 * Z.of_nat (length [([0; 1]%N, [1; 0]%N)]) < 2 ^ 64
  ∧ ∃ w, runCalls Examples.twoNames [([0; 1]%N, [1; 0]%N)] (start 2) = Some w
         ∧ currentGen w = 12.
Proof.
  assert (13 + 2 * Z.of_nat (length [([0; 1]%N, [1; 0]%N)]) < 2 ^ 64) as Hmax
    by (simpl; lia).
  split; [exact Hmax|].
  destruct (generation_isolation Examples.twoNames 2
              [([0; 1]%N, [1; 0]%N)] [0; 1]%N [1; 0]%N Hmax)
    as (w & _ & _ & _ & _ & Hrun & Hgen & _).
  exists w. split; [exact Hrun|exact Hgen].
Defined.
End WorkerFacts.

(** ** The preprocessing rule *)

Module PreprocessFacts.
Import Preprocess Props.

Lemma GetID_spec d s id d' :
  GetID d s = (id, d') →
  (N.of_nat (length (intToStr d')) <= 2 ^ 32)%N →
  consistent d →
  consistent d' ∧ intToStr d `prefix_of` intToStr d' ∧ GetStr d' id = Some s.
Proof.
  unfold GetID, consistent, GetStr. intros Hget Hlen Hc.
  destruct (strToInt d !! s) as [id0|] eqn:E.
  - injection Hget as <- <-. split_and!; [done|done|by apply Hc].
  - injection Hget as <- <-. simpl in *. rewrite length_app in Hlen.
    simpl in Hlen.
    rewrite N.mod_small by lia. rewrite Nat2N.id. split_and!.
    + intros s' id'. destruct (decide (s' = s)) as [->|Hne].
      * rewrite lookup_insert_eq. intros [= <-].
        rewrite Nat2N.id. by rewrite lookup_app_r, Nat.sub_diag.
      * rewrite lookup_insert_ne by done. intros Hs'.
        apply lookup_app_l_Some. by apply Hc.
    + by apply prefix_app_r.
    + by rewrite lookup_app_r, Nat.sub_diag.
Qed.

Lemma GetID_length d s id d' :
  GetID d s = (id, d') → (length (intToStr d) <= length (intToStr d'))%nat.
Proof.
  unfold GetID. destruct (strToInt d !! s); intros [= <- <-]; [done|].
  simpl. rewrite length_app. lia.
Qed.

Lemma internAll_length d v ids d' :
  internAll d v = (ids, d') → (length (intToStr d) <= length (intToStr d'))%nat.
Proof.
  revert d ids d'. induction v as [|m rest IH]; intros d ids d'; simpl.
  - by intros [= <- <-].
  - destruct (GetID d m) as [mID d1] eqn:E1.
    destruct (internAll d1 rest) as [ids' d2] eqn:E2. intros [= <- <-].
    apply GetID_length in E1. apply IH in E2. lia.
Qed.

Lemma internAll_spec d v ids d' :
  internAll d v = (ids, d') →
  (N.of_nat (length (intToStr d')) <= 2 ^ 32)%N →
  consistent d →
  consistent d' ∧ intToStr d `prefix_of` intToStr d'.
Proof.
  revert d ids d'. induction v as [|m rest IH]; intros d ids d'; simpl.
  - by intros [= <- <-].
  - destruct (GetID d m) as [mID d1] eqn:E1.
    destruct (internAll d1 rest) as [ids' d2] eqn:E2. intros [= <- <-] Hlen Hc.
    pose proof (internAll_length _ _ _ _ E2) as Hl.
    destruct (GetID_spec _ _ _ _ E1 ltac:(lia) Hc) as (Hc1 & Hp1 & _).
    destruct (IH _ _ _ E2 Hlen Hc1) as (Hc2 & Hp2).
    split; [done|by etrans].
Qed.

Lemma GetStr_prefix d d' id s :
  intToStr d `prefix_of` intToStr d' → GetStr d id = Some s →
  GetStr d' id = Some s.
Proof. unfold GetStr. intros Hp Hs. by eapply prefix_lookup_Some. Qed.

Lemma internEntry_spec d w2m tr kv d' w2m' tr' :
  internEntry (d, w2m, tr) kv = (d', w2m', tr') →
  (N.of_nat (length (intToStr d')) <= 2 ^ 32)%N →
  consistent d → ruled d w2m tr →
  consistent d' ∧ ruled d' w2m' tr'.
Proof.
  destruct kv as [k v]. simpl.
  destruct (GetID d k) as [kID d1] eqn:E1.
  destruct (internAll d1 v) as [matchIDs d2] eqn:E2.
  intros [= <- <- <-] Hlen Hc Hr.
  pose proof (internAll_length _ _ _ _ E2) as Hl.
  destruct (GetID_spec _ _ _ _ E1 ltac:(lia) Hc) as (Hc1 & Hp1 & Hk).
  destruct (internAll_spec _ _ _ _ E2 Hlen Hc1) as (Hc2 & Hp2).
  split; [done|]. intros id. destruct (decide (id = kID)) as [->|Hne].
  - rewrite !lookup_insert_eq. exists k. split; [|done].
    by eapply GetStr_prefix.
  - rewrite !lookup_insert_ne by done. specialize (Hr id).
    destruct (w2m !! id); [|done]. destruct Hr as (k' & Hk' & Htr).
    exists k'. split; [|done].
    eapply GetStr_prefix; [|done]. by etrans.
Qed.

Lemma internEntry_length st kv :
  (length (intToStr (internEntry st kv).1.1) >= length (intToStr st.1.1))%nat.
Proof.
  destruct st as [[d w2m] tr], kv as [k v]. simpl.
  destruct (GetID d k) as [kID d1] eqn:E1.
  destruct (internAll d1 v) as [matchIDs d2] eqn:E2. simpl.
  apply GetID_length in E1. apply internAll_length in E2. lia.
Qed.

Lemma foldl_internEntry_length entries st :
  (length (intToStr (foldl internEntry st entries).1.1)
   >= length (intToStr st.1.1))%nat.
Proof.
  revert st. induction entries as [|kv rest IH]; intros st; simpl; [lia|].
  pose proof (IH (internEntry st kv)). pose proof (internEntry_length st kv). lia.
Qed.

Lemma foldl_internEntry_spec entries st :
  (N.of_nat (length (intToStr (foldl internEntry st entries).1.1)) <= 2 ^ 32)%N →
  consistent st.1.1 → ruled st.1.1 st.1.2 st.2 →
  let st' := foldl internEntry st entries in
  consistent st'.1.1 ∧ ruled st'.1.1 st'.1.2 st'.2.
Proof.
  revert st. induction entries as [|kv rest IH]; intros st; simpl; [done|].
  intros Hlen Hc Hr.
  pose proof (foldl_internEntry_length rest (internEntry st kv)) as Hl.
  destruct st as [[d w2m] tr].
  destruct (internEntry (d, w2m, tr) kv) as [[d1 w2m1] tr1] eqn:E.
  destruct (internEntry_spec _ _ _ _ _ _ _ E ltac:(simpl in *; lia) Hc Hr).
  by apply IH.
Qed.

(** The tables built by the preprocessor obey the rule: as long as fewer
    than [2^32] strings were interned, the tradeouts are the match lists,
    except for keys of one byte, which stand for themselves. *)
Lemma preprocessData_tradeouts entries dict w2m tradeouts :
  preprocessData entries = (dict, w2m, tradeouts) →
  (N.of_nat (length (intToStr dict)) <= 2 ^ 32)%N →
  tradeouts = tradeoutsOf (singleByte dict) w2m.
Proof.
  unfold preprocessData. intros Hrun Hlen.
  destruct (foldl_internEntry_spec entries (NewDictionary, ∅, ∅)) as [_ Hr].
  - by rewrite Hrun.
  - intros s id. simpl. by rewrite lookup_empty.
  - intros id. simpl. by rewrite !lookup_empty.
  - rewrite Hrun in Hr. simpl in Hr. apply map_eq. intros id.
    unfold tradeoutsOf. rewrite map_lookup_imap. specialize (Hr id).
    destruct (w2m !! id) as [ms|]; simpl; [|done].
    destruct Hr as (k & Hk & ->). f_equal.
    unfold tradeoutFor, singleByte. rewrite Hk. simpl.
    destruct (decide (String.length k = 1%nat)) as [Hone|Hmany].
    + rewrite decide_False by auto. by rewrite bool_decide_eq_true_2 by congruence.
    + rewrite decide_True by done. by rewrite bool_decide_eq_false_2 by congruence.
Qed.
End PreprocessFacts.

(** ** The pair-key builder *)

Module PairKeysFacts.
Import PairKeys Props StringFacts.

(** *** The options of a position *)

Lemma elem_of_insertSorted x y l : x ∈ insertSorted y l ↔ x = y ∨ x ∈ l.
Proof.
  induction l as [|z l IH]; simpl; [set_solver|].
  destruct (y <=? z)%N; [set_solver|]. rewrite !elem_of_cons, IH. naive_solver.
Qed.

Lemma elem_of_sortIDs x l : x ∈ sortIDs l ↔ x ∈ l.
Proof.
  induction l as [|y l IH]; simpl; [done|].
  rewrite elem_of_insertSorted, IH. set_solver.
Qed.

Lemma elem_of_uniqueAfter x last l :
  (x ∈ uniqueAfter last l → x ∈ l)
  ∧ (x ∈ l → x = last ∨ x ∈ uniqueAfter last l).
Proof.
  revert last. induction l as [|v l IH]; intros last; simpl; [set_solver|].
  destruct (N.eqb_spec v last) as [->|Hne]; simpl.
  - destruct (IH last) as [H1 H2]. split; [set_solver|].
    intros [->|Hin]%elem_of_cons; auto.
  - destruct (IH v) as [H1 H2]. split; [set_solver|].
    intros [->|Hin]%elem_of_cons; [set_solver|].
    destruct (H2 Hin) as [->|]; set_solver.
Qed.

Lemma elem_of_unique x l : x ∈ unique l ↔ x ∈ l.
Proof.
  destruct l as [|v l]; simpl; [done|].
  destruct (elem_of_uniqueAfter x v l) as [H1 H2].
  rewrite !elem_of_cons. naive_solver.
Qed.

Lemma elem_of_optionsFor tr p w : w ∈ optionsFor tr p ↔ choice tr p w.
Proof.
  unfold optionsFor, choice. rewrite elem_of_unique, elem_of_sortIDs.
  destruct (tr !! p) as [ms|]; set_solver.
Qed.

(** *** One pair-key *)

Lemma pairKey_comm dict wI wJ : pairKey dict wI wJ = pairKey dict wJ wI.
Proof.
  unfold pairKey.
  destruct (GetStr dict wI) as [s1|], (GetStr dict wJ) as [s2|]; simpl; try done.
  f_equal. destruct (String.ltb s2 s1) eqn:E21.
  - by rewrite (ltb_asym _ _ E21).
  - destruct (decide (s1 = s2)) as [->|Hne]; [by rewrite E21|].
    by rewrite (ltb_trichotomy s2 s1 E21) by done.
Qed.

Lemma pairKey_form dict wI wJ key :
  pairKey dict wI wJ = Some key ↔
  ∃ sI sJ, GetStr dict wI = Some sI ∧ GetStr dict wJ = Some sJ
    ∧ ∃ a b, ((a, b) = (sI, sJ) ∨ (a, b) = (sJ, sI))
             ∧ String.leb a b = true
             ∧ key = (a +:+ "_" +:+ b)%string.
Proof.
  unfold pairKey. split.
  - destruct (GetStr dict wI) as [s1|], (GetStr dict wJ) as [s2|];
      simpl; try done.
    intros [= <-]. exists s1, s2. split_and!; [done..|].
    destruct (String.ltb s2 s1) eqn:E.
    + exists s2, s1. split_and!; [by right|by apply ltb_leb|done].
    + exists s1, s2. split_and!; [by left|by apply not_ltb_leb|done].
  - intros (sI & sJ & -> & -> & a & b & Hab & Hle & ->). simpl. f_equal.
    destruct Hab as [[= -> ->]|[= -> ->]].
    + destruct (String.ltb sJ sI) eqn:E; [|done].
      apply ltb_leb in E.
      by rewrite (String.leb_antisym _ _ Hle E).
    + destruct (String.ltb sJ sI) eqn:E; [done|].
      apply not_ltb_leb in E.
      by rewrite (String.leb_antisym _ _ Hle E).
Qed.

Lemma product_comm dict oi oj key : product dict oi oj key ↔ product dict oj oi key.
Proof.
  unfold product. split; intros (a & b & Ha & Hb & Hk); exists b, a;
    rewrite pairKey_comm; done.
Qed.

(** *** The keys of one position pair *)

Lemma emitRow_spec dict wI optsJ keys :
  emitRow dict wI optsJ = Some keys →
  ∀ k, k ∈ keys ↔ ∃ wJ, wJ ∈ optsJ ∧ pairKey dict wI wJ = Some k.
Proof.
  revert keys. induction optsJ as [|wJ rest IH]; intros keys; simpl.
  - intros [= <-] k. set_solver.
  - destruct (pairKey dict wI wJ) as [key|] eqn:E; [|done]. simpl.
    destruct (emitRow dict wI rest) as [ks|]; [|done]. simpl.
    intros [= <-] k. rewrite elem_of_cons, (IH ks eq_refl k). split.
    + intros [->|(w & Hw & Hk)]; [exists wJ|exists w]; set_solver.
    + intros (w & [->|Hw]%elem_of_cons & Hk); [left; congruence|right; eauto].
Qed.

Lemma emitProduct_spec dict optsI optsJ keys :
  emitProduct dict optsI optsJ = Some keys →
  ∀ k, k ∈ keys ↔ product dict optsI optsJ k.
Proof.
  unfold product.
  revert keys. induction optsI as [|wI rest IH]; intros keys; simpl.
  - intros [= <-] k. set_solver.
  - destruct (emitRow dict wI optsJ) as [row|] eqn:E; [|done]. simpl.
    destruct (emitProduct dict rest optsJ) as [rows|]; [|done]. simpl.
    intros [= <-] k.
    rewrite elem_of_app, (emitRow_spec _ _ _ _ E k), (IH rows eq_refl k). split.
    + intros [(w & Hw & Hk)|(a & b & Ha & Hb & Hk)];
        [exists wI, w|exists a, b]; set_solver.
    + intros (a & b & [->|Ha]%elem_of_cons & Hb & Hk);
        [left; eauto|right; eauto].
Qed.

Lemma emitRow_total dict wI optsJ :
  is_Some (GetStr dict wI) → (∀ wJ, wJ ∈ optsJ → is_Some (GetStr dict wJ)) →
  is_Some (emitRow dict wI optsJ).
Proof.
  intros [sI HI]. induction optsJ as [|wJ rest IH]; intros HJ; simpl; [done|].
  destruct (HJ wJ) as [sJ HsJ]; [set_solver|].
  unfold pairKey at 1. rewrite HI, HsJ. simpl.
  destruct IH as [ks ->]; [set_solver|]. done.
Qed.

Lemma emitProduct_total dict optsI optsJ :
  (∀ wI, wI ∈ optsI → is_Some (GetStr dict wI)) →
  (∀ wJ, wJ ∈ optsJ → is_Some (GetStr dict wJ)) →
  is_Some (emitProduct dict optsI optsJ).
Proof.
  intros HI HJ. induction optsI as [|wI rest IH]; simpl; [done|].
  destruct (emitRow_total dict wI optsJ) as [row ->]; [set_solver|done|].
  simpl. destruct IH as [rows ->]; [set_solver|]. done.
Qed.

(** *** The position-pair key determines the two option lists *)

Lemma string_of_uint_digits c d :
  c = ","%char ∨ c = "|"%char →
  occurs c (NilEmpty.string_of_uint d) = false.
Proof.
  intros Hc. induction d; simpl; [done|..];
    (rewrite decide_False; [done|destruct Hc as [-> | ->]; discriminate]).
Qed.

Lemma decimal_digits c id :
  c = ","%char ∨ c = "|"%char → occurs c (decimal id) = false.
Proof. apply string_of_uint_digits. Qed.

Lemma decimal_nonempty id : ∃ a rest, decimal id = String a rest.
Proof.
  unfold decimal. destruct id as [|p]; simpl; [by eexists _, _|].
  pose proof (DecimalPos.Unsigned.to_uint_nonnil p) as Hnil.
  destruct (Pos.to_uint p); simpl; [done|by eexists _, _..].
Qed.

Lemma decimal_inj : Inj (=) (=) decimal.
Proof.
  intros a b Heq. unfold decimal in Heq.
  apply DecimalN.Unsigned.to_uint_inj.
  pose proof (NilEmpty.usu (N.to_uint a)) as Ha.
  rewrite Heq, NilEmpty.usu in Ha. congruence.
Qed.

Lemma writeIDs_cons_0 id rest :
  writeIDs 0 (id :: rest) = (decimal id +:+ writeIDs 1 rest)%string.
Proof. reflexivity. Qed.

Lemma writeIDs_cons_S k id rest :
  writeIDs (S k) (id :: rest) =
    String "," (decimal id +:+ writeIDs (S (S k)) rest).
Proof. reflexivity. Qed.

Lemma writeIDs_S k ids : writeIDs (S k) ids = writeIDs 1 ids.
Proof.
  revert k. induction ids as [|id rest IH]; intros k; [done|].
  rewrite !writeIDs_cons_S. by rewrite (IH (S k)), (IH 1%nat).
Qed.

Lemma writeIDs_1_startsWith ids : startsWith "," (writeIDs 1 ids).
Proof.
  destruct ids as [|id rest]; [by left|right].
  rewrite writeIDs_cons_S. by eexists.
Qed.

Lemma writeIDs_no_bar k ids : occurs "|" (writeIDs k ids) = false.
Proof.
  revert k. induction ids as [|id rest IH]; intros k; [done|].
  destruct k as [|k].
  - rewrite writeIDs_cons_0, occurs_app, IH, decimal_digits by auto. done.
  - rewrite writeIDs_cons_S. simpl.
    rewrite occurs_app, IH, decimal_digits by auto. done.
Qed.

Lemma writeIDs_1_inj : Inj (=) (=) (writeIDs 1).
Proof.
  intros l. induction l as [|a l IH]; intros [|b l'] Heq; try done.
  rewrite !writeIDs_cons_S in Heq.
  rewrite (writeIDs_S 1 l), (writeIDs_S 1 l') in Heq. injection Heq as Heq.
  destruct (app_sep_inj "," (decimal a) (decimal b)
              (writeIDs 1 l) (writeIDs 1 l')) as [Hd Hl];
    [by apply decimal_digits; left|by apply decimal_digits; left
     |apply writeIDs_1_startsWith|apply writeIDs_1_startsWith|done|].
  apply decimal_inj in Hd as ->. by rewrite (IH l' Hl).
Qed.

Lemma writeIDs_0_inj : Inj (=) (=) (writeIDs 0).
Proof.
  intros [|a l] [|b l'] Heq; [done| | |].
  - rewrite writeIDs_cons_0 in Heq.
    destruct (decimal_nonempty b) as (c & r & Hb). rewrite Hb in Heq. done.
  - rewrite writeIDs_cons_0 in Heq.
    destruct (decimal_nonempty a) as (c & r & Ha). rewrite Ha in Heq. done.
  - rewrite !writeIDs_cons_0 in Heq.
    destruct (app_sep_inj "," (decimal a) (decimal b)
                (writeIDs 1 l) (writeIDs 1 l')) as [Hd Hl];
      [by apply decimal_digits; left|by apply decimal_digits; left
     |apply writeIDs_1_startsWith|apply writeIDs_1_startsWith|done|].
    apply decimal_inj in Hd as ->. by rewrite (writeIDs_1_inj _ _ Hl).
Qed.

Lemma bar_inj s1 s2 t1 t2 :
  occurs "|" s1 = false → occurs "|" t1 = false →
  (s1 +:+ "|" +:+ s2 = t1 +:+ "|" +:+ t2)%string → s1 = t1 ∧ s2 = t2.
Proof.
  intros Hs Ht Heq.
  destruct (app_sep_inj "|" s1 t1 ("|" +:+ s2) ("|" +:+ t2))
    as [-> Hr]; [done|done|right; by eexists|right; by eexists|done|].
  injection Hr as Hr. by change (s2 = t2) in Hr.
Qed.

Lemma dedupKey_inj oi oj oi' oj' :
  dedupKey oi oj = dedupKey oi' oj' →
  (oi, oj) = (oi', oj') ∨ (oi, oj) = (oj', oi').
Proof.
  unfold dedupKey.
  destruct (String.ltb (writeIDs 0 oj) (writeIDs 0 oi)),
    (String.ltb (writeIDs 0 oj') (writeIDs 0 oi'));
    intros [H1 H2]%bar_inj; try apply writeIDs_no_bar;
    apply writeIDs_0_inj in H1 as ->; apply writeIDs_0_inj in H2 as ->; auto.
Qed.

(** *** The two loops *)

Lemma covers_skip dict visited st oi oj :
  covers dict visited st → dedupKey oi oj ∈ st.1 →
  covers dict (visited ++ [(oi, oj)]) st.
Proof.
  intros [Hseen Hres] Hin. split.
  - intros key Hkey. destruct (Hseen key Hkey) as (a & b & Hab & ->).
    exists a, b. split; [|done]. apply elem_of_app. by left.
  - intros k. rewrite Hres. split.
    + intros (a & b & Hab & Hk). exists a, b. split; [|done].
      apply elem_of_app. by left.
    + intros (a & b & [Hab|Hab%list_elem_of_singleton]%elem_of_app & Hk);
        [by exists a, b|].
      injection Hab as -> ->.
      destruct (Hseen _ Hin) as (a & b & Hab & Heq).
      exists a, b. split; [done|].
      destruct (dedupKey_inj _ _ _ _ Heq) as [[= -> ->]|[= -> ->]];
        [done|by apply product_comm].
Qed.

Lemma covers_emit dict visited st oi oj keys :
  covers dict visited st → emitProduct dict oi oj = Some keys →
  covers dict (visited ++ [(oi, oj)])
    ({[dedupKey oi oj]} ∪ st.1, st.2 ++ keys).
Proof.
  intros [Hseen Hres] Hemit. split; simpl.
  - intros key [->%elem_of_singleton|Hkey]%elem_of_union.
    + exists oi, oj. split; [|done]. apply elem_of_app. right. by left.
    + destruct (Hseen key Hkey) as (a & b & Hab & ->).
      exists a, b. split; [|done]. apply elem_of_app. by left.
  - intros k. rewrite elem_of_app, Hres, (emitProduct_spec _ _ _ _ Hemit k).
    split.
    + intros [(a & b & Hab & Hk)|Hk]; [exists a, b|exists oi, oj];
        (split; [|done]); apply elem_of_app; [by left|right; by left].
    + intros (a & b & [Hab|Hab%list_elem_of_singleton]%elem_of_app & Hk).
      * left. by exists a, b.
      * right. by injection Hab as -> ->.
Qed.

Lemma innerLoop_covers dict optsI later visited st st' :
  innerLoop dict optsI later st = Some st' → covers dict visited st →
  covers dict (visited ++ map (pair optsI) later) st'.
Proof.
  revert visited st. induction later as [|optsJ rest IH]; intros visited st; simpl.
  - intros [= <-]. by rewrite app_nil_r.
  - replace (visited ++ (optsI, optsJ) :: map (pair optsI) rest)
      with ((visited ++ [(optsI, optsJ)]) ++ map (pair optsI) rest)
      by (by rewrite <- app_assoc).
    case_decide as Hin; simpl.
    + intros Hrest Hc. eapply IH; [done|]. by apply covers_skip.
    + destruct (emitProduct dict optsI optsJ) as [keys|] eqn:E; [|done]. simpl.
      intros Hrest Hc. eapply IH; [done|]. by apply covers_emit.
Qed.

Lemma outerLoop_covers dict opts visited st st' :
  outerLoop dict opts st = Some st' → covers dict visited st →
  covers dict (visited ++ allPairs opts) st'.
Proof.
  revert visited st. induction opts as [|optsI later IH]; intros visited st; simpl.
  - intros [= <-]. by rewrite app_nil_r.
  - destruct (innerLoop dict optsI later st) as [st1|] eqn:E; [|done]. simpl.
    intros Hrest Hc. rewrite app_assoc. eapply IH; [done|].
    by eapply innerLoop_covers.
Qed.

Lemma innerLoop_total dict optsI later st :
  (∀ w, w ∈ optsI → is_Some (GetStr dict w)) →
  (∀ optsJ w, optsJ ∈ later → w ∈ optsJ → is_Some (GetStr dict w)) →
  is_Some (innerLoop dict optsI later st).
Proof.
  intros HI. revert st. induction later as [|optsJ rest IH]; intros st HJ; simpl.
  - done.
  - case_decide; simpl; [apply IH; set_solver|].
    destruct (emitProduct_total dict optsI optsJ) as [keys ->];
      [done|set_solver|].
    simpl. apply IH. set_solver.
Qed.

Lemma outerLoop_total dict opts st :
  (∀ optsI w, optsI ∈ opts → w ∈ optsI → is_Some (GetStr dict w)) →
  is_Some (outerLoop dict opts st).
Proof.
  revert st. induction opts as [|optsI later IH]; intros st Hall; simpl.
  - done.
  - destruct (innerLoop_total dict optsI later st) as [st1 ->];
      [set_solver|set_solver|].
    simpl. apply IH. set_solver.
Qed.

Lemma allPairs_map {X Y} (f : X → Y) (l : list X) :
  allPairs (map f l) = map (prod_map f f) (allPairs l).
Proof.
  induction l as [|x l IH]; simpl; [done|].
  rewrite map_app, !map_map, IH. done.
Qed.

Lemma elem_of_allPairs {X} (l : list X) x y :
  (x, y) ∈ allPairs l ↔
  ∃ i j, (i < j)%nat ∧ l !! i = Some x ∧ l !! j = Some y.
Proof.
  induction l as [|z l IH]; simpl.
  - split; [by intros ?%not_elem_of_nil|]. by intros (i & j & _ & ? & _).
  - rewrite elem_of_app, IH, list_elem_of_fmap. split.
    + intros [(y' & [= -> ->] & Hy)|(i & j & Hij & Hi & Hj)].
      * apply list_elem_of_lookup in Hy as [j Hj].
        exists 0%nat, (S j). split_and!; [lia|done|done].
      * exists (S i), (S j). split_and!; [lia|done|done].
    + intros (i & j & Hij & Hi & Hj). destruct j as [|j]; [lia|].
      destruct i as [|i]; simpl in Hi, Hj.
      * left. injection Hi as ->. exists y. split; [done|].
        by eapply list_elem_of_lookup_2.
      * right. exists i, j. split_and!; [lia|done|done].
Qed.

(** The keys returned are those of the products of all position pairs. *)
Lemma buildExpandedPairMappings_spec parts tr dict keys :
  buildExpandedPairMappings parts tr dict = Some keys →
  ∀ k, k ∈ keys ↔
    ∃ i j pI pJ wI wJ,
      (i < j)%nat ∧ parts !! i = Some pI ∧ parts !! j = Some pJ
      ∧ choice tr pI wI ∧ choice tr pJ wJ
      ∧ pairKey dict wI wJ = Some k.
Proof.
  unfold buildExpandedPairMappings.
  destruct (outerLoop dict (positionOptions parts tr) (∅, [])) as [st|] eqn:E;
    [|done].
  simpl. intros [= <-] k.
  assert (covers dict [] (∅, [])) as Hinit.
  { split; simpl; [set_solver|]. intros k'. split; [by intros ?%not_elem_of_nil|].
    by intros (a & b & ?%not_elem_of_nil & _). }
  destruct (outerLoop_covers _ _ _ _ _ E Hinit) as [_ Hres].
  rewrite Hres. simpl. unfold positionOptions. rewrite allPairs_map. split.
  - intros (oi & oj & ([pI pJ] & [= -> ->] & Hp)%list_elem_of_fmap
            & wI & wJ & HI & HJ & Hk).
    apply elem_of_allPairs in Hp as (i & j & Hij & Hi & Hj).
    exists i, j, pI, pJ, wI, wJ.
    by rewrite <- !elem_of_optionsFor.
  - intros (i & j & pI & pJ & wI & wJ & Hij & Hi & Hj & HI & HJ & Hk).
    exists (optionsFor tr pI), (optionsFor tr pJ). split.
    + apply list_elem_of_fmap. exists (pI, pJ). split; [done|].
      apply elem_of_allPairs. by exists i, j.
    + exists wI, wJ. by rewrite !elem_of_optionsFor.
Qed.

Lemma buildExpandedPairMappings_total parts tr dict :
  interned dict tr parts →
  is_Some (buildExpandedPairMappings parts tr dict).
Proof.
  intros Hint. unfold buildExpandedPairMappings.
  destruct (outerLoop_total dict (positionOptions parts tr) (∅, []))
    as [st ->]; [|done].
  intros optsI w (p & -> & Hp)%list_elem_of_fmap Hw%elem_of_optionsFor.
  by apply (Hint p w).
Qed.

Lemma emitAll_snoc dict expanded optsI optsJ results keys :
  emitAll dict expanded = Some results →
  emitProduct dict optsI optsJ = Some keys →
  emitAll dict (expanded ++ [(optsI, optsJ)]) = Some (results ++ keys).
Proof.
  revert results. induction expanded as [|[oi oj] rest IH]; intros results; simpl.
  - intros [= <-] ->. simpl. by rewrite app_nil_r.
  - destruct (emitProduct dict oi oj) as [ks|]; [|done]. simpl.
    destruct (emitAll dict rest) as [more|]; [|done]. simpl.
    intros [= <-] Hk. rewrite (IH more eq_refl Hk). simpl.
    by rewrite app_assoc.
Qed.

Lemma innerLoop_expandedOnce dict optsI later visited expanded st st' :
  innerLoop dict optsI later st = Some st' →
  expandedOnce dict visited expanded st →
  ∃ expanded',
    expandedOnce dict (visited ++ map (pair optsI) later) expanded' st'.
Proof.
  revert visited expanded st.
  induction later as [|optsJ rest IH]; intros visited expanded st; simpl.
  - intros [= <-] He. exists expanded. by rewrite app_nil_r.
  - replace (visited ++ (optsI, optsJ) :: map (pair optsI) rest)
      with ((visited ++ [(optsI, optsJ)]) ++ map (pair optsI) rest)
      by (by rewrite <- app_assoc).
    intros Hrun (Hsub & Hnd & Hseen & Hall).
    case_decide as Hin; simpl in Hrun.
    + eapply (IH _ expanded); [exact Hrun|].
      split_and!; [|done..]. by apply sublist_inserts_r.
    + destruct (emitProduct dict optsI optsJ) as [keys|] eqn:E; [|done].
      simpl in Hrun. eapply (IH _ (expanded ++ [(optsI, optsJ)])); [exact Hrun|].
      split_and!; simpl.
      * by apply sublist_app.
      * rewrite fmap_app. apply NoDup_app. split_and!; [done| |apply NoDup_singleton].
        intros key Hkey ->%list_elem_of_singleton. simpl in Hin.
        by apply Hin, Hseen.
      * intros key. rewrite fmap_app, elem_of_app, elem_of_union, Hseen.
        simpl. rewrite elem_of_singleton, list_elem_of_singleton. tauto.
      * by apply emitAll_snoc.
Qed.

Lemma outerLoop_expandedOnce dict opts visited expanded st st' :
  outerLoop dict opts st = Some st' →
  expandedOnce dict visited expanded st →
  ∃ expanded', expandedOnce dict (visited ++ allPairs opts) expanded' st'.
Proof.
  revert visited expanded st.
  induction opts as [|optsI later IH]; intros visited expanded st; simpl.
  - intros [= <-] He. exists expanded. by rewrite app_nil_r.
  - destruct (innerLoop dict optsI later st) as [st1|] eqn:E; [|done]. simpl.
    intros Hrest He.
    destruct (innerLoop_expandedOnce _ _ _ _ _ _ _ E He) as (e1 & He1).
    rewrite app_assoc. by eapply IH.
Qed.

(** The keys returned are those of position pairs with pairwise different
    position-pair keys, each expanded once, in the order of the loops. *)
Lemma buildExpandedPairMappings_expanded parts tr dict keys :
  buildExpandedPairMappings parts tr dict = Some keys →
  ∃ expanded,
    expanded `sublist_of` allPairs (positionOptions parts tr)
    ∧ NoDup (uncurry dedupKey <$> expanded)
    ∧ emitAll dict expanded = Some keys.
Proof.
  unfold buildExpandedPairMappings.
  destruct (outerLoop dict (positionOptions parts tr) (∅, [])) as [st|] eqn:E;
    [|done].
  simpl. intros [= <-].
  destruct (outerLoop_expandedOnce dict _ [] [] (∅, []) st E) as (ex & He).
  - split_and!; simpl; [done|constructor|set_solver|done].
  - destruct He as (Hsub & Hnd & _ & Hall). by exists ex.
Qed.

(** C4, as the claim states it: for a name of two interchangeable tokens
    the key of the two tokens is returned twice. *)
Lemma pair_key_repeated_counterexample :
  ∃ keys,
    buildExpandedPairMappings [0; 1]%N Examples.billTradeouts
      Examples.billDict = Some keys
    ∧ keys = ["bill_bill"; "bill_william"; "bill_william";
              "william_william"]%string
    ∧ ¬ NoDup keys.
Proof.
  eexists. split_and!; [vm_compute; reflexivity|reflexivity|].
  intros Hnd. apply NoDup_cons in Hnd as [_ Hnd].
  apply NoDup_cons in Hnd as [Hnin _]. apply Hnin. left.
Qed.

(** C4, amended. When every id the vector can reach is interned, the
    builder returns a sequence whose elements are exactly the strings
    [str(wI) + "_" + str(wJ)], the two token strings in lexicographic
    order of their string values, for [wI] an option of a position [i] and
    [wJ] an option of a later position [j].  The sequence is deduplicated
    by position pair only: it is the concatenation of the products of
    position pairs with pairwise different position-pair keys, so a key
    may be returned more than once. *)
Theorem buildExpandedPairMappings_keys (parts : list N)
    (tr : gmap N (list N)) (dict : Dictionary) :
  interned dict tr parts →
  ∃ keys,
    buildExpandedPairMappings parts tr dict = Some keys
    ∧ (∀ key, key ∈ keys ↔
        ∃ i j pI pJ wI wJ sI sJ a b,
          (i < j)%nat ∧ parts !! i = Some pI ∧ parts !! j = Some pJ
          ∧ choice tr pI wI ∧ choice tr pJ wJ
          ∧ GetStr dict wI = Some sI ∧ GetStr dict wJ = Some sJ
          ∧ ((a, b) = (sI, sJ) ∨ (a, b) = (sJ, sI))
          ∧ String.leb a b = true
          ∧ key = (a +:+ "_" +:+ b)%string)
    ∧ ∃ expanded,
        expanded `sublist_of` allPairs (positionOptions parts tr)
        ∧ NoDup (uncurry dedupKey <$> expanded)
        ∧ emitAll dict expanded = Some keys.
Proof.
  intros Hint.
  destruct (buildExpandedPairMappings_total parts tr dict Hint) as [keys Hk].
  exists keys. split; [done|].
  split; [|by apply buildExpandedPairMappings_expanded]. intros key.
  rewrite (buildExpandedPairMappings_spec _ _ _ _ Hk key). split.
  - intros (i & j & pI & pJ & wI & wJ & Hij & Hi & Hj & HI & HJ & Hkey).
    apply pairKey_form in Hkey as (sI & sJ & HsI & HsJ & a & b & Hab & Hle & ->).
    by exists i, j, pI, pJ, wI, wJ, sI, sJ, a, b.
  - intros (i & j & pI & pJ & wI & wJ & sI & sJ & a & b
            & Hij & Hi & Hj & HI & HJ & HsI & HsJ & Hab & Hle & ->).
    exists i, j, pI, pJ, wI, wJ. split_and!; try done.
    apply pairKey_form. by exists sI, sJ; split_and!; [..|exists a, b].
Qed.

Lemma buildExpandedPairMappings_keys_witness :
  interned Examples.billDict Examples.billTradeouts [0; 1]%N
  ∧ ∃ keys,
      buildExpandedPairMappings [0; 1]%N Examples.billTradeouts
        Examples.billDict = Some keys.
Proof.
  assert (interned Examples.billDict Examples.billTradeouts [0; 1]%N) as Hint.
  { intros p w Hp Hw.
    assert (w = 0%N ∨ w = 1%N) as [-> | ->]; [|by eexists..].
    assert (p = 0%N ∨ p = 1%N) as Hp' by set_solver.
    destruct Hw as [->|(ms & Hms & Hw)]; [done|].
    destruct Hp' as [-> | ->]; vm_compute in Hms; injection Hms as <-;
      set_solver. }
  split; [exact Hint|].
  destruct (buildExpandedPairMappings_keys [0; 1]%N Examples.billTradeouts
              Examples.billDict Hint) as (keys & Hkeys & _).
  by exists keys.
Defined.

(** *** Enlarging the table *)




End PairKeysFacts.

(** ** The output of a worker *)

Module OutputFacts.
Import Validator PairKeys Worker Props.
Import StringFacts ValidatorFacts WorkerFacts PairKeysFacts.

Lemma report_tracks n1 n2 w0 w ms :
  tracks w0 w ms →
  ∃ ms', tracks w0 (report n1 n2 w) ms'
         ∧ ∀ m, m ∈ ms' ↔ m ∈ ms ∨ m = formatMatch n1 n2.
Proof.
  intros [Hw Hseen]. unfold report. case_decide as Hin.
  - exists ms. split; [done|]. intros m. split; [auto|].
    intros [Hm| ->]; [done|]. by apply Hseen.
  - exists (ms ++ [formatMatch n1 n2]). split.
    + split; simpl.
      * rewrite Hw, map_app, <- app_assoc. done.
      * intros m. rewrite elem_of_union, elem_of_singleton, elem_of_app,
          list_elem_of_singleton, Hseen. tauto.
    + intros m. by rewrite elem_of_app, list_elem_of_singleton.
Qed.

Lemma visitOther_tracks data n name other w0 w w' ms :
  visitOther data name other w = Some w' →
  steady n w →
  currentGen w + 2 * Z.of_nat (callsForOthers name [other]) + 1 < 2 ^ 64 →
  tracks w0 w ms →
  currentGen w' = currentGen w + 2 * Z.of_nat (callsForOthers name [other])
  ∧ steady n w'
  ∧ ∃ ms', tracks w0 w' ms'
           ∧ ∀ m, m ∈ ms' ↔ m ∈ ms ∨ passingAmong data n name [other] m.
Proof.
  unfold visitOther, callsForOthers, passingAmong. rewrite filter_cons.
  intros Hrun (Hgen & Hb & Hn) Hmax Ht.
  destruct (decide (other = name)) as [->|Hne].
  - rewrite decide_False in Hmax |- * by auto. simpl in *.
    injection Hrun as <-. split_and!; [lia|done..|].
    exists ms. split; [done|]. intros m. split; [auto|].
    intros [Hm|(o & ->%list_elem_of_singleton & Ho & _)]; done.
  - rewrite decide_True in Hmax |- * by done. simpl in Hmax |- *.
    destruct (ordered name other) as [n1 n2] eqn:Hord.
    destruct (callValidator_bounded data (default [] (NameWords data !! n1))
                (default [] (NameWords data !! n2)) w Hgen ltac:(lia) Hb)
      as (w1 & Hcall & Hgen1 & Hb1 & Hlen1 & Hseen1 & Hw1).
    rewrite Hcall in Hrun. simpl in Hrun. injection Hrun as <-.
    assert (tracks w0 w1 ms) as Ht1.
    { destruct Ht as [Hw Hs]. split; [by rewrite Hw1|].
      intros m. by rewrite Hseen1. }
    assert (passes data n name other =
              thresholds (Z.of_nat (length (default [] (NameWords data !! n1))))
                (Z.of_nat (length (default [] (NameWords data !! n2))))
                (mismatch (WordToMatches data) n
                   (default [] (NameWords data !! n1))
                   (default [] (NameWords data !! n2)))
                (mismatch (WordToMatches data) n
                   (default [] (NameWords data !! n2))
                   (default [] (NameWords data !! n1)))) as Hpass.
    { unfold passes. by rewrite Hord. }
    rewrite Hn, <- Hpass.
    assert (matchOf name other = formatMatch n1 n2) as Hm.
    { unfold matchOf. by rewrite Hord. }
    destruct (passes data n name other) eqn:Hp.
    + destruct (report_tracks n1 n2 w0 w1 ms Ht1) as (ms' & Ht' & Hms').
      split_and!.
      * unfold report. case_decide; simpl; lia.
      * unfold steady, bounded, report. case_decide; simpl;
          (split_and!; [lia|done|congruence]).
      * exists ms'. split; [done|]. intros m. rewrite Hms'. split.
        -- intros [?| ->]; [by left|right]. exists other.
           split_and!; [by left|done|done|done].
        -- intros [?|(o & ->%list_elem_of_singleton & _ & _ & ->)];
             [by left|right; done].
    + split_and!; [lia|split_and!; [lia|done|congruence]|].
      exists ms. split; [done|]. intros m. split; [auto|].
      intros [?|(o & ->%list_elem_of_singleton & _ & Hp' & _)]; [done|].
      congruence.
Qed.

Lemma callsForOthers_cons name other rest :
  callsForOthers name (other :: rest) =
    (callsForOthers name [other] + callsForOthers name rest)%nat.
Proof.
  unfold callsForOthers. rewrite !filter_cons.
  destruct (decide (other ≠ name)); simpl; lia.
Qed.

Lemma passingAmong_cons data n name other rest m :
  passingAmong data n name (other :: rest) m
  ↔ passingAmong data n name [other] m ∨ passingAmong data n name rest m.
Proof.
  unfold passingAmong. split.
  - intros (o & [Ho|Ho]%elem_of_cons & H); [left|right]; exists o;
      (split; [set_solver|done]).
  - intros [(o & Ho%list_elem_of_singleton & H)|(o & Ho & H)]; exists o;
      (split; [set_solver|done]).
Qed.

Lemma visitOthers_tracks data n name others w0 w w' ms :
  visitOthers data name others w = Some w' →
  steady n w →
  currentGen w + 2 * Z.of_nat (callsForOthers name others) + 1 < 2 ^ 64 →
  tracks w0 w ms →
  currentGen w' = currentGen w + 2 * Z.of_nat (callsForOthers name others)
  ∧ steady n w'
  ∧ ∃ ms', tracks w0 w' ms'
           ∧ ∀ m, m ∈ ms' ↔ m ∈ ms ∨ passingAmong data n name others m.
Proof.
  revert w ms. induction others as [|other rest IH]; intros w ms; simpl.
  - intros [= <-] Hs _ Ht. unfold callsForOthers. simpl.
    split_and!; [lia|done|]. exists ms. split; [done|]. intros m.
    split; [auto|]. intros [?|(o & ?%not_elem_of_nil & _)]; done.
  - destruct (visitOther data name other w) as [w1|] eqn:E; [|done]. simpl.
    rewrite callsForOthers_cons. intros Hrest Hs Hmax Ht.
    destruct (visitOther_tracks data n name other w0 w w1 ms E Hs
                ltac:(lia) Ht) as (Hgen1 & Hs1 & ms1 & Ht1 & Hms1).
    destruct (IH w1 ms1 Hrest Hs1 ltac:(lia) Ht1)
      as (Hgen' & Hs' & ms' & Ht' & Hms').
    split_and!; [lia|done|]. exists ms'. split; [done|]. intros m.
    rewrite Hms', Hms1, (passingAmong_cons data n name other rest m). tauto.
Qed.

(** [m] is the match string of a passing candidate found under one of
    [pairs]. *)
Lemma visitPairs_tracks data n name pairs w0 w w' ms :
  visitPairs data name pairs w = Some w' →
  steady n w →
  currentGen w + 2 * Z.of_nat (callsForPairs data name pairs) + 1 < 2 ^ 64 →
  tracks w0 w ms →
  currentGen w' = currentGen w + 2 * Z.of_nat (callsForPairs data name pairs)
  ∧ steady n w'
  ∧ ∃ ms', tracks w0 w' ms'
           ∧ ∀ m, m ∈ ms' ↔
               m ∈ ms ∨ ∃ key others, key ∈ pairs
                          ∧ PairToNames data !! key = Some others
                          ∧ passingAmong data n name others m.
Proof.
  revert w ms. induction pairs as [|pairStr rest IH]; intros w ms; simpl.
  - intros [= <-] Hs _ Ht. split_and!; [lia|done|].
    exists ms. split; [done|]. intros m. split; [auto|].
    intros [?|(k & o & ?%not_elem_of_nil & _)]; done.
  - destruct (PairToNames data !! pairStr) as [others|] eqn:Hp; simpl.
    + destruct (visitOthers data name others w) as [w1|] eqn:E; [|done]. simpl.
      intros Hrest Hs Hmax Ht.
      destruct (visitOthers_tracks data n name others w0 w w1 ms E Hs
                  ltac:(lia) Ht) as (Hgen1 & Hs1 & ms1 & Ht1 & Hms1).
      destruct (IH w1 ms1 Hrest Hs1 ltac:(lia) Ht1)
        as (Hgen' & Hs' & ms' & Ht' & Hms').
      split_and!; [lia|done|]. exists ms'. split; [done|]. intros m.
      rewrite Hms', Hms1. split.
      * intros [[?|?]|(k & o & Hk & Hko & Hpass)]; [by left| |].
        -- right. exists pairStr, others. split_and!; [by left|done|done].
        -- right. exists k, o. split_and!; [by right|done|done].
      * intros [?|(k & o & [->|Hk]%elem_of_cons & Hko & Hpass)].
        -- by left; left.
        -- left; right. congruence.
        -- right. by exists k, o.
    + intros Hrest Hs Hmax Ht.
      destruct (IH w ms Hrest Hs ltac:(lia) Ht)
        as (Hgen' & Hs' & ms' & Ht' & Hms').
      split_and!; [lia|done|]. exists ms'. split; [done|]. intros m.
      rewrite Hms'. split.
      * intros [?|(k & o & Hk & Hko & Hpass)]; [by left|right].
        exists k, o. split_and!; [by right|done|done].
      * intros [?|(k & o & [->|Hk]%elem_of_cons & Hko & Hpass)];
          [by left|congruence|right; by exists k, o].
Qed.

Lemma processName_lines data n name w w' :
  processName data name w = Some w' →
  steady n w →
  currentGen w + 2 * Z.of_nat (callsForName data name) + 1 < 2 ^ 64 →
  currentGen w' = currentGen w + 2 * Z.of_nat (callsForName data name)
  ∧ steady n w'
  ∧ ∀ line, line ∈ written w' ↔ line ∈ written w ∨ nameLine data n name line.
Proof.
  unfold processName, callsForName, nameLine.
  destruct (Z.ltb_spec (Z.of_nat (length (default [] (NameWords data !! name)))) 2)
    as [Hshort|Hlong].
  - intros [= <-] Hs _. split_and!; [lia|done|]. intros line.
    split; [auto|]. intros [?|[? _]]; [done|lia].
  - destruct (buildExpandedPairMappings _ _ _) as [pairs|] eqn:Hb; [|done].
    simpl. intros Hrun Hs Hmax.
    destruct (visitPairs_tracks data n name pairs (clearSeen w) (clearSeen w)
                w' [] Hrun Hs Hmax) as (Hgen' & Hs' & ms' & [Hw' _] & Hms').
    { split; simpl; [by rewrite app_nil_r|]. intros m. set_solver. }
    split_and!; [done|done|]. intros line. rewrite Hw'. simpl.
    rewrite elem_of_app, list_elem_of_fmap. split.
    + intros [?|(m & -> & Hm)]; [by left|right]. split; [lia|].
      apply Hms' in Hm as [?%not_elem_of_nil|(k & o & Hk & Hko & Hpass)];
        [done|].
      exists k, o, m. split_and!; [|done..].
      by apply (buildExpandedPairMappings_spec _ _ _ _ Hb k).
    + intros [?|(_ & k & o & m & Hk & Hko & Hpass & ->)]; [by left|right].
      exists m. split; [done|]. apply Hms'. right. exists k, o.
      split_and!; [|done..].
      by apply (buildExpandedPairMappings_spec _ _ _ _ Hb k).
Qed.

Lemma processJobs_lines data n jobs w w' :
  processJobs data jobs w = Some w' →
  steady n w →
  currentGen w + 2 * Z.of_nat (callsForJobs data jobs) + 1 < 2 ^ 64 →
  currentGen w' = currentGen w + 2 * Z.of_nat (callsForJobs data jobs)
  ∧ steady n w'
  ∧ ∀ line, line ∈ written w' ↔
      line ∈ written w ∨ ∃ name, name ∈ jobs ∧ nameLine data n name line.
Proof.
  revert w. induction jobs as [|name rest IH]; intros w; simpl.
  - intros [= <-] Hs _. split_and!; [lia|done|]. intros line.
    split; [auto|]. intros [?|(? & ?%not_elem_of_nil & _)]; done.
  - destruct (processName data name w) as [w1|] eqn:E; [|done]. simpl.
    intros Hrest Hs Hmax.
    destruct (processName_lines data n name w w1 E Hs ltac:(lia))
      as (Hgen1 & Hs1 & Hl1).
    destruct (IH w1 Hrest Hs1 ltac:(lia)) as (Hgen' & Hs' & Hl').
    split_and!; [lia|done|]. intros line. rewrite Hl', Hl1. split.
    + intros [[?|?]|(nm & Hnm & Hline)]; [by left| |].
      * right. exists name. split; [by left|done].
      * right. exists nm. split; [by right|done].
    + intros [?|(nm & [->|Hnm]%elem_of_cons & Hline)];
        [by left; left|by left; right|right; by exists nm].
Qed.

Lemma start_steady n : steady n (start n).
Proof.
  split_and!; [simpl; lia|apply start_bounded|apply length_replicate].
Qed.

(** Below the wrap of the counter, the file of a worker holds exactly the
    lines of the passing candidates of its jobs. *)
Lemma processBatch_lines data dictSize jobs w :
  processBatch data dictSize jobs = Some w →
  11 + 2 * Z.of_nat (callsForJobs data jobs) < 2 ^ 64 →
  ∀ line, line ∈ written w ↔
    ∃ name, name ∈ jobs ∧ nameLine data dictSize name line.
Proof.
  intros Hrun Hmax line.
  destruct (processJobs_lines data dictSize jobs (start dictSize) w Hrun
              (start_steady dictSize) ltac:(simpl; lia)) as (_ & _ & Hl).
  rewrite Hl. simpl. split; [|auto]. intros [?%not_elem_of_nil|?]; done.
Qed.

(** *** Enlarging the table *)




End OutputFacts.

(** * Further properties *)

(** ** The interner *)

Module InternFacts.
Import Preprocess Props MoreProps PreprocessFacts.

(** *** The interner *)

Lemma GetID_lookup d s id d' :
  GetID d s = (id, d') → strToInt d' !! s = Some id.
Proof.
  unfold GetID. destruct (strToInt d !! s) eqn:E; intros [= <- <-]; [done|].
  simpl. apply lookup_insert_eq.
Qed.

Lemma GetID_keeps d s id d' t i :
  GetID d s = (id, d') → strToInt d !! t = Some i → strToInt d' !! t = Some i.
Proof.
  unfold GetID. destruct (strToInt d !! s) eqn:E; intros [= <- <-]; [done|].
  simpl. intros Ht. rewrite lookup_insert_ne; [done|]. intros ->. congruence.
Qed.

Lemma GetID_prefix d s id d' :
  GetID d s = (id, d') → intToStr d `prefix_of` intToStr d'.
Proof.
  unfold GetID. destruct (strToInt d !! s); intros [= <- <-]; [done|].
  simpl. by apply prefix_app_r.
Qed.

Lemma GetID_inRange d s id d' :
  GetID d s = (id, d') → inRange d →
  inRange d' ∧ (N.to_nat id < length (intToStr d'))%nat.
Proof.
  unfold GetID, inRange. intros Hget Hr.
  destruct (strToInt d !! s) as [id0|] eqn:E; injection Hget as <- <-.
  - split; [done|]. by eapply Hr.
  - simpl. rewrite length_app. simpl.
    assert (N.of_nat (length (intToStr d)) mod 2 ^ 32
            <= N.of_nat (length (intToStr d)))%N as Hle
      by (apply N.Div0.mod_le).
    split; [|lia]. intros t i. destruct (decide (t = s)) as [->|Hne].
    + rewrite lookup_insert_eq. intros [= <-]. lia.
    + rewrite lookup_insert_ne by done. intros Ht. specialize (Hr t i Ht). lia.
Qed.

(** X1. Interning is a round trip and is stable: in a dictionary that maps
    back and has room (at most [2^32] strings after the call), the id
    returned for [s] has [s] as its string, and asking again returns the
    same id and leaves the dictionary as it is. *)
Theorem GetID_roundtrip (d : Dictionary) (s : string) (id : N)
    (d' : Dictionary) :
  GetID d s = (id, d') →
  consistent d →
  (N.of_nat (length (intToStr d')) <= 2 ^ 32)%N →
  GetStr d' id = Some s
  ∧ GetID d' s = (id, d')
  ∧ consistent d'.
Proof.
  intros Hget Hc Hlen.
  destruct (GetID_spec d s id d' Hget Hlen Hc) as (Hc' & _ & Hstr).
  split_and!; [done| |done].
  unfold GetID. by rewrite (GetID_lookup d s id d' Hget).
Qed.

Lemma GetID_roundtrip_witness :
  consistent NewDictionary
  ∧ GetStr (GetID NewDictionary "john").2 (GetID NewDictionary "john").1
    = Some "john"%string.
Proof.
  assert (consistent NewDictionary) as Hc.
  { intros s id Hs. simpl in Hs. by rewrite lookup_empty in Hs. }
  split; [exact Hc|].
  assert (N.of_nat (length (intToStr (GetID NewDictionary "john").2))
          <= 2 ^ 32)%N as Hlen by (vm_compute; discriminate).
  exact (proj1 (GetID_roundtrip NewDictionary "john" _ _ eq_refl Hc Hlen)).
Defined.

(** X2. The interner is monotonic: a call of [GetID] keeps the id of every
    string already interned and the string of every id already handed
    out, and (with room left) no other string shares the id it returns. *)
Theorem GetID_monotone (d : Dictionary) (s : string) (id : N)
    (d' : Dictionary) :
  GetID d s = (id, d') →
  (∀ t i, strToInt d !! t = Some i → strToInt d' !! t = Some i)
  ∧ (∀ i t, GetStr d i = Some t → GetStr d' i = Some t)
  ∧ (consistent d → (N.of_nat (length (intToStr d')) <= 2 ^ 32)%N →
     ∀ t, strToInt d' !! t = Some id → t = s).
Proof.
  intros Hget. split_and!.
  - intros t i. by apply (GetID_keeps d s id d').
  - intros i t. apply GetStr_prefix. by eapply GetID_prefix.
  - intros Hc Hlen t Ht.
    destruct (GetID_spec d s id d' Hget Hlen Hc) as (Hc' & _ & Hstr).
    apply Hc' in Ht. congruence.
Qed.

Lemma GetID_monotone_witness :
  GetID NewDictionary "john" = (0%N, (GetID NewDictionary "john").2)
  ∧ ∀ i t, GetStr NewDictionary i = Some t →
           GetStr (GetID NewDictionary "john").2 i = Some t.
Proof.
  split; [reflexivity|].
  exact (proj1 (proj2 (GetID_monotone NewDictionary "john" 0%N
                         (GetID NewDictionary "john").2 eq_refl))).
Defined.

(** *** Strings and ids correspond one to one *)

Lemma GetID_backed d s id d' :
  GetID d s = (id, d') → roomy d' → backed d → backed d'.
Proof.
  unfold GetID, roomy, backed, GetStr. intros Hget Hroom Hb.
  destruct (strToInt d !! s) as [id0|] eqn:E; injection Hget as <- <-; [done|].
  simpl in *. rewrite length_app in Hroom. simpl in Hroom.
  rewrite N.mod_small by lia. intros i t Hi.
  apply lookup_app_Some in Hi as [Hi|[Hge Hi]].
  - rewrite lookup_insert_ne; [by apply Hb|].
    intros ->. apply Hb in Hi. congruence.
  - apply list_lookup_singleton_Some in Hi as [Hi ->].
    replace (N.of_nat (length (intToStr d))) with i by lia.
    apply lookup_insert_eq.
Qed.

Lemma internAll_backed d v ids d' :
  internAll d v = (ids, d') → roomy d' → backed d → backed d'.
Proof.
  revert d ids d'. induction v as [|m rest IH]; intros d ids d'; simpl.
  - by intros [= <- <-].
  - destruct (GetID d m) as [mID d1] eqn:E1.
    destruct (internAll d1 rest) as [ids' d2] eqn:E2. intros [= <- <-] Hroom Hb.
    pose proof (internAll_length _ _ _ _ E2) as Hl.
    eapply IH; [done|done|]. eapply GetID_backed; [done| |done].
    unfold roomy in *. lia.
Qed.

Lemma internAll_keeps d v ids d' t i :
  internAll d v = (ids, d') → strToInt d !! t = Some i →
  strToInt d' !! t = Some i.
Proof.
  revert d ids d'. induction v as [|m rest IH]; intros d ids d'; simpl.
  - by intros [= <- <-].
  - destruct (GetID d m) as [mID d1] eqn:E1.
    destruct (internAll d1 rest) as [ids' d2] eqn:E2. intros [= <- <-] Ht.
    eapply IH; [done|]. by eapply GetID_keeps.
Qed.

Lemma spells_prefix d d' ids ss :
  intToStr d `prefix_of` intToStr d' → spells d ids ss → spells d' ids ss.
Proof.
  intros Hp Hs. unfold spells in *. eapply Forall2_impl; [exact Hs|].
  intros id s. by apply GetStr_prefix.
Qed.

Lemma internAll_spells d v ids d' :
  internAll d v = (ids, d') → roomy d' → consistent d → spells d' ids v.
Proof.
  revert d ids d'. induction v as [|m rest IH]; intros d ids d'; simpl.
  - intros [= <- <-] _ _. constructor.
  - destruct (GetID d m) as [mID d1] eqn:E1.
    destruct (internAll d1 rest) as [ids' d2] eqn:E2. intros [= <- <-] Hroom Hc.
    pose proof (internAll_length _ _ _ _ E2) as Hl.
    assert (roomy d1) as Hroom1 by (unfold roomy in *; lia).
    destruct (GetID_spec _ _ _ _ E1 Hroom1 Hc) as (Hc1 & _ & Hm).
    destruct (internAll_spec _ _ _ _ E2 Hroom Hc1) as (_ & Hp).
    constructor; [by eapply GetStr_prefix|by eapply IH].
Qed.
End InternFacts.

(** ** Preprocessing *)

Module DriverFacts.
Import Preprocess Worker Driver Props MoreProps.
Import ValidatorFacts WorkerFacts PreprocessFacts PairKeysFacts InternFacts.

(** *** Every id is in range *)

Lemma below_mono n n' ids : (n <= n')%nat → below n ids → below n' ids.
Proof.
  intros Hle Hn. unfold below in *. eapply Forall_impl; [exact Hn|].
  simpl. intros id Hid. lia.
Qed.

Lemma tableBelow_mono n n' m :
  (n <= n')%nat → tableBelow n m → tableBelow n' m.
Proof.
  intros Hle Hm k ids Hk. destruct (Hm k ids Hk) as [Hkn Hids].
  split; [lia|by eapply below_mono].
Qed.

Lemma internAll_inRange d v ids d' :
  internAll d v = (ids, d') → inRange d →
  inRange d' ∧ below (length (intToStr d')) ids.
Proof.
  revert d ids d'. induction v as [|m rest IH]; intros d ids d'; simpl.
  - intros [= <- <-] Hr. split; [done|constructor].
  - destruct (GetID d m) as [mID d1] eqn:E1.
    destruct (internAll d1 rest) as [ids' d2] eqn:E2. intros [= <- <-] Hr.
    destruct (GetID_inRange _ _ _ _ E1 Hr) as [Hr1 Hm].
    destruct (IH _ _ _ E2 Hr1) as [Hr2 Hids].
    pose proof (internAll_length _ _ _ _ E2) as Hl.
    split; [done|]. constructor; [lia|done].
Qed.

Lemma internEntry_below d w2m tr kv d' w2m' tr' :
  internEntry (d, w2m, tr) kv = (d', w2m', tr') →
  inRange d →
  tableBelow (length (intToStr d)) w2m →
  tableBelow (length (intToStr d)) tr →
  inRange d'
  ∧ tableBelow (length (intToStr d')) w2m'
  ∧ tableBelow (length (intToStr d')) tr'.
Proof.
  destruct kv as [k v]. simpl.
  destruct (GetID d k) as [kID d1] eqn:E1.
  destruct (internAll d1 v) as [matchIDs d2] eqn:E2.
  intros [= <- <- <-] Hr Hw Ht.
  destruct (GetID_inRange _ _ _ _ E1 Hr) as [Hr1 Hk].
  destruct (internAll_inRange _ _ _ _ E2 Hr1) as [Hr2 Hids].
  pose proof (GetID_length _ _ _ _ E1) as Hl1.
  pose proof (internAll_length _ _ _ _ E2) as Hl2.
  split_and!; [done|..].
  - intros id ids. destruct (decide (id = kID)) as [->|Hne].
    + rewrite lookup_insert_eq. intros [= <-]. split; [lia|done].
    + rewrite lookup_insert_ne by done. intros Hid.
      apply (tableBelow_mono (length (intToStr d)) (length (intToStr d2)) _
               ltac:(lia) Hw id ids Hid).
  - intros id ids. destruct (decide (id = kID)) as [->|Hne].
    + rewrite lookup_insert_eq. intros [= <-]. split; [lia|].
      unfold tradeoutFor. case_decide; [done|].
      constructor; [lia|constructor].
    + rewrite lookup_insert_ne by done. intros Hid.
      apply (tableBelow_mono (length (intToStr d)) (length (intToStr d2)) _
               ltac:(lia) Ht id ids Hid).
Qed.

Lemma tables_below entries st :
  inRange st.1.1 →
  tableBelow (length (intToStr st.1.1)) st.1.2 →
  tableBelow (length (intToStr st.1.1)) st.2 →
  let st' := foldl internEntry st entries in
  inRange st'.1.1
  ∧ tableBelow (length (intToStr st'.1.1)) st'.1.2
  ∧ tableBelow (length (intToStr st'.1.1)) st'.2.
Proof.
  revert st. induction entries as [|kv rest IH]; intros st; simpl; [done|].
  intros Hr Hw Ht. destruct st as [[d w2m] tr].
  destruct (internEntry (d, w2m, tr) kv) as [[d1 w2m1] tr1] eqn:E.
  destruct (internEntry_below _ _ _ _ _ _ _ E Hr Hw Ht) as (? & ? & ?).
  by apply IH.
Qed.

Section Names.
Variable Fields : string → list string.

Lemma internName_length st name :
  (length (intToStr st.1) <= length (intToStr (internName Fields st name).1))%nat.
Proof.
  destruct st as [d nw]. simpl.
  destruct (internAll d (Fields name)) as [ids d'] eqn:E. simpl.
  by eapply internAll_length.
Qed.

Lemma names_length names st :
  (length (intToStr st.1)
   <= length (intToStr (foldl (internName Fields) st names).1))%nat.
Proof.
  revert st. induction names as [|name rest IH]; intros st; simpl; [done|].
  pose proof (internName_length st name).
  pose proof (IH (internName Fields st name)). lia.
Qed.

Lemma names_below names st :
  inRange st.1 →
  (∀ name ids, st.2 !! name = Some ids → below (length (intToStr st.1)) ids) →
  let st' := foldl (internName Fields) st names in
  inRange st'.1
  ∧ ∀ name ids, st'.2 !! name = Some ids →
      below (length (intToStr st'.1)) ids.
Proof.
  revert st. induction names as [|name rest IH]; intros st; simpl; [done|].
  intros Hr Hnw. apply IH; destruct st as [d nw]; simpl in *;
    destruct (internAll d (Fields name)) as [ids d'] eqn:E; simpl.
  - by destruct (internAll_inRange _ _ _ _ E Hr).
  - destruct (internAll_inRange _ _ _ _ E Hr) as [_ Hids].
    pose proof (internAll_length _ _ _ _ E) as Hl.
    intros nm ids'. destruct (decide (nm = name)) as [->|Hne].
    + rewrite lookup_insert_eq. by intros [= <-].
    + rewrite lookup_insert_ne by done. intros Hnm.
      eapply below_mono; [exact Hl|]. by eapply Hnw.
Qed.

Lemma NewDictionary_inRange : inRange NewDictionary.
Proof. intros s id Hs. simpl in Hs. by rewrite lookup_empty in Hs. Qed.

Lemma tableBelow_empty n : tableBelow n ∅.
Proof. intros k ids Hk. by rewrite lookup_empty in Hk. Qed.

(** The three id-form tables of the result, and the dictionary they share. *)
Lemma preprocessData_unfold raw :
  ∃ d w2m tr d' nw,
    Preprocess.preprocessData (Raw.WordToMatches raw) = (d, w2m, tr)
    ∧ foldl (internName Fields) (d, ∅) (Raw.AllNames raw) = (d', nw)
    ∧ preprocessData Fields raw =
        {| NameWords := nw; WordToMatches := w2m; TradeoutSets := tr;
           PairToNames := Raw.PairToNames raw; Dict := d' |}.
Proof.
  unfold preprocessData.
  destruct (Preprocess.preprocessData (Raw.WordToMatches raw))
    as [[d w2m] tr] eqn:E1.
  destruct (foldl (internName Fields) (d, ∅) (Raw.AllNames raw))
    as [d' nw] eqn:E2.
  by exists d, w2m, tr, d', nw.
Qed.

(** The ids of the tables and of the name vectors are below the final
    length of the dictionary: the tables loop keeps them below the length
    it reaches, and the names loop only appends. *)
Lemma preprocessData_below (raw : Raw.InputData) :
  let data := preprocessData Fields raw in
  let dictSize := length (intToStr (Dict data)) in
  tableBelow dictSize (WordToMatches data)
  ∧ tableBelow dictSize (TradeoutSets data)
  ∧ ∀ name ids, NameWords data !! name = Some ids → below dictSize ids.
Proof.
  destruct (preprocessData_unfold raw) as (d & w2m & tr & d' & nw & E1 & E2 & ->).
  simpl.
  destruct (tables_below (Raw.WordToMatches raw) (NewDictionary, ∅, ∅))
    as (Hr & Hw & Ht); simpl;
    [apply NewDictionary_inRange|apply tableBelow_empty..|].
  unfold Preprocess.preprocessData in E1. rewrite E1 in Hr, Hw, Ht.
  simpl in Hr, Hw, Ht.
  pose proof (names_length (Raw.AllNames raw) (d, ∅)) as Hl.
  destruct (names_below (Raw.AllNames raw) (d, ∅)) as [Hr' Hnw]; simpl;
    [done|by intros name ids; rewrite lookup_empty|].
  rewrite E2 in Hl, Hr', Hnw. simpl in Hl, Hnw.
  split_and!; [by eapply tableBelow_mono..|done].
Qed.

(** X6. Whatever the input, every id in the preprocessed data indexes the
    dictionary: the keys and the listed ids of [WordToMatches] and of
    [TradeoutSets] and the ids of every name vector are below
    [len(Dict.intToStr)], the length the workers give their buffers; so
    [GetStr] finds a string for each of them. *)
Theorem preprocessData_ids_below (raw : Raw.InputData) :
  let data := preprocessData Fields raw in
  let dictSize := length (intToStr (Dict data)) in
  tableBelow dictSize (WordToMatches data)
  ∧ tableBelow dictSize (TradeoutSets data)
  ∧ (∀ name ids, NameWords data !! name = Some ids → below dictSize ids)
  ∧ ∀ name ids id, NameWords data !! name = Some ids → id ∈ ids →
      is_Some (GetStr (Dict data) id).
Proof.
  intros data dictSize.
  destruct (preprocessData_below raw) as (Hw & Ht & Hn).
  split_and!; [done..|].
  intros name ids id Hids Hid. unfold GetStr. apply lookup_lt_is_Some.
  specialize (Hn name ids Hids). unfold below in Hn.
  rewrite Forall_forall in Hn. by apply Hn.
Qed.

(** *** The workers never panic on preprocessed data *)

Lemma visitOther_total data name other w :
  is_Some (visitOther data name other w).
Proof.
  unfold visitOther. case_decide; [done|].
  destruct (ordered name other) as [n1 n2].
  destruct (callValidator_spec data (default [] (NameWords data !! n1))
              (default [] (NameWords data !! n2)) w) as (ok & buf & _ & ->).
  done.
Qed.

Lemma visitOthers_total data name others w :
  is_Some (visitOthers data name others w).
Proof.
  revert w. induction others as [|other rest IH]; intros w; simpl; [done|].
  destruct (visitOther_total data name other w) as [w1 ->]. simpl. apply IH.
Qed.

Lemma visitPairs_total data name pairs w :
  is_Some (visitPairs data name pairs w).
Proof.
  revert w. induction pairs as [|pairStr rest IH]; intros w; simpl; [done|].
  destruct (PairToNames data !! pairStr) as [others|]; simpl; [|apply IH].
  destruct (visitOthers_total data name others w) as [w1 ->]. simpl. apply IH.
Qed.

Lemma processJobs_total data jobs w :
  (∀ name, interned (Dict data) (TradeoutSets data)
             (default [] (NameWords data !! name))) →
  is_Some (processJobs data jobs w).
Proof.
  intros Hint. revert w. induction jobs as [|name rest IH]; intros w; simpl;
    [done|].
  assert (is_Some (processName data name w)) as [w1 ->]; [|simpl; apply IH].
  unfold processName. case_match; [done|].
  destruct (buildExpandedPairMappings_total _ _ _ (Hint name)) as [pairs ->].
  simpl. apply visitPairs_total.
Qed.

Lemma below_interned dict tr parts :
  tableBelow (length (intToStr dict)) tr →
  below (length (intToStr dict)) parts →
  interned dict tr parts.
Proof.
  intros Htr Hparts p w Hp Hw. unfold GetStr. apply lookup_lt_is_Some.
  unfold below in Hparts. rewrite Forall_forall in Hparts.
  destruct Hw as [->|(ms & Hms & Hw)]; [by apply Hparts|].
  destruct (Htr p ms Hms) as [_ Hbelow].
  unfold below in Hbelow. rewrite Forall_forall in Hbelow. by apply Hbelow.
Qed.

Lemma preprocessData_interned raw name :
  let data := preprocessData Fields raw in
  interned (Dict data) (TradeoutSets data)
    (default [] (NameWords data !! name)).
Proof.
  intros data.
  destruct (preprocessData_below raw) as (_ & Htr & Hnw).
  apply below_interned; [done|].
  fold data in Hnw. destruct (NameWords data !! name) as [ids|] eqn:E; simpl.
  - by eapply Hnw.
  - constructor.
Qed.

(** X7. The workers never panic on preprocessed data: whatever the input,
    the buffer length and the names a worker receives, [processBatch]
    returns (every [GetStr] of the pair-key builder finds its id); hence
    the whole run returns an output for every distribution of the names
    among the workers. *)
Theorem main_never_panics (raw : Raw.InputData) :
  (∀ dictSize jobs,
     is_Some (processBatch (preprocessData Fields raw) dictSize jobs))
  ∧ ∀ assignment, is_Some (main Fields raw assignment).
Proof.
  assert (∀ dictSize jobs,
            is_Some (processBatch (preprocessData Fields raw) dictSize jobs))
    as Hbatch.
  { intros dictSize jobs. apply processJobs_total.
    intros name. apply preprocessData_interned. }
  split; [done|]. intros assignment. unfold main, runWorkers.
  apply fmap_is_Some, mapM_is_Some_2, Forall_forall.
  intros jobs _. simpl. apply fmap_is_Some, Hbatch.
Qed.

(** *** Preprocessing is a round trip *)

Lemma internEntry_prefix st kv :
  intToStr st.1.1 `prefix_of` intToStr (internEntry st kv).1.1.
Proof.
  destruct st as [[d w2m] tr], kv as [k v]. simpl.
  destruct (GetID d k) as [kID d1] eqn:E1.
  destruct (internAll d1 v) as [matchIDs d2] eqn:E2. simpl.
  etrans; [by eapply GetID_prefix|].
  clear E1. revert d1 matchIDs d2 E2.
  induction v as [|m rest IH]; intros d1 ids d2; simpl.
  - by intros [= <- <-].
  - destruct (GetID d1 m) as [mID d3] eqn:E3.
    destruct (internAll d3 rest) as [ids' d4] eqn:E4. intros [= <- <-].
    etrans; [by eapply GetID_prefix|by eapply IH].
Qed.

Lemma internEntry_tabled d w2m tr k v d' w2m' tr' processed :
  internEntry (d, w2m, tr) (k, v) = (d', w2m', tr') →
  roomy d' → consistent d → backed d → k ∉ processed.*1 →
  tabled d w2m tr processed →
  consistent d' ∧ backed d' ∧ tabled d' w2m' tr' (processed ++ [(k, v)]).
Proof.
  intros Hrun Hroom Hc Hb Hk Ht.
  pose proof (internEntry_prefix (d, w2m, tr) (k, v)) as Hp.
  rewrite Hrun in Hp. simpl in Hp, Hrun.
  destruct (GetID d k) as [kID d1] eqn:E1.
  destruct (internAll d1 v) as [matchIDs d2] eqn:E2.
  injection Hrun as <- <- <-.
  pose proof (internAll_length _ _ _ _ E2) as Hl.
  assert (roomy d1) as Hroom1 by (unfold roomy in *; lia).
  destruct (GetID_spec _ _ _ _ E1 Hroom1 Hc) as (Hc1 & _ & _).
  destruct (internAll_spec _ _ _ _ E2 Hroom Hc1) as (Hc2 & _).
  assert (strToInt d2 !! k = Some kID) as HkID.
  { eapply internAll_keeps; [done|]. by eapply GetID_lookup. }
  split_and!; [done| |].
  - eapply internAll_backed; [done|done|]. by eapply GetID_backed.
  - intros k0 v0 [Hin|[= -> ->]%list_elem_of_singleton]%elem_of_app.
    + destruct (Ht k0 v0 Hin) as (kID0 & ids0 & Hs0 & Hw0 & Hsp0 & Ht0).
      assert (strToInt d2 !! k0 = Some kID0) as Hs2.
      { eapply internAll_keeps; [done|]. by eapply GetID_keeps. }
      assert (kID0 ≠ kID) as Hne.
      { intros ->. apply Hc2 in Hs2, HkID. rewrite Hs2 in HkID.
        injection HkID as ->. apply Hk. apply list_elem_of_fmap.
        by exists (k, v0). }
      exists kID0, ids0. rewrite !lookup_insert_ne by done.
      split_and!; [done|done| |done]. by eapply spells_prefix.
    + exists kID, matchIDs. rewrite !lookup_insert_eq.
      split_and!; [done|done| |done]. by eapply internAll_spells.
Qed.

Lemma tables_tabled entries processed st :
  NoDup (processed.*1 ++ entries.*1) →
  roomy (foldl internEntry st entries).1.1 →
  consistent st.1.1 → backed st.1.1 →
  tabled st.1.1 st.1.2 st.2 processed →
  let st' := foldl internEntry st entries in
  consistent st'.1.1 ∧ backed st'.1.1
  ∧ tabled st'.1.1 st'.1.2 st'.2 (processed ++ entries).
Proof.
  revert processed st.
  induction entries as [|[k v] rest IH]; intros processed st; simpl.
  - intros _ _ Hc Hb Ht. by rewrite app_nil_r.
  - intros Hnd Hroom Hc Hb Ht.
    pose proof (foldl_internEntry_length rest (internEntry st (k, v))) as Hl.
    destruct st as [[d w2m] tr].
    destruct (internEntry (d, w2m, tr) (k, v)) as [[d1 w2m1] tr1] eqn:E.
    simpl in *.
    apply NoDup_app in Hnd as (Hnd1 & Hdisj & Hnd2).
    apply NoDup_cons in Hnd2 as [Hk Hnd2].
    destruct (internEntry_tabled _ _ _ _ _ _ _ _ processed E) as (Hc1 & Hb1 & Ht1);
      [unfold roomy in *; lia|done|done| |done|].
    { intros Hin. apply (Hdisj k Hin). by left. }
    replace (processed ++ (k, v) :: rest)
      with ((processed ++ [(k, v)]) ++ rest) by (by rewrite <- app_assoc).
    apply (IH (processed ++ [(k, v)]) (d1, w2m1, tr1)); simpl; try done.
    rewrite fmap_app. simpl. rewrite <- app_assoc. simpl.
    apply NoDup_app. split_and!; [done| |by apply NoDup_cons].
    intros x Hx [->|Hx']%elem_of_cons; [|by apply (Hdisj x Hx); right].
    apply (Hdisj k Hx). by left.
Qed.

Lemma internName_named st name processed :
  roomy (internName Fields st name).1 →
  consistent st.1 → backed st.1 → named Fields st.1 st.2 processed →
  let st' := internName Fields st name in
  consistent st'.1 ∧ backed st'.1
  ∧ intToStr st.1 `prefix_of` intToStr st'.1
  ∧ (∀ t i, strToInt st.1 !! t = Some i → strToInt st'.1 !! t = Some i)
  ∧ named Fields st'.1 st'.2 (processed ++ [name]).
Proof.
  destruct st as [d nw]. simpl.
  destruct (internAll d (Fields name)) as [ids d'] eqn:E. simpl.
  intros Hroom Hc Hb [Hin Hout].
  destruct (internAll_spec _ _ _ _ E Hroom Hc) as (Hc' & Hp).
  split_and!; [done|by eapply internAll_backed|done| |].
  - intros t i. by eapply internAll_keeps.
  - split.
    + intros nm Hnm. destruct (decide (nm = name)) as [->|Hne].
      * exists ids. rewrite lookup_insert_eq. split; [done|].
        by eapply internAll_spells.
      * rewrite lookup_insert_ne by done.
        apply elem_of_app in Hnm as [Hnm|Hnm%list_elem_of_singleton]; [|done].
        destruct (Hin nm Hnm) as (ids0 & Hids0 & Hsp0).
        exists ids0. split; [done|]. by eapply spells_prefix.
    + intros nm Hnm. rewrite lookup_insert_ne; [apply Hout|]; set_solver.
Qed.

Lemma names_named names processed st :
  roomy (foldl (internName Fields) st names).1 →
  consistent st.1 → backed st.1 → named Fields st.1 st.2 processed →
  let st' := foldl (internName Fields) st names in
  consistent st'.1 ∧ backed st'.1
  ∧ intToStr st.1 `prefix_of` intToStr st'.1
  ∧ (∀ t i, strToInt st.1 !! t = Some i → strToInt st'.1 !! t = Some i)
  ∧ named Fields st'.1 st'.2 (processed ++ names).
Proof.
  revert processed st. induction names as [|name rest IH]; intros processed st;
    simpl.
  - intros _ Hc Hb Hn. rewrite app_nil_r. by split_and!.
  - intros Hroom Hc Hb Hn.
    pose proof (names_length rest (internName Fields st name)) as Hl.
    destruct (internName_named st name processed)
      as (Hc1 & Hb1 & Hp1 & Hk1 & Hn1); [unfold roomy in *; lia|done..|].
    destruct (IH (processed ++ [name]) (internName Fields st name) Hroom
                Hc1 Hb1 Hn1) as (Hc2 & Hb2 & Hp2 & Hk2 & Hn2).
    rewrite <- app_assoc in Hn2. simpl in Hn2.
    split_and!; [done|done|by etrans|auto|done].
Qed.

(** The invariants of the whole preprocessing, for a dictionary with room. *)
Lemma preprocessData_sound raw :
  let data := preprocessData Fields raw in
  NoDup (Raw.WordToMatches raw).*1 →
  roomy (Dict data) →
  consistent (Dict data) ∧ backed (Dict data)
  ∧ tabled (Dict data) (WordToMatches data) (TradeoutSets data)
      (Raw.WordToMatches raw)
  ∧ named Fields (Dict data) (NameWords data) (Raw.AllNames raw).
Proof.
  destruct (preprocessData_unfold raw) as (d & w2m & tr & d' & nw & E1 & E2 & ->).
  simpl. intros Hnd Hroom.
  pose proof (names_length (Raw.AllNames raw) (d, ∅)) as Hl.
  rewrite E2 in Hl. simpl in Hl.
  destruct (tables_tabled (Raw.WordToMatches raw) [] (NewDictionary, ∅, ∅))
    as (Hc & Hb & Ht); simpl.
  - done.
  - unfold Preprocess.preprocessData in E1. rewrite E1. simpl.
    unfold roomy in *. lia.
  - intros s id Hs. simpl in Hs. by rewrite lookup_empty in Hs.
  - intros i s Hi. unfold GetStr in Hi. simpl in Hi. by destruct (N.to_nat i).
  - intros k v Hkv. by apply not_elem_of_nil in Hkv.
  - unfold Preprocess.preprocessData in E1. rewrite E1 in Hc, Hb, Ht.
    simpl in Hc, Hb, Ht.
    destruct (names_named (Raw.AllNames raw) [] (d, ∅))
      as (Hc' & Hb' & Hp & Hk & Hn); simpl.
    + by rewrite E2.
    + done.
    + done.
    + split; [by intros name ?%not_elem_of_nil|].
      intros name _. apply lookup_empty.
    + rewrite E2 in Hc', Hb', Hp, Hk, Hn. simpl in *.
      split_and!; [done|done| |done].
      intros k v Hkv. destruct (Ht k v Hkv) as (kID & ids & Hs & Hw & Hsp & Htr).
      exists kID, ids. split_and!; [by apply Hk|done| |done].
      by eapply spells_prefix.
Qed.

(** X3. In the preprocessed dictionary strings and ids correspond one to
    one, as long as at most [2^32] strings were interned: [GetStr] of an
    id is a string exactly when that string is interned under that id, so
    two ids are equal exactly when their strings are. *)
Theorem preprocessData_bijection (raw : Raw.InputData) :
  let dict := Dict (preprocessData Fields raw) in
  NoDup (Raw.WordToMatches raw).*1 →
  roomy dict →
  (∀ id s, GetStr dict id = Some s ↔ strToInt dict !! s = Some id)
  ∧ (∀ id1 id2 s1 s2,
       GetStr dict id1 = Some s1 → GetStr dict id2 = Some s2 →
       (id1 = id2 ↔ s1 = s2)).
Proof.
  intros dict Hnd Hroom.
  destruct (preprocessData_sound raw Hnd Hroom) as (Hc & Hb & _).
  fold dict in Hc, Hb.
  assert (∀ id s, GetStr dict id = Some s ↔ strToInt dict !! s = Some id)
    as Hiff by (intros id s; split; [apply Hb|apply Hc]).
  split; [done|]. intros id1 id2 s1 s2 H1 H2. split.
  - intros ->. congruence.
  - intros ->. apply Hb in H1, H2. congruence.
Qed.

(** X4. Preprocessing keeps the equivalence table: for every entry
    [k ↦ v] of the raw table (distinct keys, room in the dictionary) the
    id of [k] is mapped by [WordToMatches] to the ids of the strings of
    [v], in order, and by [TradeoutSets] to the same list, or to the id
    of [k] alone when [k] is one byte long. *)
Theorem preprocessData_tables (raw : Raw.InputData) :
  let data := preprocessData Fields raw in
  NoDup (Raw.WordToMatches raw).*1 →
  roomy (Dict data) →
  ∀ k v, (k, v) ∈ Raw.WordToMatches raw →
    ∃ kID ids,
      strToInt (Dict data) !! k = Some kID
      ∧ GetStr (Dict data) kID = Some k
      ∧ WordToMatches data !! kID = Some ids
      ∧ spells (Dict data) ids v
      ∧ TradeoutSets data !! kID =
          Some (if decide (String.length k = 1%nat) then [kID] else ids).
Proof.
  intros data Hnd Hroom k v Hkv.
  destruct (preprocessData_sound raw Hnd Hroom) as (Hc & _ & Ht & _).
  destruct (Ht k v Hkv) as (kID & ids & Hs & Hw & Hsp & Htr).
  exists kID, ids. split_and!; [done|by apply Hc|done|done|].
  unfold data. rewrite Htr. unfold tradeoutFor.
  destruct (decide (String.length k = 1%nat)).
  - by rewrite decide_False by auto.
  - by rewrite decide_True by done.
Qed.

(** X5. Preprocessing keeps the names: [NameWords] has an entry exactly
    for the names of [all_names], and the entry of a name lists the ids
    of its tokens (the fields of the name), in order, duplicates
    included. *)
Theorem preprocessData_names (raw : Raw.InputData) :
  let data := preprocessData Fields raw in
  NoDup (Raw.WordToMatches raw).*1 →
  roomy (Dict data) →
  (∀ name, name ∈ Raw.AllNames raw →
     ∃ ids, NameWords data !! name = Some ids
            ∧ spells (Dict data) ids (Fields name)
            ∧ length ids = length (Fields name))
  ∧ (∀ name, name ∉ Raw.AllNames raw → NameWords data !! name = None).
Proof.
  intros data Hnd Hroom.
  destruct (preprocessData_sound raw Hnd Hroom) as (_ & _ & _ & Hin & Hout).
  split; [|done]. intros name Hname.
  destruct (Hin name Hname) as (ids & Hids & Hsp).
  exists ids. split_and!; [done|done|]. by eapply Forall2_length.
Qed.
End Names.
End DriverFacts.

(** ** More on the validator *)

Module ValidatorMore.
Import Validator Props ValidatorFacts.

Lemma unstamped_nonneg buf gen parts : 0 <= unstamped buf gen parts.
Proof. unfold unstamped. lia. Qed.

Lemma marked_true wm parts n x :
  marked wm parts n x = true ↔
  (N.to_nat x < n)%nat ∧ ∃ w ms, w ∈ parts ∧ wm !! w = Some ms ∧ x ∈ ms.
Proof.
  unfold marked. rewrite andb_true_iff, bool_decide_eq_true, existsb_exists.
  split; intros [Hn H]; (split; [done|]).
  - destruct H as (w & Hw%list_elem_of_In & Hin). unfold inMatches in Hin.
    destruct (wm !! w) as [ms|] eqn:E; [|done].
    exists w, ms. by apply bool_decide_eq_true in Hin.
  - destruct H as (w & ms & Hw & Hms & Hx). exists w.
    split; [by apply list_elem_of_In|].
    unfold inMatches. rewrite Hms. by apply bool_decide_eq_true.
Qed.

(** X8. A name of fewer than two tokens never matches: whatever the
    table, the buffer and the generation, the validator returns [false]
    as soon as one of the two vectors is shorter than two. *)
Theorem validateOptimized_short (A B : list N) (wm : gmap N (list N))
    (buf : list Z) (gen : Z) :
  (length A < 2)%nat ∨ (length B < 2)%nat →
  ∃ buf', validateOptimized A B wm buf gen = Some (false, buf').
Proof.
  intros Hshort.
  destruct (validateOptimized_run A B wm buf gen)
    as (buf1 & buf2 & _ & _ & _ & _ & Hrun).
  exists buf2. rewrite Hrun. f_equal. f_equal.
  apply not_true_is_false. rewrite thresholds_rules. unfold R1, R2, R3.
  pose proof (unstamped_nonneg buf1 gen A).
  pose proof (unstamped_nonneg buf2 (wrap64 (gen + 1)) B). lia.
Qed.

Lemma validateOptimized_short_witness :
  ((length [7%N] < 2)%nat ∨ (length [7; 8; 9]%N < 2)%nat)
  ∧ ∃ buf', validateOptimized [7%N] [7; 8; 9]%N
              {[ 7%N := [7%N] ]} (Buffer.make 10) 12 = Some (false, buf').
Proof.
  assert ((length [7%N] < 2)%nat ∨ (length [7; 8; 9]%N < 2)%nat) as H
    by (left; simpl; lia).
  split; [exact H|].
  exact (validateOptimized_short [7%N] [7; 8; 9]%N {[ 7%N := [7%N] ]}
           (Buffer.make 10) 12 H).
Defined.

Lemma unstamped_covered parts other wm gen buf buf' :
  populate other wm gen buf = Some buf' →
  (∀ a, a ∈ parts → marked wm other (length buf) a = true) →
  unstamped buf' gen parts = 0.
Proof.
  intros Hpop Hall.
  destruct (populate_spec other wm gen buf) as (b & Hb & _ & Hget).
  rewrite Hpop in Hb. injection Hb as <-.
  unfold unstamped.
  replace (filter (λ w, stamped buf' gen w = false) (remove_dups parts))
    with ([] : list N); [done|].
  symmetry. apply elem_of_nil_inv.
  intros a [Hs Ha]%list_elem_of_filter.
  apply (proj1 (elem_of_remove_dups parts a)) in Ha.
  unfold stamped in Hs. rewrite Hget, (Hall a Ha) in Hs.
  by rewrite bool_decide_eq_true_2 in Hs.
Qed.

(** X9. Two names of at least two tokens each match whenever each token
    of either name lies inside the buffer and occurs in the match list of
    some token of the other name; in particular such a name matches
    itself when the table lists every one of its tokens under itself.
    This holds on any buffer and for any generation. *)
Theorem validateOptimized_covered (A B : list N) (wm : gmap N (list N))
    (buf : list Z) (gen : Z) :
  (2 <= length A)%nat → (2 <= length B)%nat →
  (∀ a, a ∈ A → (N.to_nat a < length buf)%nat
                ∧ ∃ b ms, b ∈ B ∧ wm !! b = Some ms ∧ a ∈ ms) →
  (∀ b, b ∈ B → (N.to_nat b < length buf)%nat
                ∧ ∃ a ms, a ∈ A ∧ wm !! a = Some ms ∧ b ∈ ms) →
  accepted A B wm buf gen.
Proof.
  intros HA HB HcovA HcovB.
  destruct (validateOptimized_run A B wm buf gen)
    as (buf1 & buf2 & H1 & H2 & Hl1 & Hl2 & Hrun).
  exists buf2. rewrite Hrun. f_equal. f_equal.
  rewrite (unstamped_covered A B wm gen buf buf1 H1)
    by (intros a Ha; by apply marked_true, HcovA).
  rewrite (unstamped_covered B A wm (wrap64 (gen + 1)) buf1 buf2 H2)
    by (intros b Hb; rewrite Hl1; by apply marked_true, HcovB).
  apply thresholds_rules. unfold R1, R2, R3. lia.
Qed.

Lemma validateOptimized_covered_witness :
  (2 <= length [0; 1]%N)%nat
  ∧ accepted [0; 1]%N [0; 1]%N {[ 0%N := [0%N]; 1%N := [1%N] ]}
      (Buffer.make 2) 12.
Proof.
  split; [simpl; lia|].
  assert (∀ a, a ∈ [0; 1]%N →
            (N.to_nat a < length (Buffer.make 2))%nat
            ∧ ∃ b ms, b ∈ [0; 1]%N
                ∧ ({[ 0%N := [0%N]; 1%N := [1%N] ]} : gmap N (list N)) !! b
                  = Some ms ∧ a ∈ ms) as Hcov.
  { intros a Ha. assert (a = 0%N ∨ a = 1%N) as [-> | ->] by set_solver.
    - split; [simpl; lia|]. exists 0%N, [0%N].
      split_and!; [set_solver|reflexivity|set_solver].
    - split; [simpl; lia|]. exists 1%N, [1%N].
      split_and!; [set_solver|reflexivity|set_solver]. }
  apply (validateOptimized_covered [0; 1]%N [0; 1]%N _ (Buffer.make 2) 12);
    [simpl; lia|simpl; lia|exact Hcov|exact Hcov].
Defined.

Lemma marked_perm wm parts parts' n x :
  parts ≡ₚ parts' → marked wm parts n x = marked wm parts' n x.
Proof.
  intros Hp. apply eq_true_iff_eq. rewrite !marked_true.
  split; intros [Hn (w & ms & Hw & H)]; (split; [done|]); exists w, ms;
    (split; [|done]); [by rewrite <- Hp|by rewrite Hp].
Qed.

Lemma mismatch_perm wm n A A' B B' :
  A ≡ₚ A' → B ≡ₚ B' → mismatch wm n A B = mismatch wm n A' B'.
Proof.
  intros HA HB. unfold mismatch. f_equal.
  rewrite (list_filter_iff (λ a, marked wm B n a = false)
             (λ a, marked wm B' n a = false))
    by (intros a; by rewrite (marked_perm wm B B' n a HB)).
  apply Permutation_length, filter_Permutation.
  apply NoDup_Permutation; [apply NoDup_remove_dups..|].
  intros a. rewrite !elem_of_remove_dups. by rewrite HA.
Qed.

(** X10. The order of the tokens does not matter: on fresh buffers of one
    length, permuting the tokens of either name leaves the validator's
    decision unchanged. *)
Theorem validateOptimized_order (A A' B B' : list N) (wm : gmap N (list N))
    (buf buf' : list Z) (gen gen' : Z) :
  A ≡ₚ A' → B ≡ₚ B' →
  fresh buf gen → fresh buf' gen' → length buf = length buf' →
  ∃ ok buf1 buf2,
    validateOptimized A B wm buf gen = Some (ok, buf1)
    ∧ validateOptimized A' B' wm buf' gen' = Some (ok, buf2).
Proof.
  intros HA HB Hf Hf' Hlen.
  destruct (validateOptimized_fresh A B wm buf gen Hf) as (b1 & H1 & _).
  destruct (validateOptimized_fresh A' B' wm buf' gen' Hf') as (b2 & H2 & _).
  eexists _, b1, b2. split; [exact H1|]. rewrite H2, <- Hlen.
  rewrite (mismatch_perm wm (length buf) A A' B B' HA HB).
  rewrite (mismatch_perm wm (length buf) B B' A A' HB HA).
  by rewrite (Permutation_length HA), (Permutation_length HB).
Qed.

Lemma validateOptimized_order_witness :
  [0; 1; 2]%N ≡ₚ [2; 0; 1]%N
  ∧ ∃ ok buf1 buf2,
      validateOptimized [0; 1; 2]%N [1; 0]%N
        {[ 0%N := [0%N]; 1%N := [1%N] ]} (Buffer.make 3) 12 = Some (ok, buf1)
      ∧ validateOptimized [2; 0; 1]%N [0; 1]%N
          {[ 0%N := [0%N]; 1%N := [1%N] ]} (Buffer.make 3) 12
        = Some (ok, buf2).
Proof.
  assert ([0; 1; 2]%N ≡ₚ [2; 0; 1]%N) as HA
    by (apply (bool_decide_unpack _); vm_compute; exact I).
  assert ([1; 0]%N ≡ₚ [0; 1]%N) as HB
    by (apply (bool_decide_unpack _); vm_compute; exact I).
  assert (fresh (Buffer.make 3) 12) as Hf by (repeat constructor; done).
  split; [exact HA|].
  exact (validateOptimized_order _ _ _ _ _ _ _ 12 12 HA HB Hf Hf eq_refl).
Defined.

(** X11. The validator writes nothing but its two stamps, and only into
    cells of the match lists: after a call the buffer has its length, a
    cell marked from [A] holds [gen + 1], a cell marked from [B] only
    holds [gen], and every other cell holds what it held before. *)
Theorem validateOptimized_frame (A B : list N) (wm : gmap N (list N))
    (buf : list Z) (gen : Z) :
  ∃ ok buf',
    validateOptimized A B wm buf gen = Some (ok, buf')
    ∧ length buf' = length buf
    ∧ ∀ x : N,
        buf' !! N.to_nat x =
          if marked wm A (length buf) x then Some (wrap64 (gen + 1))
          else if marked wm B (length buf) x then Some gen
          else buf !! N.to_nat x.
Proof.
  destruct (validateOptimized_run A B wm buf gen)
    as (buf1 & buf2 & H1 & H2 & Hl1 & Hl2 & Hrun).
  destruct (populate_spec B wm gen buf) as (b1 & Hb1 & _ & Hget1).
  rewrite H1 in Hb1. injection Hb1 as <-.
  destruct (populate_spec A wm (wrap64 (gen + 1)) buf1)
    as (b2 & Hb2 & _ & Hget2).
  rewrite H2 in Hb2. injection Hb2 as <-.
  eexists _, buf2. split_and!; [exact Hrun|done|].
  intros x. by rewrite Hget2, Hl1, Hget1.
Qed.
End ValidatorMore.

(** ** More on the pair-key builder *)

Module PairKeysMore.
Import PairKeys Props StringFacts PairKeysFacts.

(** *** The options of a position are sorted *)

Lemma insertSorted_sorted x l :
  StronglySorted N.le l → StronglySorted N.le (insertSorted x l).
Proof.
  induction l as [|y l IH]; simpl; intros Hs.
  - by repeat constructor.
  - apply StronglySorted_inv in Hs as [Hs Hy].
    destruct (N.leb_spec x y) as [Hle|Hgt].
    + constructor; [by constructor|]. constructor; [done|].
      eapply Forall_impl; [exact Hy|]. simpl. intros z Hz. lia.
    + constructor; [by apply IH|]. apply Forall_forall.
      intros z [->|Hz]%elem_of_insertSorted; [lia|].
      rewrite Forall_forall in Hy. by apply Hy.
Qed.

Lemma sortIDs_sorted l : StronglySorted N.le (sortIDs l).
Proof.
  induction l as [|x l IH]; simpl; [constructor|].
  by apply insertSorted_sorted.
Qed.

Lemma uniqueAfter_sorted last l :
  StronglySorted N.le l → Forall (N.le last) l →
  StronglySorted N.lt (uniqueAfter last l)
  ∧ Forall (N.lt last) (uniqueAfter last l).
Proof.
  revert last. induction l as [|v l IH]; intros last Hs Hl; simpl.
  - split; constructor.
  - apply StronglySorted_inv in Hs as [Hs Hv].
    apply Forall_cons in Hl as [Hlv Hl].
    destruct (N.eqb_spec v last) as [->|Hne]; simpl.
    + by apply IH.
    + destruct (IH v Hs Hv) as [Hs' Hv'].
      split; constructor; [done|done|lia|].
      eapply Forall_impl; [exact Hv'|]. simpl. intros z Hz. lia.
Qed.

Lemma unique_sorted l :
  StronglySorted N.le l → StronglySorted N.lt (unique l).
Proof.
  destruct l as [|v l]; simpl; [constructor|]. intros Hs.
  apply StronglySorted_inv in Hs as [Hs Hv].
  destruct (uniqueAfter_sorted v l Hs Hv). by constructor.
Qed.

(** X12. The options of a position are the sorted set of the token and
    its tradeouts: the list is strictly increasing by id (so free of
    duplicates) and holds exactly the token itself and the ids of its
    tradeout list, if it has one. *)
Theorem optionsFor_sorted_set (tr : gmap N (list N)) (p : N) :
  StronglySorted N.lt (optionsFor tr p)
  ∧ NoDup (optionsFor tr p)
  ∧ ∀ w, w ∈ optionsFor tr p ↔ w = p ∨ ∃ ms, tr !! p = Some ms ∧ w ∈ ms.
Proof.
  assert (StronglySorted N.lt (optionsFor tr p)) as Hs.
  { unfold optionsFor. apply unique_sorted, sortIDs_sorted. }
  split_and!; [done| |intros w; apply elem_of_optionsFor].
  induction Hs as [|a l Hs IH Ha]; constructor; [|done].
  intros Hin. rewrite Forall_forall in Ha. specialize (Ha a Hin). lia.
Qed.

(** *** The position-pair key *)

Lemma dedupKey_sym oi oj : dedupKey oi oj = dedupKey oj oi.
Proof.
  unfold dedupKey.
  destruct (String.ltb (writeIDs 0 oj) (writeIDs 0 oi)) eqn:E.
  - by rewrite (ltb_asym _ _ E).
  - destruct (String.ltb (writeIDs 0 oi) (writeIDs 0 oj)) eqn:E'; [done|].
    destruct (decide (writeIDs 0 oi = writeIDs 0 oj)) as [->|Hne]; [done|].
    rewrite (ltb_trichotomy _ _ E' Hne) in E. done.
Qed.

(** X14. The position-pair key is free of collisions: two position pairs
    get the same key exactly when they have the same two option lists, in
    either order.  (So a position pair is only skipped when the same
    product was expanded before.) *)
Theorem dedupKey_unordered (oi oj oi' oj' : list N) :
  dedupKey oi oj = dedupKey oi' oj'
  ↔ (oi, oj) = (oi', oj') ∨ (oi, oj) = (oj', oi').
Proof.
  split; [apply dedupKey_inj|].
  intros [[= -> ->]|[= -> ->]]; [done|apply dedupKey_sym].
Qed.

(** *** Short and long vectors *)

(** X13. A vector yields probe keys exactly when it has two tokens or
    more: with its ids interned, the builder returns the empty sequence
    for a vector of fewer than two tokens and a non-empty one
    otherwise. *)
Theorem buildExpandedPairMappings_empty (parts : list N)
    (tr : gmap N (list N)) (dict : Dictionary) :
  interned dict tr parts →
  ∃ keys,
    buildExpandedPairMappings parts tr dict = Some keys
    ∧ (keys = [] ↔ (length parts < 2)%nat).
Proof.
  intros Hint.
  destruct (buildExpandedPairMappings_total parts tr dict Hint) as [keys Hk].
  exists keys. split; [done|]. split.
  - intros ->. destruct parts as [|p [|q rest]]; simpl; [lia..|].
    exfalso.
    destruct (Hint p p) as [sp Hsp]; [by left|by left|].
    destruct (Hint q q) as [sq Hsq]; [by right; left|by left|].
    assert (is_Some (pairKey dict p q)) as [k Hkey].
    { unfold pairKey. rewrite Hsp, Hsq. by eexists. }
    apply (not_elem_of_nil k).
    apply (buildExpandedPairMappings_spec _ _ _ _ Hk k).
    exists 0%nat, 1%nat, p, q, p, q.
    split_and!; [lia|done|done|by left|by left|done].
  - intros Hlen. destruct parts as [|p [|q rest]]; simpl in Hlen; [..|lia].
    + by injection Hk as <-.
    + by injection Hk as <-.
Qed.

Lemma buildExpandedPairMappings_empty_witness :
  interned Examples.billDict Examples.billTradeouts [0%N]
  ∧ buildExpandedPairMappings [0%N] Examples.billTradeouts Examples.billDict
    = Some [].
Proof.
  assert (interned Examples.billDict Examples.billTradeouts [0%N]) as Hint.
  { intros p w Hp Hw. apply list_elem_of_singleton in Hp as ->.
    assert (w = 0%N ∨ w = 1%N) as [-> | ->]; [|by eexists..].
    destruct Hw as [->|(ms & Hms & Hw)]; [by left|].
    vm_compute in Hms. injection Hms as <-. set_solver. }
  split; [exact Hint|].
  destruct (buildExpandedPairMappings_empty [0%N] Examples.billTradeouts
              Examples.billDict Hint) as (keys & Hk & Hiff).
  rewrite Hk. f_equal. apply Hiff. simpl. lia.
Defined.

(** *** The probe keys do not depend on the word order *)

Lemma keys_symmetric parts tr dict keys :
  buildExpandedPairMappings parts tr dict = Some keys →
  ∀ k, k ∈ keys ↔
    ∃ i j pI pJ wI wJ,
      i ≠ j ∧ parts !! i = Some pI ∧ parts !! j = Some pJ
      ∧ choice tr pI wI ∧ choice tr pJ wJ
      ∧ pairKey dict wI wJ = Some k.
Proof.
  intros Hk k. rewrite (buildExpandedPairMappings_spec _ _ _ _ Hk k). split.
  - intros (i & j & pI & pJ & wI & wJ & Hij & H).
    exists i, j, pI, pJ, wI, wJ. split; [lia|done].
  - intros (i & j & pI & pJ & wI & wJ & Hij & Hi & Hj & HI & HJ & Hkey).
    destruct (decide (i < j)%nat).
    + exists i, j, pI, pJ, wI, wJ. by split_and!.
    + exists j, i, pJ, pI, wJ, wI. rewrite pairKey_comm.
      split_and!; [lia|done..].
Qed.

Lemma interned_perm dict tr parts parts' :
  parts ≡ₚ parts' → interned dict tr parts → interned dict tr parts'.
Proof. intros Hp Hint p w Hin. apply Hint. by rewrite Hp. Qed.

Lemma keys_perm_incl parts parts' tr dict keys keys' :
  parts ≡ₚ parts' →
  buildExpandedPairMappings parts tr dict = Some keys →
  buildExpandedPairMappings parts' tr dict = Some keys' →
  ∀ k, k ∈ keys → k ∈ keys'.
Proof.
  intros Hp Hk Hk' k.
  rewrite (keys_symmetric _ _ _ _ Hk k), (keys_symmetric _ _ _ _ Hk' k).
  apply Permutation_inj in Hp as (_ & f & Hinj & Hf).
  intros (i & j & pI & pJ & wI & wJ & Hij & Hi & Hj & HI & HJ & Hkey).
  exists (f i), (f j), pI, pJ, wI, wJ.
  rewrite <- (Hf i), <- (Hf j). split_and!; [|done..].
  intros Heq. by apply Hij, Hinj.
Qed.

(** X18. The set of probe keys of a name does not depend on the order of
    its tokens: for two vectors that are permutations of each other (ids
    interned) the builder returns sequences with the same elements. *)
Theorem buildExpandedPairMappings_order (parts parts' : list N)
    (tr : gmap N (list N)) (dict : Dictionary) :
  parts ≡ₚ parts' → interned dict tr parts →
  ∃ keys keys',
    buildExpandedPairMappings parts tr dict = Some keys
    ∧ buildExpandedPairMappings parts' tr dict = Some keys'
    ∧ ∀ k, k ∈ keys ↔ k ∈ keys'.
Proof.
  intros Hp Hint.
  destruct (buildExpandedPairMappings_total parts tr dict Hint) as [keys Hk].
  destruct (buildExpandedPairMappings_total parts' tr dict
              (interned_perm _ _ _ _ Hp Hint)) as [keys' Hk'].
  exists keys, keys'. split_and!; [done..|]. intros k. split.
  - by eapply keys_perm_incl.
  - eapply keys_perm_incl; [symmetry; exact Hp|done..].
Qed.
End PairKeysMore.

(** ** More on the output *)

Module OutputMore.
Import Validator PairKeys Worker Driver Props MoreProps.
Import ValidatorFacts WorkerFacts PairKeysFacts OutputFacts.

(** X15. Below the wrap of its counter, the file of a worker holds exactly
    the lines of the passing candidates of its jobs: a line is written if
    and only if it is the line of a job name of two tokens or more and of
    another name, listed in the index under a probe key of the job name,
    that the validator's rules pass. *)
Theorem processBatch_output (data : ProcessedData) (dictSize : nat)
    (jobs : list string) (w : State) :
  processBatch data dictSize jobs = Some w →
  11 + 2 * Z.of_nat (callsForJobs data jobs) < 2 ^ 64 →
  ∀ line, line ∈ written w ↔
    ∃ name key otherNames other,
      name ∈ jobs
      ∧ 2 <= Z.of_nat (length (default [] (NameWords data !! name)))
      ∧ probeKey (TradeoutSets data) (Dict data)
          (default [] (NameWords data !! name)) key
      ∧ PairToNames data !! key = Some otherNames
      ∧ other ∈ otherNames ∧ other ≠ name
      ∧ passes data dictSize name other = true
      ∧ line = (matchOf name other +:+ newline)%string.
Proof.
  intros Hrun Hmax line.
  rewrite (processBatch_lines data dictSize jobs w Hrun Hmax line).
  unfold nameLine, passingAmong. split.
  - intros (name & Hname & Hlen & key & others & m & Hkey & Hothers
            & (other & Ho & Hne & Hp & ->) & ->).
    by exists name, key, others, other.
  - intros (name & key & others & other & Hname & Hlen & Hkey & Hothers
            & Ho & Hne & Hp & ->).
    exists name. split; [done|]. split; [done|].
    exists key, others, (matchOf name other). split_and!; [done..| |done].
    by exists other.
Qed.

(** X17. The generation counter counts the validator calls: below the
    wrap, a worker ends with [currentGen = 10 + 2 * c], where [c] is the
    number of candidates other than the job name itself that its jobs
    find in the index; its buffer keeps the length it was made with and no
    cell exceeds the last stamp. *)
Theorem processBatch_generation (data : ProcessedData) (dictSize : nat)
    (jobs : list string) (w : State) :
  processBatch data dictSize jobs = Some w →
  11 + 2 * Z.of_nat (callsForJobs data jobs) < 2 ^ 64 →
  currentGen w = 10 + 2 * Z.of_nat (callsForJobs data jobs)
  ∧ length (matchesBuffer w) = dictSize
  ∧ Forall (λ c, c <= currentGen w + 1) (matchesBuffer w).
Proof.
  intros Hrun Hmax.
  destruct (processJobs_lines data dictSize jobs (start dictSize) w Hrun
              (start_steady dictSize) ltac:(simpl; lia))
    as (Hgen & (_ & Hb & Hlen) & _).
  by split_and!.
Qed.
End OutputMore.

(** ** The whole run *)

Module MainFacts.
Import Validator PairKeys Worker Driver Props MoreProps.
Import ValidatorFacts WorkerFacts PairKeysFacts OutputFacts DriverFacts.

Lemma runWorkers_lines data dictSize assignment outs :
  runWorkers data dictSize assignment = Some outs →
  noWrap data assignment →
  ∀ line, line ∈ mergeFiles outs ↔
    ∃ name, name ∈ concat assignment ∧ nameLine data dictSize name line.
Proof.
  unfold runWorkers, mergeFiles, noWrap. intros Hrun Hmax line.
  apply mapM_Some in Hrun. rewrite Forall_forall in Hmax.
  rewrite list_elem_of_In, in_concat. split.
  - intros (out & Hout%list_elem_of_In & Hline%list_elem_of_In).
    apply list_elem_of_lookup in Hout as [i Hi].
    destruct (Forall2_lookup_r _ _ _ _ _ Hrun Hi) as (jobs & Hjobs & Hw).
    destruct (processBatch data dictSize jobs) as [w|] eqn:E; [|done].
    injection Hw as <-.
    assert (jobs ∈ assignment) as Hin by (by eapply list_elem_of_lookup_2).
    apply (processBatch_lines data dictSize jobs w E (Hmax jobs Hin)) in Hline
      as (name & Hname & Hnl).
    exists name. split; [|done].
    apply list_elem_of_In, in_concat. exists jobs.
    by rewrite <- !list_elem_of_In.
  - intros (name & Hname%list_elem_of_In%in_concat & Hnl).
    destruct Hname as (jobs & Hjobs%list_elem_of_In & Hname%list_elem_of_In).
    apply list_elem_of_lookup in Hjobs as [i Hi].
    destruct (Forall2_lookup_l _ _ _ _ _ Hrun Hi) as (out & Hout & Hw).
    destruct (processBatch data dictSize jobs) as [w|] eqn:E; [|done].
    injection Hw as <-.
    assert (jobs ∈ assignment) as Hin by (by eapply list_elem_of_lookup_2).
    exists (written w). rewrite <- !list_elem_of_In.
    split; [by eapply list_elem_of_lookup_2|].
    apply (processBatch_lines data dictSize jobs w E (Hmax jobs Hin)).
    by exists name.
Qed.

(** X16. The set of output lines does not depend on how the names are
    distributed among the workers, nor on the order of their files: for
    every distribution of [all_names] on which no worker's counter wraps,
    the run returns an output, and a line is in it if and only if it is
    the line of a passing candidate of some name of [all_names]. *)
Theorem main_output_set (Fields : string → list string)
    (raw : Raw.InputData) (assignment : list (list string)) :
  let data := preprocessData Fields raw in
  let dictSize := length (intToStr (Dict data)) in
  concat assignment ≡ₚ Raw.AllNames raw →
  noWrap data assignment →
  ∃ out,
    main Fields raw assignment = Some out
    ∧ ∀ line, line ∈ out ↔
        ∃ name, name ∈ Raw.AllNames raw ∧ nameLine data dictSize name line.
Proof.
  intros data dictSize Hperm Hmax.
  assert (is_Some (runWorkers data dictSize assignment)) as [outs Houts].
  { unfold runWorkers. apply mapM_is_Some_2, Forall_forall.
    intros jobs _. simpl. apply fmap_is_Some, processJobs_total.
    intros name. apply (preprocessData_interned Fields raw). }
  exists (mergeFiles outs). split.
  - unfold main. fold data dictSize. by rewrite Houts.
  - intros line.
    rewrite (runWorkers_lines data dictSize assignment outs Houts Hmax line).
    split; intros (name & Hname & Hnl); exists name; (split; [|done]).
    + by rewrite <- Hperm.
    + by rewrite Hperm.
Qed.

Lemma main_output_set_witness :
  concat [["smith john"]; ["john smith"]]%string
    ≡ₚ Raw.AllNames MoreExamples.rawTwoNames
  ∧ ∃ out,
      main String.words MoreExamples.rawTwoNames
        [["smith john"]; ["john smith"]]%string = Some out.
Proof.
  assert (concat [["smith john"]; ["john smith"]]%string
            ≡ₚ Raw.AllNames MoreExamples.rawTwoNames) as Hperm
    by (apply (bool_decide_unpack _); vm_compute; exact I).
  assert (noWrap (preprocessData String.words MoreExamples.rawTwoNames)
            [["smith john"]; ["john smith"]]%string) as Hmax
    by (repeat constructor; vm_compute; reflexivity).
  split; [exact Hperm|].
  destruct (main_output_set String.words MoreExamples.rawTwoNames
              [["smith john"]; ["john smith"]]%string Hperm Hmax)
    as (out & Hout & _).
  by exists out.
Defined.
End MainFacts.

(** ** Instances on the examples *)

Module MoreWitnesses.
Import Validator PairKeys Worker Driver Props MoreProps.
Import DriverFacts PairKeysMore OutputMore.

Lemma rawTwoNames_keys : NoDup (Raw.WordToMatches MoreExamples.rawTwoNames).*1.
Proof. apply (bool_decide_unpack _). vm_compute. exact I. Defined.

Lemma rawTwoNames_roomy :
  roomy (Dict (preprocessData String.words MoreExamples.rawTwoNames)).
Proof. vm_compute. discriminate. Defined.

Lemma preprocessData_bijection_witness :
  NoDup (Raw.WordToMatches MoreExamples.rawTwoNames).*1
  ∧ roomy (Dict (preprocessData String.words MoreExamples.rawTwoNames))
  ∧ ∀ id s,
      GetStr (Dict (preprocessData String.words MoreExamples.rawTwoNames)) id
        = Some s
      ↔ strToInt (Dict (preprocessData String.words MoreExamples.rawTwoNames))
          !! s = Some id.
Proof.
  split_and!; [exact rawTwoNames_keys|exact rawTwoNames_roomy|].
  exact (proj1 (preprocessData_bijection String.words
                  MoreExamples.rawTwoNames rawTwoNames_keys
                  rawTwoNames_roomy)).
Defined.

Lemma preprocessData_tables_witness :
  ("john"%string, ["john"%string]) ∈ Raw.WordToMatches MoreExamples.rawTwoNames
  ∧ ∃ kID ids,
      WordToMatches (preprocessData String.words MoreExamples.rawTwoNames)
        !! kID = Some ids
      ∧ spells (Dict (preprocessData String.words MoreExamples.rawTwoNames))
          ids ["john"%string].
Proof.
  assert (("john"%string, ["john"%string])
            ∈ Raw.WordToMatches MoreExamples.rawTwoNames) as Hin by left.
  split; [exact Hin|].
  destruct (preprocessData_tables String.words MoreExamples.rawTwoNames
              rawTwoNames_keys rawTwoNames_roomy _ _ Hin)
    as (kID & ids & _ & _ & Hw & Hsp & _).
  by exists kID, ids.
Defined.

Lemma preprocessData_names_witness :
  "john smith"%string ∈ Raw.AllNames MoreExamples.rawTwoNames
  ∧ ∃ ids,
      NameWords (preprocessData String.words MoreExamples.rawTwoNames)
        !! "john smith"%string = Some ids
      ∧ length ids = 2%nat.
Proof.
  assert ("john smith"%string ∈ Raw.AllNames MoreExamples.rawTwoNames)
    as Hin by left.
  split; [exact Hin|].
  destruct (proj1 (preprocessData_names String.words MoreExamples.rawTwoNames
                     rawTwoNames_keys rawTwoNames_roomy) _ Hin)
    as (ids & Hids & _ & Hlen).
  exists ids. split; [exact Hids|]. rewrite Hlen. reflexivity.
Defined.

Lemma buildExpandedPairMappings_order_witness :
  [0; 1]%N ≡ₚ [1; 0]%N
  ∧ ∃ keys keys',
      buildExpandedPairMappings [0; 1]%N Examples.billTradeouts
        Examples.billDict = Some keys
      ∧ buildExpandedPairMappings [1; 0]%N Examples.billTradeouts
          Examples.billDict = Some keys'
      ∧ ∀ k, k ∈ keys ↔ k ∈ keys'.
Proof.
  assert ([0; 1]%N ≡ₚ [1; 0]%N) as Hp by apply Permutation_swap.
  split; [exact Hp|].
  apply (buildExpandedPairMappings_order _ _ _ _ Hp).
  intros p w Hp' Hw.
  assert (w = 0%N ∨ w = 1%N) as [-> | ->]; [|by eexists..].
  assert (p = 0%N ∨ p = 1%N) as Hp'' by set_solver.
  destruct Hw as [->|(ms & Hms & Hw)]; [done|].
  destruct Hp'' as [-> | ->]; vm_compute in Hms; injection Hms as <-;
    set_solver.
Defined.

Lemma processBatch_output_witness :
  ∃ w,
    processBatch Examples.twoNames 2 ["john smith"]%string = Some w
    ∧ ∀ line, line ∈ written w ↔
        ∃ name key otherNames other,
          name ∈ ["john smith"]%string
          ∧ 2 <= Z.of_nat (length (default []
                             (NameWords Examples.twoNames !! name)))
          ∧ probeKey (TradeoutSets Examples.twoNames)
              (Dict Examples.twoNames)
              (default [] (NameWords Examples.twoNames !! name)) key
          ∧ PairToNames Examples.twoNames !! key = Some otherNames
          ∧ other ∈ otherNames ∧ other ≠ name
          ∧ passes Examples.twoNames 2 name other = true
          ∧ line = (matchOf name other +:+ newline)%string.
Proof.
  destruct (processBatch Examples.twoNames 2 ["john smith"]%string)
    as [w|] eqn:E.
  - exists w. split; [reflexivity|].
    apply (processBatch_output Examples.twoNames 2 ["john smith"]%string w E).
    vm_compute. reflexivity.
  - vm_compute in E. discriminate E.
Defined.

Lemma processBatch_generation_witness :
  ∃ w,
    processBatch Examples.twoNames 2 ["john smith"; "smith john"]%string
      = Some w
    ∧ currentGen w = 14.
Proof.
  destruct (processBatch Examples.twoNames 2
              ["john smith"; "smith john"]%string) as [w|] eqn:E.
  - exists w. split; [reflexivity|].
    assert (11 + 2 * Z.of_nat (callsForJobs Examples.twoNames
                                 ["john smith"; "smith john"]%string)
            < 2 ^ 64) as Hmax by (vm_compute; reflexivity).
    destruct (processBatch_generation Examples.twoNames 2
                ["john smith"; "smith john"]%string w E Hmax) as (Hgen & _).
    rewrite Hgen. vm_compute. reflexivity.
  - vm_compute in E. discriminate E.
Defined.
End MoreWitnesses.
